(** * Garden execution core: task graph, result cache, config context,
      config graph and action-handler dispatch.

    A shallow embedding of the TypeScript sources under
    [garden-service/src] together with the properties checked against
    them.  JavaScript objects and [Map]s are insertion ordered, and the
    code relies on that order ([Object.values], [Array.from(map.values())],
    "last handler wins"), so they are modelled as association lists with
    JavaScript's update-in-place semantics rather than as unordered finite
    maps.  Dates are millisecond timestamps in [Z]. *)

From Stdlib Require Import List String Ascii ZArith Lia Bool Arith.
From Stdlib Require Import Permutation Sorted.
From Stdlib Require DecimalString.
Import ListNotations.

Local Open Scope string_scope.
Local Open Scope Z_scope.

(* ===================================================================== *)
(** ** JavaScript objects with string keys *)
(* ===================================================================== *)

(** Keys in this code base are task keys, plugin names, service names and
    dotted paths; none of them is a canonical array index, so property
    order is insertion order. *)
Module JsObject.

Section Obj.
Context {V : Type}.

Definition t := list (string * V).

Definition empty : t := [].

(** [o[k]] *)
Fixpoint get (o : t) (k : string) : option V :=
match o with
| [] => None
| (k', v) :: r => if String.eqb k' k then Some v else get r k
end.

(** [o[k] = v]: an existing property keeps its position. *)
Fixpoint set (o : t) (k : string) (v : V) : t :=
match o with
| [] => [(k, v)]
| (k', v') :: r =>
    if String.eqb k' k then (k, v) :: r else (k', v') :: set r k v
end.

(** [delete o[k]] *)
Fixpoint delete (o : t) (k : string) : t :=
match o with
| [] => []
| (k', v') :: r =>
    if String.eqb k' k then delete r k else (k', v') :: delete r k
end.

(** [k in o] / [map.has(k)] *)
Definition has (o : t) (k : string) : bool :=
match get o k with Some _ => true | None => false end.

Definition keys (o : t) : list string := map fst o.
Definition values (o : t) : list V := map snd o.
End Obj.

Arguments t : clear implicits.

End JsObject.

(** lodash [sortBy(xs, field)]: a stable ascending sort. *)
Section SortBy.
Context {A : Type} (f : A -> Z).

Fixpoint insert_by (x : A) (l : list A) : list A :=
  match l with
  | [] => [x]
  | y :: r => if f x <=? f y then x :: y :: r else y :: insert_by x r
  end.

Definition sortBy (l : list A) : list A := fold_right insert_by [] l.
End SortBy.

(** [String(n)] for a natural number. *)
Definition string_of_nat (n : nat) : string :=
  DecimalString.NilEmpty.string_of_uint (Nat.to_uint n).

(* ===================================================================== *)
(** ** Task results and the result cache (task-graph.ts) *)
(* ===================================================================== *)

Set Warnings "-register-all".

(** [interface TaskResult].  [params] is opaque to the scheduler and is
    left out; [output] and [error] are optional fields. *)
Inductive TaskResult : Type := mkTaskResult {
  r_type : string;
  r_baseKey : string;
  r_key : string;
  r_id : string;
  r_description : string;
  r_output : option string;
  r_dependencyResults : list (string * TaskResult);
  r_error : option string;
  r_startedAt : Z;
  r_completedAt : Z
}.

Set Warnings "register-all".

Definition MAX_CACHE_SIZE : Z := 1000.

(** [CACHE_CLEANUP_RATIO = 0.8], kept as the fraction 8/10. *)
Definition CACHE_CLEANUP_RATIO_NUM : Z := 8.
Definition CACHE_CLEANUP_RATIO_DEN : Z := 10.

Module ResultCache.

(** [class ResultCache { cache; length }] *)
Record t : Type := mk {
  cache : JsObject.t TaskResult;
  length : Z
}.

(** [constructor()] *)
Definition new : t := mk JsObject.empty 0.

(** [Math.floor(MAX_CACHE_SIZE * CACHE_CLEANUP_RATIO)] *)
Definition cleanupCount : Z :=
  (MAX_CACHE_SIZE * CACHE_CLEANUP_RATIO_NUM) / CACHE_CLEANUP_RATIO_DEN.

(** [sortBy(Object.values(this.cache), "completedAt").slice(cleanupCount)] *)
Definition expired (c : t) : list TaskResult :=
  skipn (Z.to_nat cleanupCount)
        (sortBy r_completedAt (JsObject.values (cache c))).

(** [cleanup()]: deletes every expired result by its key; the [length]
    counter is not touched. *)
Definition cleanup (c : t) : t :=
  mk (fold_left (fun o r => JsObject.delete o (r_key r)) (expired c) (cache c))
     (length c).

(** [put(result)] *)
Definition put (c : t) (result : TaskResult) : t :=
  let c1 := mk (JsObject.set (cache c) (r_key result) result) (length c + 1) in
  if MAX_CACHE_SIZE <=? length c1 then cleanup c1 else c1.

(** [get(key)]: [(r && r.key === key && !r.error) ? r : null] *)
Definition get (c : t) (key : string) : option TaskResult :=
  match JsObject.get (cache c) key with
  | Some r =>
      if String.eqb (r_key r) key
      then match r_error r with None => Some r | Some _ => None end
      else None
  | None => None
  end.

(** [pick(keys)] *)
Definition pick (c : t) (keys : list string) : list (string * TaskResult) :=
  fold_left
    (fun results key =>
       match get c key with
       | Some cachedResult => JsObject.set results key cachedResult
       | None => results
       end)
    keys JsObject.empty.

(** Number of results held. *)
Definition size (c : t) : nat := List.length (cache c).

End ResultCache.

(** A successful result of a task keyed ["task.<i>"] that completed at
    time [i]. *)
Definition sampleResult (i : nat) : TaskResult :=
  let k := "task." ++ string_of_nat i in
  mkTaskResult "task" k k k k (Some "ok") [] None (Z.of_nat i) (Z.of_nat i).

(** The cache after results [0 .. n-1] were put in completion order. *)
Definition filledCache (n : nat) : ResultCache.t :=
  fold_left ResultCache.put (map sampleResult (seq 0 n)) ResultCache.new.

(** Whether [get] finds the [i]-th sample result in the cache. *)
Definition holds (c : ResultCache.t) (i : nat) : bool :=
  match ResultCache.get c (r_key (sampleResult i)) with
  | Some r => Z.eqb (r_completedAt r) (Z.of_nat i)
  | None => false
  end.

(* ===================================================================== *)
(** ** Error classes (exceptions.ts) and JavaScript runtime errors *)
(* ===================================================================== *)

(** The error classes thrown by the embedded code, each with its message.
    [TemplateStringError] is declared in template-string.ts; [TypeError] is
    the JavaScript runtime error raised when a property of [undefined] is
    read. *)
Inductive GardenError : Type :=
  | ConfigurationError (msg : string)
  | PluginError (msg : string)
  | ParameterError (msg : string)
  | InternalError (msg : string)
  | TemplateStringError (msg : string)
  | TypeError (msg : string).

(** The class of an error, without its message. *)
Inductive ErrorClass : Type :=
  | ClsConfiguration | ClsPlugin | ClsParameter | ClsInternal
  | ClsTemplateString | ClsType.

Definition errorClass (e : GardenError) : ErrorClass :=
  match e with
  | ConfigurationError _ => ClsConfiguration
  | PluginError _ => ClsPlugin
  | ParameterError _ => ClsParameter
  | InternalError _ => ClsInternal
  | TemplateStringError _ => ClsTemplateString
  | TypeError _ => ClsType
  end.

(** Truthiness of an optional string argument ([!!pluginName]): absent and
    the empty string are both falsy. *)
Definition truthyName (s : option string) : bool :=
  match s with
  | Some n => negb (String.eqb n "")
  | None => false
  end.

(* ===================================================================== *)
(** ** Plugin action handlers (garden.ts) *)
(* ===================================================================== *)

Module Garden.

(** A handler function carries the properties [actionType] and
    [pluginName]; [h_impl] names the plugin function it wraps. *)
Record ActionHandler : Type := mkHandler {
  h_impl : string;
  h_actionType : string;
  h_pluginName : string
}.

(** [ActionHandlerMap]: plugin name -> handler. *)
Definition ActionHandlerMap := JsObject.t ActionHandler.

(** A loaded plugin: its [actions] object, action type -> function. *)
Record GardenPlugin : Type := mkPlugin {
  actions : JsObject.t string
}.

(** The fields of [class Garden] used by handler dispatch. *)
Record t : Type := mk {
  environmentName : string;
  loadedPlugins : JsObject.t GardenPlugin;
  actionHandlers : JsObject.t ActionHandlerMap
}.

(** [defaultProvider.name] (config/project.ts) *)
Definition defaultProviderName : string := "_default".

(** The constructor's
    [this.actionHandlers = fromPairs(pluginActionNames.map(n => [n, {}]))].
    [pluginActionNames] is imported from types/plugin/plugin and is a
    parameter here. *)
Definition new (pluginActionNames : list string) (env : string) : t :=
  mk env JsObject.empty
     (fold_left (fun o n => JsObject.set o n JsObject.empty)
                pluginActionNames JsObject.empty).

(** [async getPlugin(pluginName)]: the settlement of the promise it
    returns. *)
Definition getPlugin (g : t) (pluginName : string) : GardenError + GardenPlugin :=
  match JsObject.get (loadedPlugins g) pluginName with
  | Some plugin => inr plugin
  | None =>
      inl (PluginError ("Could not find plugin " ++ pluginName
                        ++ ". Are you missing a provider configuration?"))
  end.

(** [addActionHandler(pluginName, actionType, handler)].  The promise
    from [getPlugin] is only captured by the wrapper.  Assigning into
    [this.actionHandlers[actionType]] raises a [TypeError] when the
    action type has no table. *)
Definition addActionHandler (g : t) (pluginName actionType handler : string)
  : GardenError + t :=
  let wrapped := mkHandler handler actionType pluginName in
  match JsObject.get (actionHandlers g) actionType with
  | None => inl (TypeError "Cannot set property of undefined")
  | Some table =>
      inr (mk (environmentName g) (loadedPlugins g)
              (JsObject.set (actionHandlers g) actionType
                            (JsObject.set table pluginName wrapped)))
  end.

(** [filterActionHandlers(handlers, pluginName)].  [getPlugin] is async
    and its promise is dropped, so an unknown plugin does not make this
    function throw. *)
Definition filterActionHandlers (g : t) (handlers : option ActionHandlerMap)
           (pluginName : option string) : ActionHandlerMap :=
  let handlers := match handlers with Some h => h | None => JsObject.empty end in
  match pluginName with
  | Some p =>
      if truthyName pluginName
      then filter (fun kv => String.eqb (h_pluginName (snd kv)) p) handlers
      else handlers
  | None => handlers
  end.

(** [getActionHandlers(actionType, pluginName?)] *)
Definition getActionHandlers (g : t) (actionType : string)
           (pluginName : option string) : ActionHandlerMap :=
  filterActionHandlers g (JsObject.get (actionHandlers g) actionType) pluginName.

(** [getActionHandler({ actionType, pluginName, defaultHandler })] *)
Definition getActionHandler (g : t) (actionType : string)
           (pluginName : option string) (defaultHandler : option ActionHandler)
  : GardenError + ActionHandler :=
  let handlers := JsObject.values (getActionHandlers g actionType pluginName) in
  match rev handlers with
  | h :: _ => inr h
  | [] =>
      match defaultHandler with
      | Some d => inr (mkHandler (h_impl d) (h_actionType d) defaultProviderName)
      | None =>
          match pluginName with
          | Some p =>
              if truthyName pluginName
              then inl (PluginError ("Plugin '" ++ p ++ "' does not have a '"
                                     ++ actionType ++ "' handler."))
              else inl (ParameterError
                          ("No '" ++ actionType ++ "' handler configured in environment '"
                           ++ environmentName g
                           ++ "'. Are you missing a provider configuration?"))
          | None =>
              inl (ParameterError
                     ("No '" ++ actionType ++ "' handler configured in environment '"
                      ++ environmentName g
                      ++ "'. Are you missing a provider configuration?"))
          end
      end
  end.

(** A registration table is well formed when every handler sits under
    its own plugin's name and no plugin occurs twice. *)
Definition wfTable (tbl : ActionHandlerMap) : Prop :=
  NoDup (JsObject.keys tbl)
  /\ forall k h, In (k, h) tbl -> h_pluginName h = k.

End Garden.

(** The action names of the samples, and a garden for the environment
    [local] as the constructor leaves it: every action type has a handler
    table and no plugin has registered a handler. *)
Definition samplePluginActionNames : list string :=
  ["getEnvironmentStatus"; "prepareEnvironment"; "cleanupEnvironment"].

Definition sampleGarden : Garden.t := Garden.new samplePluginActionNames "local".

(* ===================================================================== *)
(** ** Error-returning computations *)
(* ===================================================================== *)

(** A computation that either throws or returns. *)
Definition Result (A : Type) : Type := (GardenError + A)%type.

Definition ret {A} (a : A) : Result A := inr a.
Definition throw {A} (e : GardenError) : Result A := inl e.

Definition bind {A B} (m : Result A) (k : A -> Result B) : Result B :=
  match m with
  | inl e => inl e
  | inr a => k a
  end.

Notation "x <- m ;; k" := (bind m (fun x => k))
  (at level 61, m at next level, right associativity).

(** [for (const x of xs) { body }] over a threaded state. *)
Fixpoint forEach {A S} (body : S -> A -> Result S) (xs : list A) (s : S) : Result S :=
  match xs with
  | [] => ret s
  | x :: r => s' <- body s x ;; forEach body r s'
  end.

(* ===================================================================== *)
(** ** The configuration graph (config-graph.ts) *)
(* ===================================================================== *)

Module ConfigGraph.

Record BuildDependencyConfig : Type := mkBuildDep {
  bd_name : string;
  bd_plugin : option string
}.

Record ServiceConfig : Type := mkServiceConfig {
  sc_name : string;
  sc_dependencies : list string
}.

Record TaskConfig : Type := mkTaskConfig {
  tc_name : string;
  tc_dependencies : list string
}.

Record TestConfig : Type := mkTestConfig {
  tst_name : string;
  tst_dependencies : list string
}.

(** [Module]: the fields the graph constructor reads. *)
Record Module_ : Type := mkModule {
  m_name : string;
  m_plugin : option string;
  m_buildDependencies : list BuildDependencyConfig;
  m_serviceConfigs : list ServiceConfig;
  m_taskConfigs : list TaskConfig;
  m_testConfigs : list TestConfig
}.

(** Modelled from the spec: a service and a task have a unique name and
    an owning module.  [taskFromConfig] (types/task) is not among the
    sources, and the [serviceFromConfig] among them is a later, asynchronous
    one with the graph as its first parameter, not the two-argument
    function that [addService] calls.  The records pair the configuration
    with its module; no property below reads what [serviceMap] and
    [taskMap] hold. *)
Record Service : Type := mkService {
  s_name : string;
  s_module : Module_;
  s_config : ServiceConfig
}.

Record Task : Type := mkTask {
  t_name : string;
  t_module : Module_;
  t_config : TaskConfig
}.

Inductive ConfigGraphNodeType : Type := build | service | task | test.

Definition typeName (ty : ConfigGraphNodeType) : string :=
  match ty with
  | build => "build"
  | service => "service"
  | task => "task"
  | test => "test"
  end.

(** [nodeKey(type, name)] *)
Definition nodeKey (ty : ConfigGraphNodeType) (name : string) : string :=
  typeName ty ++ "." ++ name.

(** [class ConfigGraphNode].  Nodes refer to each other; the references
    are kept as the node keys under which [index] holds them. *)
Record ConfigGraphNode : Type := mkNode {
  n_type : ConfigGraphNodeType;
  n_name : string;
  n_moduleName : string;
  n_dependencies : list string;
  n_dependants : list string
}.

Record t : Type := mk {
  index : JsObject.t ConfigGraphNode;
  moduleMap : JsObject.t Module_;
  serviceMap : JsObject.t Service;
  taskMap : JsObject.t Task;
  testConfigMap : JsObject.t TestConfig;
  testConfigModuleMap : JsObject.t Module_
}.

Definition empty : t :=
  mk JsObject.empty JsObject.empty JsObject.empty JsObject.empty
     JsObject.empty JsObject.empty.

Definition withIndex (g : t) (ix : JsObject.t ConfigGraphNode) : t :=
  mk ix (moduleMap g) (serviceMap g) (taskMap g) (testConfigMap g)
     (testConfigModuleMap g).

Section Construction.

(** [getModuleKey(name, plugin)] is imported from types/module. *)
Variable getModuleKey : string -> option string -> string.

(** [keyForModule(module)] *)
Definition keyForModule (m : Module_) : string :=
  getModuleKey (m_name m) (m_plugin m).

(** [getNode(type, name, moduleName)]: the key of the existing or newly
    created node, and the graph holding it. *)
Definition getNode (g : t) (ty : ConfigGraphNodeType) (name moduleName : string)
  : string * t :=
  let key := nodeKey ty name in
  match JsObject.get (index g) key with
  | Some _ => (key, g)
  | None =>
      (key, withIndex g (JsObject.set (index g) key (mkNode ty name moduleName [] [])))
  end.

(** [node.addDependency(dep)] and [node.addDependant(dep)], idempotent. *)
Definition addDependency (n : ConfigGraphNode) (depKey : string) : ConfigGraphNode :=
  if existsb (String.eqb depKey) (n_dependencies n) then n
  else mkNode (n_type n) (n_name n) (n_moduleName n)
              (n_dependencies n ++ [depKey])%list (n_dependants n).

Definition addDependant (n : ConfigGraphNode) (depKey : string) : ConfigGraphNode :=
  if existsb (String.eqb depKey) (n_dependants n) then n
  else mkNode (n_type n) (n_name n) (n_moduleName n)
              (n_dependencies n) (n_dependants n ++ [depKey])%list.

Definition updateNode (g : t) (key : string)
           (f : ConfigGraphNode -> ConfigGraphNode) : t :=
  match JsObject.get (index g) key with
  | Some n => withIndex g (JsObject.set (index g) key (f n))
  | None => g
  end.

(** [addRelation(dependant, dependencyType, dependencyName,
    dependencyModuleName)] *)
Definition addRelation (g : t) (dependant : string)
           (dependencyType : ConfigGraphNodeType)
           (dependencyName dependencyModuleName : string) : t :=
  let '(dependency, g1) := getNode g dependencyType dependencyName dependencyModuleName in
  let g2 := updateNode g1 dependant (fun n => addDependency n dependency) in
  updateNode g2 dependency (fun n => addDependant n dependant).

(** The body shared by the three dependency loops:
    [if (this.serviceMap[depName]) { ... service ... }
     else { ... this.taskMap[depName].module ... }].
    Reading [.module] of a missing task is a [TypeError]. *)
Definition addRuntimeDependency (node : string) (g : t) (depName : string) : Result t :=
  match JsObject.get (serviceMap g) depName with
  | Some s => ret (addRelation g node service depName (keyForModule (s_module s)))
  | None =>
      match JsObject.get (taskMap g) depName with
      | Some tk => ret (addRelation g node task depName (keyForModule (t_module tk)))
      | None => throw (TypeError "Cannot read property 'module' of undefined")
      end
  end.

(** [addService(module, moduleKey, serviceConfig)] *)
Definition addService (module : Module_) (moduleKey : string) (g : t)
           (serviceConfig : ServiceConfig) : Result t :=
  let name := sc_name serviceConfig in
  match JsObject.get (serviceMap g) name with
  | Some other =>
      throw (ConfigurationError
               ("Service names must be unique - " ++ name
                ++ " is declared multiple times (in '" ++ m_name (s_module other)
                ++ "' and '" ++ m_name module ++ "')"))
  | None =>
      let g1 := mk (index g) (moduleMap g)
                   (JsObject.set (serviceMap g) name (mkService name module serviceConfig))
                   (taskMap g) (testConfigMap g) (testConfigModuleMap g) in
      let '(serviceNode, g2) := getNode g1 service name moduleKey in
      let g3 := addRelation g2 serviceNode build moduleKey moduleKey in
      forEach (addRuntimeDependency serviceNode) (sc_dependencies serviceConfig) g3
  end.

(** [addTask(module, moduleKey, taskConfig)] *)
Definition addTask (module : Module_) (moduleKey : string) (g : t)
           (taskConfig : TaskConfig) : Result t :=
  let taskName := tc_name taskConfig in
  match JsObject.get (serviceMap g) taskName with
  | Some other =>
      throw (ConfigurationError
               ("Service and task names must be mutually unique - the task name "
                ++ taskName ++ " (declared in '" ++ m_name module
                ++ "') is also declared as a service name in '"
                ++ m_name (s_module other) ++ "'"))
  | None =>
      match JsObject.get (taskMap g) taskName with
      | Some other =>
          throw (ConfigurationError
                   ("Task names must be unique - the task name " ++ taskName
                    ++ " is declared multiple times (in '" ++ m_name (t_module other)
                    ++ "' and '" ++ m_name module ++ "')"))
      | None =>
          let g1 := mk (index g) (moduleMap g) (serviceMap g)
                       (JsObject.set (taskMap g) taskName (mkTask taskName module taskConfig))
                       (testConfigMap g) (testConfigModuleMap g) in
          let '(taskNode, g2) := getNode g1 task taskName moduleKey in
          let g3 := addRelation g2 taskNode build moduleKey moduleKey in
          forEach (addRuntimeDependency taskNode) (tc_dependencies taskConfig) g3
      end
  end.

(** [addTest(module, moduleKey, testConfig)] *)
Definition addTest (module : Module_) (moduleKey : string) (g : t)
           (testConfig : TestConfig) : Result t :=
  let testConfigName := m_name module ++ "." ++ tst_name testConfig in
  let g1 := mk (index g) (moduleMap g) (serviceMap g) (taskMap g)
               (JsObject.set (testConfigMap g) testConfigName testConfig)
               (JsObject.set (testConfigModuleMap g) testConfigName module) in
  let '(testNode, g2) := getNode g1 test testConfigName moduleKey in
  let g3 := addRelation g2 testNode build moduleKey moduleKey in
  forEach (addRuntimeDependency testNode) (tst_dependencies testConfig) g3.

(** The constructor's loop body for one module. *)
Definition addModule (g : t) (module : Module_) : Result t :=
  let moduleKey := keyForModule module in
  let g1 := mk (index g) (JsObject.set (moduleMap g) moduleKey module)
               (serviceMap g) (taskMap g) (testConfigMap g) (testConfigModuleMap g) in
  let '(buildNode, g2) := getNode g1 build moduleKey moduleKey in
  let g3 :=
    fold_left
      (fun acc buildDep =>
         let buildDepKey := getModuleKey (bd_name buildDep) (bd_plugin buildDep) in
         addRelation acc buildNode build buildDepKey buildDepKey)
      (m_buildDependencies module) g2 in
  g4 <- forEach (addService module moduleKey) (m_serviceConfigs module) g3 ;;
  g5 <- forEach (addTask module moduleKey) (m_taskConfigs module) g4 ;;
  forEach (addTest module moduleKey) (m_testConfigs module) g5.

(** [new ConfigGraph(modules)] *)
Definition new (modules : list Module_) : Result t :=
  forEach addModule modules empty.

End Construction.

(** Every runtime dependency name declared by the services, tasks and
    tests of a module. *)
Definition declaredDependencies (m : Module_) : list string :=
  (flat_map sc_dependencies (m_serviceConfigs m)
   ++ flat_map tc_dependencies (m_taskConfigs m)
   ++ flat_map tst_dependencies (m_testConfigs m))%list.

(** Every service and task name declared by a module. *)
Definition declaredNames (m : Module_) : list string :=
  (map sc_name (m_serviceConfigs m) ++ map tc_name (m_taskConfigs m))%list.

End ConfigGraph.

(** A module whose only service depends on a name that no module
    declares. *)
Definition moduleWithUnknownDependency : ConfigGraph.Module_ :=
  ConfigGraph.mkModule "module-a" None []
    [ConfigGraph.mkServiceConfig "service-a" ["missing"]] [] [].

(* ===================================================================== *)
(** ** Template strings and the configuration context
       (template-string.ts, config/config-context.ts) *)
(* ===================================================================== *)

(** [String(z)] for an integer. *)
Definition string_of_Z (z : Z) : string :=
  if z <? 0 then "-" ++ string_of_nat (Z.to_nat (- z))
  else string_of_nat (Z.to_nat z).

(** [s.startsWith("_")] *)
Definition startsWithUnderscore (s : string) : bool :=
  match s with
  | String c _ => Ascii.eqb c "_"
  | EmptyString => false
  end.

(** [parts.split(".")] *)
Fixpoint splitDots (s : string) (acc : string) : list string :=
  match s with
  | EmptyString => [acc]
  | String c rest =>
      if Ascii.eqb c "." then acc :: splitDots rest ""
      else splitDots rest (acc ++ String c "")
  end.

Module Template.

(** A parsed template: literal text and [${dotted.key}] references. *)
Inductive Segment : Type :=
  | Lit (text : string)
  | Ref (key : list string).

Inductive Mode : Type :=
  | InText (acc : string)
  | InExpr (acc : string).

Definition flushText (acc : string) (segs : list Segment) : list Segment :=
  if String.eqb acc "" then segs else Lit acc :: segs.

(** Modelled from the spec: the generated parser (template-string-parser,
    built from a pegjs grammar) is not among the sources.  The
    specification describes templates as strings containing one or more
    [${expr}] segments, an [expr] being a dotted path; this scanner splits
    a string into its literal text and its [${dotted.path}] references and
    rejects an unterminated or nested expression.  [None] stands for the
    parser's syntax error. *)
Fixpoint scan (s : string) (m : Mode) : option (list Segment) :=
  match s, m with
  | EmptyString, InText acc => Some (flushText acc [])
  | EmptyString, InExpr _ => None
  | String c rest, InText acc =>
      match rest with
      | String c' rest' =>
          if Ascii.eqb c "$" && Ascii.eqb c' "{"
          then option_map (flushText acc) (scan rest' (InExpr ""))
          else scan rest (InText (acc ++ String c ""))
      | EmptyString => scan rest (InText (acc ++ String c ""))
      end
  | String c rest, InExpr acc =>
      if Ascii.eqb c "}"
      then option_map (cons (Ref (splitDots acc ""))) (scan rest (InText ""))
      else if Ascii.eqb c "$" || Ascii.eqb c "{" then None
      else scan rest (InExpr (acc ++ String c ""))
  end.

Definition parse (s : string) : option (list Segment) := scan s (InText "").

End Template.

Module ConfigContext.

Set Warnings "-register-all".

(** The JavaScript values a context can hold or return.  A lazy callable
    is a named thunk with the value it yields; a nested context is a
    reference to an instance in the heap; [VNative] stands for a built-in
    inherited from [Object.prototype]. *)
Inductive Value : Type :=
  | VUndefined
  | VString (s : string)
  | VNumber (n : Z)
  | VBool (b : bool)
  | VObject (fields : list (string * Value))
  | VMap (entries : list (string * Value))
  | VFunction (name : string) (result : Value)
  | VContext (ref : nat)
  | VNative (name : string).

Set Warnings "register-all".

(** [isPrimitive(value)] (config/common.ts) *)
Definition isPrimitive (v : Value) : bool :=
  match v with
  | VString _ | VNumber _ | VBool _ => true
  | _ => false
  end.

(** JavaScript truthiness, as used by [if (resolved)]. *)
Definition truthy (v : Value) : bool :=
  match v with
  | VUndefined => false
  | VString s => negb (String.eqb s "")
  | VNumber n => negb (n =? 0)
  | VBool b => b
  | _ => true
  end.

(** An instance of (a subclass of) [ConfigContext]: its declared public
    properties, [_rootContext] and [_resolvedValues]. *)
Record Instance : Type := mkInstance {
  fields : list (string * Value);
  rootContext : nat;
  resolvedValues : JsObject.t Value
}.

Definition Heap := list Instance.

(** What a resolution does besides returning, in order. *)
Inductive Effect : Type :=
  | CycleCheck (fullPath : string)
  | Called (name : string)
  | ResolvedTemplate (template : string).

(** How a call ends.  [OutOfFuel] marks a computation cut off by the
    recursion bound of the model. *)
Inductive Outcome : Type :=
  | Returned (v : Value)
  | Thrown (e : GardenError)
  | OutOfFuel.

Definition Run : Type := (Outcome * Heap * list Effect)%type.

(** Property names every plain object inherits from [Object.prototype];
    [this._resolvedValues] is created as [{}]. *)
Definition objectPrototypeKeys : list string :=
  ["constructor"; "__defineGetter__"; "__defineSetter__"; "hasOwnProperty";
   "__lookupGetter__"; "__lookupSetter__"; "isPrototypeOf";
   "propertyIsEnumerable"; "toString"; "valueOf"; "__proto__";
   "toLocaleString"].

(** [this._resolvedValues[path]] *)
Definition memoLookup (i : Instance) (path : string) : Value :=
  match JsObject.get (resolvedValues i) path with
  | Some v => v
  | None =>
      if existsb (String.eqb path) objectPrototypeKeys then VNative path
      else VUndefined
  end.

(** [this._resolvedValues[path] = value] on instance [c]. *)
Fixpoint setMemo (h : Heap) (c : nat) (path : string) (v : Value) : Heap :=
  match h, c with
  | [], _ => []
  | i :: r, O =>
      mkInstance (fields i) (rootContext i)
                 (JsObject.set (resolvedValues i) path v) :: r
  | i :: r, S c' => i :: setMemo r c' path v
  end.

(** The index denoted by a canonical array-index string. *)
Definition arrayIndex (k : string) : option nat :=
  match DecimalString.NilZero.uint_of_string k with
  | Some u =>
      let n := Nat.of_uint u in
      if String.eqb (string_of_nat n) k then Some n else None
  | None => None
  end.

(** [value instanceof Map ? value.get(nextKey) : value[nextKey]].  For a
    context the declared properties are looked up; for a string its
    [length] and characters.  Methods inherited from prototypes are not
    part of the model. *)
Definition getProperty (h : Heap) (value : Value) (nextKey : string) : Value :=
  match value with
  | VContext c =>
      match nth_error h c with
      | Some i =>
          match JsObject.get (fields i) nextKey with
          | Some v => v
          | None => VUndefined
          end
      | None => VUndefined
      end
  | VMap entries | VObject entries =>
      match JsObject.get entries nextKey with
      | Some v => v
      | None => VUndefined
      end
  | VString s =>
      if String.eqb nextKey "length" then VNumber (Z.of_nat (String.length s))
      else match arrayIndex nextKey with
           | Some n =>
               match String.get n s with
               | Some ch => VString (String ch "")
               | None => VUndefined
               end
           | None => VUndefined
           end
  | _ => VUndefined
  end.

(** The conversion applied to each part by [resolved.join("")]. *)
Definition partToString (v : Value) : string :=
  match v with
  | VString s => s
  | VNumber n => string_of_Z n
  | VBool true => "true"
  | VBool false => "false"
  | VUndefined => ""
  | VNative name => "[native " ++ name ++ "]"
  | _ => "[object Object]"
  end.

Definition circularMessage (path : string) (stack : list string) : string :=
  "Circular reference detected when resolving key " ++ path
  ++ " (" ++ String.concat " -> " stack ++ ")".

Section Resolution.

(** The recursive call [context.resolve({ key, nodePath, stack })] on the
    instance [c], with one unit of fuel less. *)
Variable resolveRec :
  Heap -> nat -> list string -> list string -> option (list string) -> Run.

(** [resolveTemplateString(string, context, opts)].  The parsed parts are
    resolved from left to right.  [getKey] calls
    [context.resolve({ key, nodePath: [], opts })]: the third argument
    travels in [opts], and [resolve] reads [stack], so the callee starts
    from an undefined stack. *)
Fixpoint resolveParts (h : Heap) (context : nat) (segs : list Template.Segment)
         (acc : string) (log : list Effect) : Run :=
  match segs with
  | [] => (Returned (VString acc), h, log)
  | Template.Lit text :: rest => resolveParts h context rest (acc ++ text) log
  | Template.Ref key :: rest =>
      match resolveRec h context key [] None with
      | (Returned v, h', l) =>
          resolveParts h' context rest (acc ++ partToString v) (log ++ l)%list
      | (Thrown e, h', l) => (Thrown e, h', (log ++ l)%list)
      | (OutOfFuel, h', l) => (OutOfFuel, h', (log ++ l)%list)
      end
  end.

Definition resolveTemplateString (h : Heap) (template : string) (context : nat)
           (opts : list string) : Run :=
  match Template.parse template with
  | Some segs => resolveParts h context segs "" [ResolvedTemplate template]
  | None =>
      (Thrown (TemplateStringError ("Invalid template string: " ++ template)),
       h, [ResolvedTemplate template])
  end.

(** The [for (let p = 0; p < key.length; p++)] loop of [resolve].
    [lookupPrefix] is [key.slice(0, p)] and [rest] is [key.slice(p)]. *)
Fixpoint walk (root : nat) (nodePath : list string) (h : Heap)
         (log : list Effect) (value : Value) (stack : list string)
         (lookupPrefix rest : list string) : Run :=
  match rest with
  | [] => (Returned value, h, log)
  | nextKey :: remainder =>
      let lookupPath := (lookupPrefix ++ [nextKey])%list in
      let nestedNodePath := (nodePath ++ lookupPath)%list in
      let stackEntry := String.concat "." nestedNodePath in
      let v1 :=
        if startsWithUnderscore nextKey then VUndefined
        else getProperty h value nextKey in
      let '(v2, log2) :=
        match v1 with
        | VFunction name result => (result, (log ++ [Called name])%list)
        | _ => (v1, log)
        end in
      match v2 with
      | VContext nested =>
          let '(o, h', l) :=
            resolveRec h nested remainder nestedNodePath
                       (Some (stack ++ [stackEntry])%list) in
          (o, h', (log2 ++ l)%list)
      | VString template =>
          let stack' := (stack ++ [stackEntry])%list in
          match resolveTemplateString h template root stack' with
          | (Returned v3, h', l) =>
              match v3 with
              | VUndefined => (Returned VUndefined, h', (log2 ++ l)%list)
              | _ => walk root nodePath h' (log2 ++ l)%list v3 stack' lookupPath remainder
              end
          | (o, h', l) => (o, h', (log2 ++ l)%list)
          end
      | VUndefined => (Returned VUndefined, h, log2)
      | _ => walk root nodePath h log2 v2 stack lookupPath remainder
      end
  end.

(** [resolve] past its memo check: the stack check, the walk along the
    key, the final checks and the memo write. *)
Definition resolveUncached (h : Heap) (c : nat) (this : Instance)
           (key nodePath : list string) (stack : option (list string)) : Run :=
  let path := String.concat "." key in
  let fullPath := String.concat "." (nodePath ++ key) in
  let stack := match stack with Some st => st | None => [] end in
  if existsb (String.eqb fullPath) stack
  then (Thrown (ConfigurationError (circularMessage path stack)), h,
        [CycleCheck fullPath])
  else
    match walk (rootContext this) nodePath h [CycleCheck fullPath]
               (VContext c) stack [] key with
    | (Returned value, h', log) =>
        match value with
        | VUndefined =>
            (Thrown (ConfigurationError ("Could not find key: " ++ path)), h', log)
        | _ =>
            if isPrimitive value
            then (Returned value, setMemo h' c path value, log)
            else (Thrown (ConfigurationError
                            ("Config value at " ++ path
                             ++ " exists but is not a primitive "
                             ++ "(string, number or boolean)")),
                  h', log)
        end
    | other => other
    end.

(** The body of [resolve({ key, nodePath, stack })] on instance [c]:
    [if (resolved) { return resolved }], then the rest. *)
Definition resolveBody (h : Heap) (c : nat) (key nodePath : list string)
           (stack : option (list string)) : Run :=
  match nth_error h c with
  | None => (Thrown (TypeError "resolve called on a missing instance"), h, [])
  | Some this =>
      let resolved := memoLookup this (String.concat "." key) in
      if truthy resolved then (Returned resolved, h, [])
      else resolveUncached h c this key nodePath stack
  end.

End Resolution.

(** [ConfigContext.resolve], bounded by [fuel] nested calls. *)
Fixpoint resolve (fuel : nat) (h : Heap) (c : nat) (key nodePath : list string)
         (stack : option (list string)) : Run :=
  match fuel with
  | O => (OutOfFuel, h, [])
  | S fuel' => resolveBody (resolve fuel') h c key nodePath stack
  end.

Definition outcomeOf (r : Run) : Outcome := fst (fst r).
Definition heapOf (r : Run) : Heap := snd (fst r).
Definition effectsOf (r : Run) : list Effect := snd r.

(** The memo entry of instance [c] for [path]. *)
Definition memoOf (h : Heap) (c : nat) (path : string) : option Value :=
  match nth_error h c with
  | Some i => JsObject.get (resolvedValues i) path
  | None => None
  end.

(** One later call of [resolve], on any instance and with any arguments,
    that ran to completion. *)
Inductive laterHeap : Heap -> Heap -> Prop :=
  | later_now h : laterHeap h h
  | later_call h h1 h2 fuel c key nodePath stack :
      laterHeap h h1 ->
      heapOf (resolve fuel h1 c key nodePath stack) = h2 ->
      laterHeap h h2.

End ConfigContext.

(** A root context whose variables [a] and [b] refer to each other. *)
Definition mutualReferenceHeap : ConfigContext.Heap :=
  [ConfigContext.mkInstance
     [("a", ConfigContext.VString "${b}"); ("b", ConfigContext.VString "${a}")]
     0 JsObject.empty].

(** A root context with a plain variable, a templated variable, a lazy
    callable yielding the empty string and a nested context. *)
Definition sampleHeap : ConfigContext.Heap :=
  [ConfigContext.mkInstance
     [("name", ConfigContext.VString "garden");
      ("greeting", ConfigContext.VString "hello-${name}");
      ("blank", ConfigContext.VFunction "blank" (ConfigContext.VString ""));
      ("lazy", ConfigContext.VFunction "lazy" (ConfigContext.VString "value"));
      ("environment", ConfigContext.VContext 1)]
     0 JsObject.empty;
   ConfigContext.mkInstance
     [("name", ConfigContext.VString "local")]
     0 JsObject.empty].

(* ===================================================================== *)
(** ** The task graph (task-graph.ts, tasks/base.ts) *)
(* ===================================================================== *)

Set Warnings "-register-all".

(** [abstract class BaseTask] (tasks/base.ts): the fields the scheduler
    reads.  [t_dependencies] is what [getDependencies()] returns;
    [t_concurrencyLimit] is the optional [concurrencyLimit]. *)
Inductive BaseTask : Type := mkBaseTask {
  t_type : string;
  t_name : string;
  t_paramsHash : string;
  t_id : string;
  t_force : bool;
  t_versionString : string;
  t_concurrencyLimit : option Z;
  t_description : string;
  t_dependencies : list BaseTask
}.

Set Warnings "register-all".

(** [getBaseKey()] *)
Definition getBaseKey (task : BaseTask) : string :=
  t_type task ++ "." ++ t_name task.

(** [getKey()] *)
Definition getKey (task : BaseTask) : string :=
  getBaseKey task ++ "." ++ String.substring 0 8 (t_paramsHash task).

(** Modelled from the spec: [getIndexKey(task)], called by the [TaskNode]
    constructor, is not among the sources.  The specification gives a
    TaskNode the key [type.name.paramsHash8], that is, the task's
    [getKey()]. *)
Definition getIndexKey (task : BaseTask) : string := getKey task.

(** [class TaskNode].  [type], [baseKey], [key] and [id] are fixed by the
    constructor from the task.  The node's [dependencies] map is its only
    mutable part; it lives in the graph's [depStore] under the node's
    object identity [n_oid]. *)
Record TaskNode : Type := mkTaskNode {
  n_oid : nat;
  n_task : BaseTask;
  n_parent : option BaseTask
}.

Definition n_type (n : TaskNode) : string := t_type (n_task n).
Definition n_baseKey (n : TaskNode) : string := getBaseKey (n_task n).
Definition n_key (n : TaskNode) : string := getIndexKey (n_task n).
Definition n_id (n : TaskNode) : string := t_id (n_task n).

(** [class TaskNodeMap]: a [Map] traversed in insertion order, with its
    own [length] counter. *)
Module TaskNodeMap.

Record t : Type := mk {
  index : JsObject.t TaskNode;
  length : Z
}.

Definition new : t := mk JsObject.empty 0.

Definition getNode (m : t) (key : string) : option TaskNode :=
  JsObject.get (index m) key.

Definition addNode (m : t) (node : TaskNode) : t :=
  match JsObject.get (index m) (n_key node) with
  | Some _ => m
  | None => mk (JsObject.set (index m) (n_key node) node) (length m + 1)
  end.

Definition removeNode (m : t) (node : TaskNode) : t :=
  if JsObject.has (index m) (n_key node)
  then mk (JsObject.delete (index m) (n_key node)) (length m - 1)
  else m.

Definition setNodes (m : t) (nodes : list TaskNode) : t :=
  fold_left addNode nodes m.

Definition getNodes (m : t) : list TaskNode := JsObject.values (index m).

Definition contains (m : t) (node : TaskNode) : bool :=
  JsObject.has (index m) (n_key node).

Definition clear (m : t) : t := new.

End TaskNodeMap.

(** task-graph.ts holds the methods of two revisions of the scheduler
    side by side: [addNode] is declared twice, and [addTaskInternal] and
    [addNodeWithDependencies] belong to the revision of the second
    declaration.  This module gives every method the behaviour of its own
    text and sends each call of [addNode] to the declaration whose
    parameter fits the argument; [node.getDependencies()] reads the
    [dependencies] map that [setDependencies] fills.  The invariants of
    the index and of the in-progress map are proved for every step these
    methods can take.  What a call of [process] does in the class as its
    body defines it is [TaskGraphAsWritten] below. *)
Module TaskGraph.

(** The events emitted on [garden.events]. *)
Inductive Event : Type :=
  | TaskPending (addedAt : Z) (key : string) (version : string)
  | TaskProcessing (startedAt : Z) (key : string) (version : string)
  | TaskComplete (result : TaskResult)
  | TaskError (result : TaskResult)
  | TaskGraphProcessing (startedAt : Z)
  | TaskGraphComplete (completedAt : Z).

(** How the promise returned by [task.process(...)] settles. *)
Inductive Settlement : Type :=
  | Resolved (output : string)
  | Rejected (error : string).

(** A call of [node.task.process] that has not settled yet, with the
    [result] object its handlers close over. *)
Record Running : Type := mkRunning {
  rn_node : TaskNode;
  rn_result : TaskResult
}.

(** [class TaskGraph], together with the environment it acts on: the
    dependency maps of the node objects, the object allocator, the event
    log, the clock read by [new Date()], the pending [process] promises,
    every [process] call made so far and the errors thrown inside promise
    handlers.  Logging is not modelled. *)
Record t : Type := mk {
  roots : TaskNodeMap.t;
  index : TaskNodeMap.t;
  inProgress : TaskNodeMap.t;
  taskDependencyCache : JsObject.t (list string);
  resultCache : ResultCache.t;
  concurrencyLimit : Z;
  depStore : list (nat * TaskNodeMap.t);
  nextOid : nat;
  events : list Event;
  now : Z;
  running : list Running;
  invoked : list TaskNode;
  uncaught : list GardenError
}.

Definition DEFAULT_MAX_CONCURRENCY : Z := 100.

(** [new TaskGraph(garden, log, concurrencyLimit)] at time [now0]. *)
Definition new (limit : Z) (now0 : Z) : t :=
  mk TaskNodeMap.new TaskNodeMap.new TaskNodeMap.new JsObject.empty
     ResultCache.new limit [] 0 [] now0 [] [] [].

Definition set_roots (st : t) (x : TaskNodeMap.t) : t :=
  mk x (index st) (inProgress st) (taskDependencyCache st) (resultCache st)
     (concurrencyLimit st) (depStore st) (nextOid st) (events st) (now st)
     (running st) (invoked st) (uncaught st).

Definition set_index (st : t) (x : TaskNodeMap.t) : t :=
  mk (roots st) x (inProgress st) (taskDependencyCache st) (resultCache st)
     (concurrencyLimit st) (depStore st) (nextOid st) (events st) (now st)
     (running st) (invoked st) (uncaught st).

Definition set_inProgress (st : t) (x : TaskNodeMap.t) : t :=
  mk (roots st) (index st) x (taskDependencyCache st) (resultCache st)
     (concurrencyLimit st) (depStore st) (nextOid st) (events st) (now st)
     (running st) (invoked st) (uncaught st).

Definition set_taskDependencyCache (st : t) (x : JsObject.t (list string)) : t :=
  mk (roots st) (index st) (inProgress st) x (resultCache st)
     (concurrencyLimit st) (depStore st) (nextOid st) (events st) (now st)
     (running st) (invoked st) (uncaught st).

Definition set_resultCache (st : t) (x : ResultCache.t) : t :=
  mk (roots st) (index st) (inProgress st) (taskDependencyCache st) x
     (concurrencyLimit st) (depStore st) (nextOid st) (events st) (now st)
     (running st) (invoked st) (uncaught st).

Definition set_depStore (st : t) (x : list (nat * TaskNodeMap.t)) : t :=
  mk (roots st) (index st) (inProgress st) (taskDependencyCache st) (resultCache st)
     (concurrencyLimit st) x (nextOid st) (events st) (now st)
     (running st) (invoked st) (uncaught st).

Definition set_now (st : t) (x : Z) : t :=
  mk (roots st) (index st) (inProgress st) (taskDependencyCache st) (resultCache st)
     (concurrencyLimit st) (depStore st) (nextOid st) (events st) x
     (running st) (invoked st) (uncaught st).

Definition set_running (st : t) (x : list Running) : t :=
  mk (roots st) (index st) (inProgress st) (taskDependencyCache st) (resultCache st)
     (concurrencyLimit st) (depStore st) (nextOid st) (events st) (now st)
     x (invoked st) (uncaught st).

(** [this.garden.events.emit(...)] *)
Definition emit (st : t) (e : Event) : t :=
  mk (roots st) (index st) (inProgress st) (taskDependencyCache st) (resultCache st)
     (concurrencyLimit st) (depStore st) (nextOid st) (events st ++ [e])%list (now st)
     (running st) (invoked st) (uncaught st).

(** An error thrown inside a promise handler. *)
Definition raise (st : t) (e : GardenError) : t :=
  mk (roots st) (index st) (inProgress st) (taskDependencyCache st) (resultCache st)
     (concurrencyLimit st) (depStore st) (nextOid st) (events st) (now st)
     (running st) (invoked st) (uncaught st ++ [e])%list.

(** [new TaskNode(task, parent)]: a fresh object with an empty
    dependency map. *)
Definition newTaskNode (st : t) (task : BaseTask) (parent : option BaseTask)
  : TaskNode * t :=
  (mkTaskNode (nextOid st) task parent,
   mk (roots st) (index st) (inProgress st) (taskDependencyCache st) (resultCache st)
      (concurrencyLimit st) (depStore st) (S (nextOid st)) (events st) (now st)
      (running st) (invoked st) (uncaught st)).

(** The [dependencies] map of a node object. *)
Fixpoint lookupDeps (store : list (nat * TaskNodeMap.t)) (oid : nat) : TaskNodeMap.t :=
  match store with
  | [] => TaskNodeMap.new
  | (o, m) :: r => if Nat.eqb o oid then m else lookupDeps r oid
  end.

Definition writeDeps (st : t) (node : TaskNode) (m : TaskNodeMap.t) : t :=
  set_depStore st
    ((n_oid node, m)
       :: filter (fun e => negb (Nat.eqb (fst e) (n_oid node))) (depStore st)).

(** [node.getDependencies()] *)
Definition getDependencies (st : t) (node : TaskNode) : list TaskNode :=
  TaskNodeMap.getNodes (lookupDeps (depStore st) (n_oid node)).

(** The dependency base keys cached for a node's key,
    [this.taskDependencyCache[node.key] || new Set()]. *)
Definition cachedDependencies (st : t) (key : string) : list string :=
  match JsObject.get (taskDependencyCache st) key with
  | Some deps => deps
  | None => []
  end.

(** The nodes [rebuild] gives to [node.setDependencies]:
    [taskNodes.filter(n => taskDeps.has(n.baseKey))]. *)
Definition dependencyNodes (st : t) (taskNodes : list TaskNode) (node : TaskNode)
  : list TaskNode :=
  filter (fun n => existsb (String.eqb (n_baseKey n))
                           (cachedDependencies st (n_key node)))
         taskNodes.

(** [rebuild()] *)
Definition rebuild (st : t) : t :=
  let taskNodes := TaskNodeMap.getNodes (index st) in
  let st1 :=
    fold_left
      (fun s node =>
         writeDeps s node
           (TaskNodeMap.setNodes (TaskNodeMap.clear (lookupDeps (depStore s) (n_oid node)))
                                 (dependencyNodes s taskNodes node)))
      taskNodes st in
  let newRootNodes :=
    filter (fun n => Nat.eqb (List.length (getDependencies st1 n)) 0) taskNodes in
  set_roots st1 (TaskNodeMap.setNodes (TaskNodeMap.clear (roots st1)) newRootNodes).

(** [getNode(task)]: the latest indexed node with the task's base key and
    another key if there is one; otherwise [null] when a result is cached
    under the base key and the task is not forced; otherwise a new node. *)
Definition getNode (st : t) (task : BaseTask) : option TaskNode * t :=
  let key := getKey task in
  let baseKey := getBaseKey task in
  let existing :=
    List.rev (filter (fun n => String.eqb (n_baseKey n) baseKey
                               && negb (String.eqb (n_key n) key))
                     (TaskNodeMap.getNodes (index st))) in
  match existing with
  | e :: _ => (Some e, st)
  | [] =>
      let cachedResultExists :=
        match ResultCache.get (resultCache st) (getBaseKey task) with
        | Some _ => true
        | None => false
        end in
      if cachedResultExists && negb (t_force task) then (None, st)
      else let '(node, st') := newTaskNode st task None in (Some node, st')
  end.

(** The second [addNode], [addNode(task: BaseTask): TaskNode | null]. *)
Definition addTaskNode (st : t) (task : BaseTask) : option TaskNode * t :=
  match getNode st task with
  | (Some node, st') => (Some node, set_index st' (TaskNodeMap.addNode (index st') node))
  | (None, st') => (None, st')
  end.

(** [addNodeWithDependencies(task)].  The recursion follows the
    dependencies of the node's task, which need not be the task given;
    [fuel] bounds its depth. *)
Fixpoint addNodeWithDependencies (fuel : nat) (st : t) (task : BaseTask) : option t :=
  match fuel with
  | O => None
  | S fuel' =>
      match addTaskNode st task with
      | (Some node, st1) =>
          let depTasks := t_dependencies (n_task node) in
          let st2 :=
            set_taskDependencyCache st1
              (JsObject.set (taskDependencyCache st1) (n_key node)
                            (map getBaseKey depTasks)) in
          fold_left
            (fun acc dep =>
               match acc with
               | Some s => addNodeWithDependencies fuel' s dep
               | None => None
               end)
            depTasks (Some st2)
      | (None, st1) => Some st1
      end
  end.

(** [addTaskInternal(task)] *)
Definition addTaskInternal (fuel : nat) (st : t) (task : BaseTask) : option t :=
  let st1 := emit st (TaskPending (now st) (getKey task) (t_versionString task)) in
  match addNodeWithDependencies fuel st1 task with
  | Some st2 => Some (rebuild st2)
  | None => None
  end.

(** [remove(node)] *)
Definition remove (st : t) (node : TaskNode) : t :=
  set_inProgress (set_index st (TaskNodeMap.removeNode (index st) node))
                 (TaskNodeMap.removeNode (inProgress st) node).

(** [processTask(node)]: builds the result object and calls
    [node.task.process(result.dependencyResults)]; the promise handlers
    are [settle] below. *)
Definition processTask (st : t) (node : TaskNode) : t :=
  let startedAt := now st in
  let dependencyKeys := map n_key (getDependencies st node) in
  let result :=
    mkTaskResult (n_type node) (n_baseKey node) (n_key node) (n_id node)
                 (t_description (n_task node)) None
                 (ResultCache.pick (resultCache st) dependencyKeys)
                 None startedAt startedAt in
  mk (roots st) (index st) (inProgress st) (taskDependencyCache st) (resultCache st)
     (concurrencyLimit st) (depStore st) (nextOid st) (events st) (now st)
     (running st ++ [mkRunning node result])%list
     (invoked st ++ [node])%list (uncaught st).

(** [node.task.concurrencyLimit && !(node.parent && node.parent.type === node.type)] *)
Definition sameTypeParent (node : TaskNode) : bool :=
  match n_parent node with
  | Some parent => String.eqb (t_type parent) (n_type node)
  | None => false
  end.

Definition typeLimit (node : TaskNode) : option Z :=
  match t_concurrencyLimit (n_task node) with
  | Some k => if k =? 0 then None else Some k
  | None => None
  end.

(** The [for (const node of this.roots.getNodes())] loop of [loop].  The
    result is the in-progress map and the batch, or no batch when the
    loop left through [return]. *)
Fixpoint scanRoots (limit : Z) (nodes : list TaskNode)
         (inProgress : TaskNodeMap.t) (batch : list TaskNode)
  : TaskNodeMap.t * option (list TaskNode) :=
  match nodes with
  | [] => (inProgress, Some batch)
  | node :: rest =>
      if limit <=? TaskNodeMap.length inProgress then (inProgress, None)
      else if TaskNodeMap.contains inProgress node
      then scanRoots limit rest inProgress batch
      else
        let throttled :=
          match typeLimit node with
          | Some k =>
              if sameTypeParent node then false
              else
                let inProgressByType :=
                  filter (fun n => String.eqb (n_type n) (n_type node))
                         (TaskNodeMap.getNodes inProgress) in
                k <=? Z.of_nat (List.length inProgressByType)
          | None => false
          end in
        if throttled then scanRoots limit rest inProgress batch
        else scanRoots limit rest (TaskNodeMap.addNode inProgress node)
                       (batch ++ [node])%list
  end.

(** [loop()] *)
Definition loop (st : t) : t :=
  if TaskNodeMap.length (index st) =? 0
  then emit st (TaskGraphComplete (now st))
  else
    let st1 := emit st (TaskGraphProcessing (now st)) in
    let st2 := rebuild st1 in
    match scanRoots (concurrencyLimit st2) (TaskNodeMap.getNodes (roots st2))
                    (inProgress st2) [] with
    | (inProgress', Some batch) =>
        fold_left processTask batch (set_inProgress st2 inProgress')
    | (inProgress', None) => set_inProgress st2 inProgress'
    end.

(** [completeTask(node, success)] *)
Definition completeTask (st : t) (node : TaskNode) : Result t :=
  if (0 <? List.length (getDependencies st node))%nat
  then throw (InternalError ("Task " ++ n_key node
                             ++ " still has unprocessed dependencies"))
  else ret (remove st node).

(** [getDependants(node)], with [fuel] bounding the depth of the
    recursion; [None] when the bound is exceeded. *)
Fixpoint getDependants (fuel : nat) (st : t) (node : TaskNode)
  : option (list TaskNode) :=
  match fuel with
  | O => None
  | S fuel' =>
      let dependants :=
        filter (fun n =>
                  existsb (fun d => String.eqb (n_baseKey d) (n_baseKey node))
                          (getDependencies st n))
               (TaskNodeMap.getNodes (index st)) in
      fold_left
        (fun acc d =>
           match acc, getDependants fuel' st d with
           | Some l, Some ds => Some (l ++ ds)%list
           | _, _ => None
           end)
        dependants (Some dependants)
  end.

(** [cancelDependants(node)] *)
Definition cancelDependants (fuel : nat) (st : t) (node : TaskNode) : option t :=
  match getDependants fuel st node with
  | Some dependants => Some (rebuild (fold_left remove dependants st))
  | None => None
  end.

(** The [finally] handler of [processTask]. *)
Definition settleFinally (st : t) (node : TaskNode) (result : TaskResult) : t :=
  let st1 := set_resultCache st (ResultCache.put (resultCache st) result) in
  match completeTask st1 node with
  | inr st2 => loop st2
  | inl e => raise st1 e
  end.

Definition withOutput (r : TaskResult) (output : string) (completedAt : Z) : TaskResult :=
  mkTaskResult (r_type r) (r_baseKey r) (r_key r) (r_id r) (r_description r)
               (Some output) (r_dependencyResults r) (r_error r)
               (r_startedAt r) completedAt.

Definition withError (r : TaskResult) (error : string) (completedAt : Z) : TaskResult :=
  mkTaskResult (r_type r) (r_baseKey r) (r_key r) (r_id r) (r_description r)
               (r_output r) (r_dependencyResults r) (Some error)
               (r_startedAt r) completedAt.

(** The [then] / [catch] handler of [processTask] followed by [finally],
    run when the promise of [rn] settles. *)
Definition settle (fuel : nat) (st : t) (rn : Running) (s : Settlement) : option t :=
  let node := rn_node rn in
  match s with
  | Resolved output =>
      let result := withOutput (rn_result rn) output (now st) in
      Some (settleFinally (emit st (TaskComplete result)) node result)
  | Rejected error =>
      let result := withError (rn_result rn) error (now st) in
      match cancelDependants fuel st node with
      | Some st1 => Some (settleFinally (emit st1 (TaskError result)) node result)
      | None => None
      end
  end.

(** Modelled from the spec: [getPredecessor(node)] is not among the
    sources.  The specification and the comment at its call site describe
    the predecessor as a node already in the graph with the same base key
    and a different key; as [getNode] does for tasks, the latest such node
    is taken. *)
Definition getPredecessor (st : t) (node : TaskNode) : option TaskNode :=
  match
    List.rev (filter (fun n => String.eqb (n_baseKey n) (n_baseKey node)
                               && negb (String.eqb (n_key n) (n_key node)))
                     (TaskNodeMap.getNodes (index st)))
  with
  | p :: _ => Some p
  | [] => None
  end.

(** Modelled from the spec: [node.removeDependency(d)] is not among the
    sources; it takes [d] out of the node's dependency map. *)
Definition removeDependency (st : t) (node d : TaskNode) : t :=
  writeDeps st node (TaskNodeMap.removeNode (lookupDeps (depStore st) (n_oid node)) d).

(** Modelled from the spec: [inherit(predecessor, node)] is not among the
    sources.  The specification lets the new node inherit the
    predecessor's dependants, enqueued behind the predecessor:
    [dependencies > predecessor > node > dependants].  The nodes that
    depend on the predecessor are made to depend on the new node, and the
    new node on the predecessor. *)
Definition inherit (st : t) (predecessor node : TaskNode) : t :=
  let st1 :=
    fold_left
      (fun s n =>
         let deps := lookupDeps (depStore s) (n_oid n) in
         if TaskNodeMap.contains deps predecessor
         then writeDeps s n (TaskNodeMap.addNode (TaskNodeMap.removeNode deps predecessor) node)
         else s)
      (TaskNodeMap.getNodes (index st)) st in
  writeDeps st1 node
            (TaskNodeMap.addNode (lookupDeps (depStore st1) (n_oid node)) predecessor).

(** The part of the first [addNode] that follows the choice between the
    node and its predecessor: the cache check, the insertion into the
    index, the loop over the node's dependencies, the roots update and the
    call of [loop].  [rec] is the recursive call [this.addNode(dependency)].
    [dependency.addDependant(node)] has no counterpart in [class
    TaskNode], whose dependants are derived from the dependency maps by
    [getDependants]; it leaves the modelled state as it is. *)
Definition addNodeContinue (rec : t -> TaskNode -> option t) (st : t)
           (node : TaskNode) : option t :=
  match
    (if t_force (n_task node) then None
     else ResultCache.get (resultCache st) (n_key node))
  with
  | Some result => Some (emit st (TaskComplete result))
  | None =>
      let st1 := set_index st (TaskNodeMap.addNode (index st) node) in
      let st2 :=
        fold_left
          (fun acc d =>
             match acc with
             | Some s =>
                 let dependency :=
                   match getPredecessor s d with
                   | Some p => p
                   | None => d
                   end in
                 match
                   (if t_force (n_task dependency) then None
                    else ResultCache.get (resultCache s) (n_key dependency))
                 with
                 | Some _ => Some (removeDependency s node d)
                 | None => rec s dependency
                 end
             | None => None
             end)
          (getDependencies st1 node) (Some st1) in
      match st2 with
      | None => None
      | Some s =>
          let s' :=
            if Nat.eqb (List.length (getDependencies s node)) 0
            then set_roots s (TaskNodeMap.addNode (roots s) node)
            else s in
          Some (loop s')
      end
  end.

(** The first [addNode], [addNode(node: TaskNode)], called by [process].
    [fuel] bounds the depth of the recursion through dependencies. *)
Fixpoint addNode (fuel : nat) (st : t) (node : TaskNode) : option t :=
  match fuel with
  | O => None
  | S fuel' =>
      match TaskNodeMap.getNode (index st) (n_key node) with
      | Some _ => Some st
      | None =>
          match getPredecessor st node with
          | Some predecessor =>
              if TaskNodeMap.contains (inProgress st) predecessor
              then Some (inherit (set_index st (TaskNodeMap.addNode (index st) node))
                                 predecessor node)
              else addNodeContinue (addNode fuel') st predecessor
          | None => addNodeContinue (addNode fuel') st node
          end
      end
  end.

(** [process(tasks, parent)]: one node per task key, then [addNode] for
    each.  The promise handed back to the caller and its two event
    listeners do not act on the graph and are left out. *)
Definition process (fuel : nat) (st : t) (tasks : list BaseTask)
           (parent : option BaseTask) : option t :=
  let '(nodes, st1) :=
    fold_left
      (fun acc task =>
         let '(nodes, s) := acc in
         let '(node, s') := newTaskNode s task parent in
         (JsObject.set nodes (getKey task) node, s'))
      tasks (JsObject.empty, st) in
  fold_left
    (fun acc node =>
       match acc with
       | Some s => addNode fuel s node
       | None => None
       end)
    (JsObject.values nodes) (Some st1).

(** What can happen to a task graph: a caller processes tasks, a task is
    added through [addTaskInternal], the [i]-th pending [process] promise
    settles, or time passes. *)
Inductive Step : Type :=
  | StepProcess (tasks : list BaseTask) (parent : option BaseTask)
  | StepAddTask (task : BaseTask)
  | StepSettle (i : nat) (s : Settlement)
  | StepTick (elapsed : Z).

Fixpoint removeNth {A} (i : nat) (l : list A) : list A :=
  match l, i with
  | [], _ => []
  | _ :: r, O => r
  | x :: r, S i' => x :: removeNth i' r
  end.

(** One step; [None] when the step is not possible or a recursion bound
    was too small. *)
Definition step (fuel : nat) (st : t) (s : Step) : option t :=
  match s with
  | StepProcess tasks parent => process fuel st tasks parent
  | StepAddTask task => addTaskInternal fuel st task
  | StepSettle i s =>
      match nth_error (running st) i with
      | Some rn => settle fuel (set_running st (removeNth i (running st))) rn s
      | None => None
      end
  | StepTick elapsed =>
      if 0 <=? elapsed then Some (set_now st (now st + elapsed)) else None
  end.

(** The states of a graph created with [limit] at time [now0]. *)
Inductive reachable (limit now0 : Z) : t -> Prop :=
  | reachable_new : reachable limit now0 (new limit now0)
  | reachable_step st fuel s st' :
      reachable limit now0 st ->
      step fuel st s = Some st' ->
      reachable limit now0 st'.

(** Running a list of steps. *)
Fixpoint run (fuel : nat) (st : t) (steps : list Step) : option t :=
  match steps with
  | [] => Some st
  | s :: rest =>
      match step fuel st s with
      | Some st' => run fuel st' rest
      | None => None
      end
  end.

End TaskGraph.

(** Sample tasks of type ["test"]: [a]; a forced [b]; [c], which depends
    on the forced [b]; [x], unrelated; and three ["build"] tasks limited
    to two at a time. *)
Definition sampleTask (name hash : string) (force : bool)
           (limit : option Z) (deps : list BaseTask) : BaseTask :=
  mkBaseTask "test" name hash ("id-" ++ name) force "v1" limit name deps.

Definition taskA : BaseTask := sampleTask "a" "aaaaaaaa" false None [].
Definition taskBforced : BaseTask := sampleTask "b" "bbbbbbbb" true None [].
Definition taskC : BaseTask := sampleTask "c" "cccccccc" false None [taskBforced].
Definition taskX : BaseTask := sampleTask "x" "xxxxxxxx" false None [].

Definition buildTask (name : string) : BaseTask :=
  mkBaseTask "build" name name ("id-" ++ name) false "v1" (Some 2) name [].

(** The state a list of steps leads to from a new graph with the default
    limit, created at time 0; the new graph itself if a step fails. *)
Definition stateAfter (steps : list TaskGraph.Step) : TaskGraph.t :=
  match TaskGraph.run 10 (TaskGraph.new TaskGraph.DEFAULT_MAX_CONCURRENCY 0) steps with
  | Some st => st
  | None => TaskGraph.new TaskGraph.DEFAULT_MAX_CONCURRENCY 0
  end.

(** [a] is processed and completes at time 3. *)
Definition stepsRunA : list TaskGraph.Step :=
  [TaskGraph.StepProcess [taskA] None;
   TaskGraph.StepTick 3;
   TaskGraph.StepSettle 0 (TaskGraph.Resolved "result-a")].

(** [c] is added with its dependency [b]; [x] is processed, which runs
    the loop and starts [b] and [x]. *)
Definition stepsStarted : list TaskGraph.Step :=
  [TaskGraph.StepAddTask taskC; TaskGraph.StepProcess [taskX] None].

(** Three ["build"] tasks are processed together. *)
Definition stepsBuilds : list TaskGraph.Step :=
  [TaskGraph.StepProcess [buildTask "m1"; buildTask "m2"; buildTask "m3"] None].

(* ===================================================================== *)
(** * Vocabulary of the properties *)
(* ===================================================================== *)

Module GardenSpec.
Import Garden.

(** The handler table of an action type; an action type without a table
    is treated as having an empty one ([handlers = {}]). *)
Definition tableOf (g : t) (actionType : string) : ActionHandlerMap :=
  match JsObject.get (actionHandlers g) actionType with
  | Some tbl => tbl
  | None => JsObject.empty
  end.

End GardenSpec.

Module ConfigGraphSpec.
Import ConfigGraph.

(** The service and task registries only hold names taken from [names]. *)
Definition namesWithin (names : list string) (g : t) : Prop :=
  (forall k, In k (JsObject.keys (serviceMap g)) -> In k names)
  /\ (forall k, In k (JsObject.keys (taskMap g)) -> In k names).

End ConfigGraphSpec.

Module ConfigContextSpec.
Import ConfigContext.

(** The memo of [c0] does not answer for [path0] in [h0]. *)
Definition memoMiss (h0 : Heap) (c0 : nat) (path0 : string) : Prop :=
  exists this, nth_error h0 c0 = Some this
               /\ truthy (memoLookup this path0) = false.

End ConfigContextSpec.

Module ResultCacheSpec.

(** Every result sits under its own key, and no key occurs twice. *)
Definition wfCache (c : ResultCache.t) : Prop :=
  NoDup (JsObject.keys (ResultCache.cache c))
  /\ forall k r, In (k, r) (ResultCache.cache c) -> r_key r = k.

(** The results [cleanup] keeps: those before position [cleanupCount] in
    the order of [completedAt]. *)
Definition kept (c : ResultCache.t) : list TaskResult :=
  firstn (Z.to_nat ResultCache.cleanupCount)
         (sortBy r_completedAt (JsObject.values (ResultCache.cache c))).

(** The caches a sequence of [put]s leads to. *)
Inductive reachableCache : ResultCache.t -> Prop :=
  | reachableCache_new : reachableCache ResultCache.new
  | reachableCache_put c r : reachableCache c -> reachableCache (ResultCache.put c r).

End ResultCacheSpec.

Module TaskGraphSpec.
Import TaskGraph.

(** A node map is well formed when every node sits under its own key, no
    key occurs twice and [length] counts the entries. *)
Definition wfMap (m : TaskNodeMap.t) : Prop :=
  NoDup (JsObject.keys (TaskNodeMap.index m))
  /\ (forall k n, In (k, n) (TaskNodeMap.index m) -> n_key n = k)
  /\ TaskNodeMap.length m = Z.of_nat (List.length (TaskNodeMap.index m)).

(** Number of nodes of a type in a list. *)
Definition countType (ty : string) (l : list TaskNode) : nat :=
  List.length (filter (fun n => String.eqb (n_type n) ty) l).

(** The in-progress nodes in the order they were started: each node that
    is subject to its type's limit was admitted while the nodes of its
    type started before it, itself included, were within that limit. *)
Definition typeOrdered (l : list TaskNode) : Prop :=
  forall l1 n l2 k,
    l = (l1 ++ n :: l2)%list ->
    sameTypeParent n = false ->
    typeLimit n = Some k ->
    Z.of_nat (countType (n_type n) (l1 ++ [n])) <= k.

(** The in-progress map respects the global limit and the per-type
    limits. *)
Definition ceilingInv (limit : Z) (m : TaskNodeMap.t) : Prop :=
  wfMap m
  /\ TaskNodeMap.length m <= limit
  /\ typeOrdered (TaskNodeMap.getNodes m).

(** Operations that leave the in-progress map and the limit alone. *)
Definition sameProgress (st st' : t) : Prop :=
  concurrencyLimit st' = concurrencyLimit st /\ inProgress st' = inProgress st.

(** The ceiling invariant of a graph created with [limit]. *)
Definition ceiling (limit : Z) (st : t) : Prop :=
  concurrencyLimit st = limit /\ ceilingInv limit (inProgress st).

(** Operations that leave index, events, clock and cache alone. *)
Definition sameLog (st st' : t) : Prop :=
  index st' = index st /\ events st' = events st
  /\ now st' = now st /\ resultCache st' = resultCache st.

(** One step of the [concat(flatten(dependants.map(...)))] of
    [getDependants]: the dependants of [d] are appended, unless a
    recursive call has run out of fuel. *)
Definition gather {A : Type} (g : A -> option (list A))
           (acc : option (list A)) (d : A) : option (list A) :=
  match acc, g d with
  | Some l, Some ds => Some (l ++ ds)%list
  | _, _ => None
  end.

End TaskGraphSpec.

Module TaskNodeMapSpec.

(** The node maps a sequence of the class's operations leads to. *)
Inductive reachableMap : TaskNodeMap.t -> Prop :=
  | reachableMap_new : reachableMap TaskNodeMap.new
  | reachableMap_addNode m n :
      reachableMap m -> reachableMap (TaskNodeMap.addNode m n)
  | reachableMap_removeNode m n :
      reachableMap m -> reachableMap (TaskNodeMap.removeNode m n)
  | reachableMap_setNodes m nodes :
      reachableMap m -> reachableMap (TaskNodeMap.setNodes m nodes)
  | reachableMap_clear m :
      reachableMap m -> reachableMap (TaskNodeMap.clear m).

End TaskNodeMapSpec.

Module SchedulerSpec.
Import TaskGraph TaskGraphSpec.

(** Index and in-progress map are well formed, and every node in progress
    is the node the index holds under the same key. *)
Definition indexedInv (st : t) : Prop :=
  wfMap (index st)
  /\ wfMap (inProgress st)
  /\ forall k n, TaskNodeMap.getNode (inProgress st) k = Some n ->
                 TaskNodeMap.getNode (index st) k = Some n.

End SchedulerSpec.

(** The promise [process(tasks, parent)] returns and the two listeners it
    registers on [garden.events] (task-graph.ts): how the promise settles
    on the events it hears.  The [addNode] calls that end the executor
    are not part of it; [TaskGraphAsWritten.process] has them.  [tasks] is
    an array of tasks, as in [TaskGraph.process] above.  [nodes] and [results] are
    created as plain objects: [key in nodes] also holds for the name of a
    property every object inherits.  Task keys have the form
    [type.name.hash] and no inherited name contains a dot, so
    [results[task.getKey()]] reads an own property of [results]. *)
Module ProcessPromise.
Import TaskGraph.

Inductive Settled : Type :=
  | Pending
  | Fulfilled (value : list (option TaskResult))
  | Failed (result : TaskResult).

(** What the executor of the promise closes over: [tasks], the keys of
    [nodes], [results], and the state of the promise. *)
Record t : Type := mk {
  tasks : list BaseTask;
  nodes : list string;
  results : JsObject.t TaskResult;
  settled : Settled
}.

(** [Object.keys(nodes)] after
    [deepMap(tasks, task => { nodes[task.getKey()] = new TaskNode(task, parent) })]. *)
Definition nodeKeys (tasks : list BaseTask) : list string :=
  JsObject.keys
    (fold_left (fun o task => JsObject.set o (getKey task) tt) tasks JsObject.empty).

Definition new (tasks : list BaseTask) : t :=
  mk tasks (nodeKeys tasks) JsObject.empty Pending.

(** [mapTasksToResults(tasks, results)] for an array of tasks:
    [t.map(item => results[item.getKey()])]. *)
Definition mapTasksToResults (tasks : list BaseTask)
           (results : JsObject.t TaskResult) : list (option TaskResult) :=
  map (fun task => JsObject.get results (getKey task)) tasks.

(** [resolve(...)] and [reject(...)]: without effect on a promise that
    has settled. *)
Definition settleOnce (p : t) (s : Settled) : t :=
  match settled p with
  | Pending => mk (tasks p) (nodes p) (results p) s
  | _ => p
  end.

(** [key in nodes] *)
Definition inNodes (p : t) (key : string) : bool :=
  existsb (String.eqb key) (nodes p)
  || existsb (String.eqb key) ConfigContext.objectPrototypeKeys.

(** [results[key] = result]: assigning to [__proto__] replaces the
    prototype of [results] and adds no key. *)
Definition assign (results : JsObject.t TaskResult) (key : string)
           (result : TaskResult) : JsObject.t TaskResult :=
  if String.eqb key "__proto__" then results else JsObject.set results key result.

(** The [taskComplete] listener. *)
Definition onTaskComplete (p : t) (result : TaskResult) : t :=
  let results' :=
    if inNodes p (r_key result)
    then assign (results p) (r_key result) result
    else results p in
  let p1 := mk (tasks p) (nodes p) results' (settled p) in
  if Nat.eqb (List.length (JsObject.keys results')) (List.length (nodes p))
  then settleOnce p1 (Fulfilled (mapTasksToResults (tasks p) results'))
  else p1.

(** The [taskError] listener. *)
Definition onTaskError (p : t) (result : TaskResult) : t :=
  if inNodes p (r_key result)
  then settleOnce p (Failed result)
  else p.

(** One emitted event reaching the listeners. *)
Definition observe (p : t) (e : Event) : t :=
  match e with
  | TaskComplete result => onTaskComplete p result
  | TaskError result => onTaskError p result
  | _ => p
  end.

(** The promise after the events emitted since [process] was called. *)
Definition after (p : t) (es : list Event) : t := fold_left observe es p.

Definition isTaskComplete (e : Event) : bool :=
  match e with TaskComplete _ => true | _ => false end.

(** The result an event carries does not have the name of an inherited
    property as its key; so it is for the keys of tasks. *)
Definition plainKey (e : Event) : bool :=
  match e with
  | TaskComplete r | TaskError r =>
      negb (existsb (String.eqb (r_key r)) ConfigContext.objectPrototypeKeys)
  | _ => true
  end.

(** What the listeners maintain while the events [seen] arrive. *)
Definition listening (ts : list BaseTask) (seen : list Event) (p : t) : Prop :=
  tasks p = ts
  /\ nodes p = nodeKeys ts
  /\ NoDup (JsObject.keys (results p))
  /\ (forall k r, In (k, r) (results p) ->
                  r_key r = k /\ In k (nodes p) /\ In (TaskComplete r) seen)
  /\ (forall k r, In k (nodes p) -> In (TaskComplete r) seen -> r_key r = k ->
                  In k (JsObject.keys (results p)))
  /\ match settled p with
     | Pending =>
         existsb isTaskComplete seen = true ->
         List.length (JsObject.keys (results p)) <> List.length (nodes p)
     | Fulfilled value =>
         Forall2 (fun task v =>
                    exists r, v = Some r /\ r_key r = getKey task
                              /\ In (TaskComplete r) seen)
                 ts value
     | Failed r => In (r_key r) (nodes p) /\ In (TaskError r) seen
     end.

End ProcessPromise.

(** The queries of [class ConfigGraph] and [class ConfigGraphNode]
    (config-graph.ts).  A node refers to other nodes by the keys under
    which [index] holds them. *)
Module ConfigGraphQueries.
Import ConfigGraph.

(** [filterFn ? nodes.filter(filterFn) : nodes] *)
Definition applyFilter (g : t) (filterFn : option (ConfigGraphNode -> bool))
           (keys : list string) : list string :=
  match filterFn with
  | None => keys
  | Some f =>
      filter (fun k => match JsObject.get (index g) k with
                       | Some n => f n
                       | None => false
                       end) keys
  end.

(** [this.dependencies] and [this.dependants] of the node under a key. *)
Definition dependenciesOf (g : t) (key : string) : list string :=
  match JsObject.get (index g) key with
  | Some n => n_dependencies n
  | None => []
  end.

Definition dependantsOf (g : t) (key : string) : list string :=
  match JsObject.get (index g) key with
  | Some n => n_dependants n
  | None => []
  end.

(** [node.recursiveDependencies(filterFn)]:
    [flatten(deps.concat(deps.map(d => d.recursiveDependencies(filterFn))))],
    with [fuel] bounding the depth of the recursion. *)
Fixpoint recursiveDependencies (fuel : nat) (g : t)
         (filterFn : option (ConfigGraphNode -> bool)) (key : string)
  : option (list string) :=
  match fuel with
  | O => None
  | S fuel' =>
      let deps := applyFilter g filterFn (dependenciesOf g key) in
      fold_left (TaskGraphSpec.gather (recursiveDependencies fuel' g filterFn))
                deps (Some deps)
  end.

(** [node.recursiveDependants(filterFn)] *)
Fixpoint recursiveDependants (fuel : nat) (g : t)
         (filterFn : option (ConfigGraphNode -> bool)) (key : string)
  : option (list string) :=
  match fuel with
  | O => None
  | S fuel' =>
      let dependants := applyFilter g filterFn (dependantsOf g key) in
      fold_left (TaskGraphSpec.gather (recursiveDependants fuel' g filterFn))
                dependants (Some dependants)
  end.

(** [getDependencyNodes(nodeType, name, recursive, filterFn)] *)
Definition getDependencyNodes (fuel : nat) (g : t) (nodeType : ConfigGraphNodeType)
           (name : string) (recursive : bool)
           (filterFn : option (ConfigGraphNode -> bool)) : option (list string) :=
  match JsObject.get (index g) (nodeKey nodeType name) with
  | Some node =>
      if recursive then recursiveDependencies fuel g filterFn (nodeKey nodeType name)
      else Some (applyFilter g filterFn (n_dependencies node))
  | None => Some []
  end.

(** [getDependantNodes(nodeType, name, recursive, filterFn)] *)
Definition getDependantNodes (fuel : nat) (g : t) (nodeType : ConfigGraphNodeType)
           (name : string) (recursive : bool)
           (filterFn : option (ConfigGraphNode -> bool)) : option (list string) :=
  match JsObject.get (index g) (nodeKey nodeType name) with
  | Some node =>
      if recursive then recursiveDependants fuel g filterFn (nodeKey nodeType name)
      else Some (applyFilter g filterFn (n_dependants node))
  | None => Some []
  end.

(** [renderGraph()]: one pair of keys for each dependency of each node. *)
Definition renderGraph (g : t) : list (string * string) :=
  flat_map (fun n => map (fun dep => (nodeKey (n_type n) (n_name n), dep))
                         (n_dependencies n))
           (JsObject.values (index g)).

(** The index of the graph after [updateNode]. *)
Definition updateIndex (ix : JsObject.t ConfigGraphNode) (key : string)
           (f : ConfigGraphNode -> ConfigGraphNode) : JsObject.t ConfigGraphNode :=
  match JsObject.get ix key with
  | Some n => JsObject.set ix key (f n)
  | None => ix
  end.

(** The index after [addRelation] between the nodes under [d] (the
    dependant) and [k] (the dependency). *)
Definition related (ix : JsObject.t ConfigGraphNode) (d k : string) :=
  updateIndex (updateIndex ix d (fun n => addDependency n k)) k
              (fun n => addDependant n d).

(** Dependencies and dependants mirror each other, and both refer to
    nodes of the index. *)
Definition mirrored (ix : JsObject.t ConfigGraphNode) : Prop :=
  (forall a na b,
      JsObject.get ix a = Some na -> In b (n_dependencies na) ->
      exists nb, JsObject.get ix b = Some nb /\ In a (n_dependants nb))
  /\ (forall b nb a,
         JsObject.get ix b = Some nb -> In a (n_dependants nb) ->
         exists na, JsObject.get ix a = Some na /\ In b (n_dependencies na)).

(** A node is indexed under the key of its own type and name. *)
Definition selfKeyed (ix : JsObject.t ConfigGraphNode) : Prop :=
  forall k n, JsObject.get ix k = Some n -> nodeKey (n_type n) (n_name n) = k.

(** No node lists a dependency or a dependant twice. *)
Definition noRepeats (ix : JsObject.t ConfigGraphNode) : Prop :=
  forall k n, JsObject.get ix k = Some n ->
              NoDup (n_dependencies n) /\ NoDup (n_dependants n).

Definition wellLinked (ix : JsObject.t ConfigGraphNode) : Prop :=
  mirrored ix /\ selfKeyed ix /\ noRepeats ix.

(** [b] is reached from [a] along dependencies that pass the filter. *)
Inductive reaches (g : t) (filterFn : option (ConfigGraphNode -> bool))
          (a : string) : string -> Prop :=
  | reaches_direct b :
      In b (applyFilter g filterFn (dependenciesOf g a)) -> reaches g filterFn a b
  | reaches_step m b :
      reaches g filterFn a m ->
      In b (applyFilter g filterFn (dependenciesOf g m)) ->
      reaches g filterFn a b.

(** [a] is reached from [b] along dependants that pass the filter. *)
Inductive reachedBy (g : t) (filterFn : option (ConfigGraphNode -> bool))
          (b : string) : string -> Prop :=
  | reachedBy_direct a :
      In a (applyFilter g filterFn (dependantsOf g b)) -> reachedBy g filterFn b a
  | reachedBy_step m a :
      reachedBy g filterFn b m ->
      In a (applyFilter g filterFn (dependantsOf g m)) ->
      reachedBy g filterFn b a.

(** Two modules that build on each other. *)
Definition cyclicModules : list Module_ :=
  [mkModule "a" None [mkBuildDep "b" None] [] [] [];
   mkModule "b" None [mkBuildDep "a" None] [] [] []].

Definition cyclicGraph : t :=
  match new (fun name _ => name) cyclicModules with
  | inr g => g
  | inl _ => empty
  end.

(** The property [Q] of the index holds and the node [node] is indexed. *)
Definition holdsAt (Q : JsObject.t ConfigGraphNode -> Prop) (node : string)
           (g : t) : Prop :=
  Q (index g) /\ In node (JsObject.keys (index g)).

(** [getModuleKey(name, plugin)] (types/module) is not among the
    sources; the samples below use the name alone. *)
Definition sampleModuleKey (name : string) (plugin : option string) : string := name.

(** Module [api] with a service [api] that depends on the service [db] of
    module [db], declared before it, and builds on [db]. *)
Definition sampleModules : list Module_ :=
  [mkModule "db" None [] [mkServiceConfig "db" []]
            [mkTaskConfig "migrate" ["db"]] [];
   mkModule "api" None [mkBuildDep "db" None]
            [mkServiceConfig "api" ["db"; "migrate"]] []
            [mkTestConfig "unit" ["api"]]].

Definition sampleGraph : t :=
  match new sampleModuleKey sampleModules with
  | inr g => g
  | inl _ => empty
  end.

End ConfigGraphQueries.

(* ===================================================================== *)
(** ** [class TaskGraph] as the class body defines it *)
(* ===================================================================== *)

(** task-graph.ts declares [addNode] twice in [class TaskGraph]: at line
    209 with a [TaskNode] parameter and at line 267 with a [BaseTask]
    parameter.  A class body that defines a method name twice keeps the
    later definition, so every [this.addNode(...)], the one in [process]
    included, runs the declaration of line 267.  [TaskGraph] above follows
    each caller into the declaration that was written for it; this module
    follows the calls as the class dispatches them.  [process] and
    [resolve] are the only methods of the class that are not private, and
    [addTaskInternal] has no caller. *)
Module TaskGraphAsWritten.
Import TaskGraph.

(** What a caller hands to a parameter declared [task: BaseTask]. *)
Inductive Argument : Type :=
  | ATask (task : BaseTask)
  | ANode (node : TaskNode).

(** [getNode(task)].  [class TaskNode] has the fields [key] and [baseKey]
    and no method [getKey] or [getBaseKey]: [task.getKey()] throws when
    [task] is a node, and the callback
    [n => n.getBaseKey() === baseKey && n.getKey() !== key] of [filter]
    throws on the first indexed node.  [ResultCache.get] has one
    parameter, so the version string passed second is dropped. *)
Definition getNode (st : t) (task : Argument) : Result (option TaskNode * t) :=
  match task with
  | ANode _ => throw (TypeError "task.getKey is not a function")
  | ATask task =>
      match TaskNodeMap.getNodes (index st) with
      | _ :: _ => throw (TypeError "n.getBaseKey is not a function")
      | [] =>
          let cachedResultExists :=
            match ResultCache.get (resultCache st) (getBaseKey task) with
            | Some _ => true
            | None => false
            end in
          if cachedResultExists && negb (t_force task) then ret (None, st)
          else let '(node, st') := newTaskNode st task None in ret (Some node, st')
      end
  end.

(** [addNode(task)], the declaration of line 267. *)
Definition addNode (st : t) (task : Argument) : Result (option TaskNode * t) :=
  r <- getNode st task ;;
  match r with
  | (Some node, st') =>
      ret (Some node, set_index st' (TaskNodeMap.addNode (index st') node))
  | (None, st') => ret (None, st')
  end.

(** [for (const node of Object.values(nodes)) { this.addNode(node) }], the
    last statement of the promise executor in [process].  The first call
    that throws ends the loop; [addNode] changes nothing before it
    throws. *)
Fixpoint addNodes (st : t) (nodes : list TaskNode) : option GardenError * t :=
  match nodes with
  | [] => (None, st)
  | node :: rest =>
      match addNode st (ANode node) with
      | inl e => (Some e, st)
      | inr (_, st') => addNodes st' rest
      end
  end.

(** How the promise of [process] stands when [process] returns: left to
    the two listeners, or rejected with what the executor threw. *)
Inductive Promise : Type :=
  | Listening (p : ProcessPromise.t)
  | RejectedWith (e : GardenError).

(** [process(tasks, parent)]: one node per task key, the two listeners,
    then [this.addNode(node)] for each node.  An exception thrown in the
    executor rejects the promise. *)
Definition process (st : t) (tasks : list BaseTask) (parent : option BaseTask)
  : Promise * t :=
  let '(nodes, st1) :=
    fold_left
      (fun acc task =>
         let '(nodes, s) := acc in
         let '(node, s') := newTaskNode s task parent in
         (JsObject.set nodes (getKey task) node, s'))
      tasks (JsObject.empty, st) in
  match addNodes st1 (JsObject.values nodes) with
  | (Some e, st2) => (RejectedWith e, st2)
  | (None, st2) => (Listening (ProcessPromise.new tasks), st2)
  end.

(** [resolve(tasks, parent)] awaits [process(tasks, parent)] and maps the
    results to their outputs; it rejects as [process] does. *)
Definition resolve (st : t) (tasks : list BaseTask) (parent : option BaseTask)
  : Promise * t :=
  process st tasks parent.

(** What a user of the class can do with a graph: call [process] or
    [resolve]; besides, time passes. *)
Inductive Call : Type :=
  | CallProcess (tasks : list BaseTask) (parent : option BaseTask)
  | CallResolve (tasks : list BaseTask) (parent : option BaseTask)
  | Tick (elapsed : Z).

Definition call (st : t) (c : Call) : t :=
  match c with
  | CallProcess tasks parent => snd (process st tasks parent)
  | CallResolve tasks parent => snd (resolve st tasks parent)
  | Tick elapsed => if 0 <=? elapsed then set_now st (now st + elapsed) else st
  end.

(** The states of a graph created with [limit] at time [now0]. *)
Inductive reachable (limit now0 : Z) : t -> Prop :=
  | reachable_new : reachable limit now0 (new limit now0)
  | reachable_call st c :
      reachable limit now0 st -> reachable limit now0 (call st c).

(** The graph after a list of calls. *)
Definition run (st : t) (calls : list Call) : t := fold_left call calls st.

End TaskGraphAsWritten.





Module AsWrittenSpec.
Import TaskGraph.

(** The graph after [k] node objects were created and nothing else was
    done to it. *)
Definition allocated (k : nat) (st : t) : t :=
  mk (roots st) (index st) (inProgress st) (taskDependencyCache st) (resultCache st)
     (concurrencyLimit st) (depStore st) (k + nextOid st) (events st) (now st)
     (running st) (invoked st) (uncaught st).

(** Nothing has happened in the graph: no node is indexed, a root or in
    progress, no dependency set and no result is cached, no event was
    emitted and no process body was invoked. *)
Definition idle (st : t) : Prop :=
  roots st = TaskNodeMap.new
  /\ index st = TaskNodeMap.new
  /\ inProgress st = TaskNodeMap.new
  /\ taskDependencyCache st = JsObject.empty
  /\ resultCache st = ResultCache.new
  /\ events st = []
  /\ running st = []
  /\ invoked st = [].

End AsWrittenSpec.

(* ===================================================================== *)
(** * Properties *)
(* ===================================================================== *)

(* --------------------------------------------------------------------- *)
(** ** JavaScript objects *)
(* --------------------------------------------------------------------- *)

Module JsObjectFacts.
Import JsObject.

Section Facts.
Context {V : Type}.
Implicit Types (o : JsObject.t V) (k : string) (v : V).

Lemma get_In o k v : get o k = Some v -> In (k, v) o.
Proof.
  induction o as [|[k' v'] r IH]; simpl; [discriminate|].
  destruct (String.eqb_spec k' k) as [->|Hne].
  - intros [= ->]. now left.
  - intros H. right. now apply IH.
Qed.

Lemma In_get o k v : NoDup (keys o) -> In (k, v) o -> get o k = Some v.
Proof.
  induction o as [|[k' v'] r IH]; simpl; [intros _ []|].
  intros Hnd [Heq|Hin].
  - injection Heq as -> ->. now rewrite String.eqb_refl.
  - inversion Hnd as [|? ? Hnotin Hnd']; subst.
    destruct (String.eqb_spec k' k) as [->|Hne].
    + exfalso. apply Hnotin. change (In (fst (k, v)) (map fst r)).
      now apply in_map.
    + now apply IH.
Qed.

Lemma get_None_notin o k : get o k = None -> ~ In k (keys o).
Proof.
  induction o as [|[k' v'] r IH]; simpl; [tauto|].
  destruct (String.eqb_spec k' k) as [->|Hne]; [discriminate|].
  intros H [Heq|Hin]; [congruence|]. now apply IH.
Qed.

Lemma notin_get_None o k : ~ In k (keys o) -> get o k = None.
Proof.
  induction o as [|[k' v'] r IH]; simpl; [reflexivity|].
  intros H. destruct (String.eqb_spec k' k) as [->|Hne]; [tauto|].
  apply IH. tauto.
Qed.

Lemma get_set_eq o k v : get (set o k v) k = Some v.
Proof.
  induction o as [|[k' v'] r IH]; simpl.
  - now rewrite String.eqb_refl.
  - destruct (String.eqb_spec k' k) as [->|Hne]; simpl.
    + now rewrite String.eqb_refl.
    + destruct (String.eqb_spec k' k); [contradiction|assumption].
Qed.

Lemma get_set_ne o k k' v : k' <> k -> get (set o k v) k' = get o k'.
Proof.
  intros Hne. induction o as [|[k0 v0] r IH]; simpl.
  - destruct (String.eqb_spec k k'); [congruence|reflexivity].
  - destruct (String.eqb_spec k0 k) as [->|Hne0]; simpl.
    + destruct (String.eqb_spec k k'); [congruence|reflexivity].
    + destruct (String.eqb_spec k0 k'); [reflexivity|assumption].
Qed.

Lemma keys_set_existing o k v : In k (keys o) -> keys (set o k v) = keys o.
Proof.
  induction o as [|[k' v'] r IH]; simpl; [intros []|].
  intros H. destruct (String.eqb_spec k' k) as [->|Hne]; simpl.
  - reflexivity.
  - f_equal. apply IH. destruct H; [contradiction|assumption].
Qed.

Lemma keys_set_new o k v : ~ In k (keys o) -> keys (set o k v) = (keys o ++ [k])%list.
Proof.
  induction o as [|[k' v'] r IH]; simpl; [reflexivity|].
  intros H. destruct (String.eqb_spec k' k) as [->|Hne]; simpl.
  - tauto.
  - f_equal. apply IH. tauto.
Qed.

Lemma In_set o k v k' v' :
  NoDup (keys o) -> In (k', v') (set o k v) ->
  (k' = k /\ v' = v) \/ (k' <> k /\ In (k', v') o).
Proof.
  induction o as [|[k0 v0] r IH]; simpl.
  - intros _ [[= <- <-]|[]]. now left.
  - intros Hnd. inversion Hnd as [|? ? Hnotin Hnd']; subst.
    destruct (String.eqb_spec k0 k) as [->|Hne]; simpl.
    + intros [[= <- <-]|Hin]; [now left|].
      right. split; [|now right].
      intros ->. apply Hnotin. change (In (fst (k, v')) (map fst r)).
      now apply in_map.
    + intros [[= <- <-]|Hin].
      * right. split; [assumption|now left].
      * destruct (IH Hnd' Hin) as [?|[? ?]]; [now left|].
        right. split; [assumption|now right].
Qed.

Lemma NoDup_keys_set o k v : NoDup (keys o) -> NoDup (keys (set o k v)).
Proof.
  intros Hnd. destruct (in_dec string_dec k (keys o)) as [Hin|Hnin].
  - now rewrite keys_set_existing.
  - rewrite keys_set_new by assumption.
    apply NoDup_app; [assumption|repeat constructor; tauto|].
    intros x Hx [<-|[]]. contradiction.
Qed.

Lemma has_true_iff o k : has o k = true <-> In k (keys o).
Proof.
  unfold has. destruct (get o k) eqn:E.
  - split; [intros _|reflexivity]. apply get_In in E.
    change (In (fst (k, v)) (map fst o)). now apply in_map.
  - split; [discriminate|]. intros H. now apply get_None_notin in E.
Qed.
End Facts.
End JsObjectFacts.

(* --------------------------------------------------------------------- *)
(** ** Action-handler dispatch *)
(* --------------------------------------------------------------------- *)

Module GardenFacts.
Import Garden GardenSpec JsObjectFacts.

Lemma getActionHandlers_None g a :
  getActionHandlers g a None = tableOf g a.
Proof. reflexivity. Qed.

Lemma getActionHandlers_Some g a p :
  truthyName (Some p) = true ->
  getActionHandlers g a (Some p) =
  filter (fun kv => String.eqb (h_pluginName (snd kv)) p) (tableOf g a).
Proof.
  intros Hp. unfold getActionHandlers, filterActionHandlers, tableOf.
  now rewrite Hp.
Qed.

(** In a well-formed table, filtering on a plugin's name leaves exactly
    that plugin's entry. *)
Lemma filter_plugin_wf (tbl : ActionHandlerMap) p :
  wfTable tbl ->
  filter (fun kv => String.eqb (h_pluginName (snd kv)) p) tbl =
  match JsObject.get tbl p with
  | Some h => [(p, h)]
  | None => []
  end.
Proof.
  intros [Hnd Hname]. induction tbl as [|[k h] r IH]; simpl; [reflexivity|].
  inversion Hnd as [|? ? Hnotin Hnd']; subst.
  assert (Hk : h_pluginName h = k) by (apply Hname; now left).
  assert (Hr : forall k0 h0, In (k0, h0) r -> h_pluginName h0 = k0)
    by (intros; apply Hname; now right).
  specialize (IH Hnd' Hr). rewrite Hk.
  destruct (String.eqb_spec k p) as [->|Hne].
  - rewrite IH. now rewrite (notin_get_None r p Hnotin).
  - exact IH.
Qed.

Lemma addActionHandler_table g p a f g' :
  addActionHandler g p a f = inr g' ->
  tableOf g' a = JsObject.set (tableOf g a) p (mkHandler f a p)
  /\ forall a', a' <> a -> tableOf g' a' = tableOf g a'.
Proof.
  unfold addActionHandler, tableOf.
  destruct (JsObject.get (actionHandlers g) a) as [tbl|] eqn:E; [|discriminate].
  intros [= <-]. simpl. split.
  - now rewrite get_set_eq.
  - intros a' Hne. now rewrite get_set_ne.
Qed.

Lemma wfTable_set tbl p f a :
  wfTable tbl -> wfTable (JsObject.set tbl p (mkHandler f a p)).
Proof.
  intros [Hnd Hname]. split.
  - now apply NoDup_keys_set.
  - intros k h Hin. apply In_set in Hin; [|assumption].
    destruct Hin as [[-> ->]|[_ Hin]]; [reflexivity|now apply Hname].
Qed.

(** Registration keeps every table well formed. *)
Lemma addActionHandler_wf g p a f g' :
  (forall a', wfTable (tableOf g a')) ->
  addActionHandler g p a f = inr g' ->
  forall a', wfTable (tableOf g' a').
Proof.
  intros Hwf Hadd a'. destruct (addActionHandler_table _ _ _ _ _ Hadd) as [Ha Hother].
  destruct (string_dec a' a) as [->|Hne].
  - rewrite Ha. now apply wfTable_set.
  - rewrite Hother by assumption. apply Hwf.
Qed.

Lemma wfTable_empty : wfTable JsObject.empty.
Proof. split; [constructor|intros ? ? []]. Qed.

Lemma new_wf names env a : wfTable (tableOf (new names env) a).
Proof.
  unfold new, tableOf. simpl.
  assert (H : forall (o : JsObject.t ActionHandlerMap),
             (forall tbl, JsObject.get o a = Some tbl -> wfTable tbl) ->
             forall tbl,
               JsObject.get
                 (fold_left (fun o n => JsObject.set o n JsObject.empty) names o) a
               = Some tbl -> wfTable tbl).
  { induction names as [|n names IH]; simpl; intros o Ho tbl; [apply Ho|].
    apply IH. intros tbl'. destruct (string_dec a n) as [->|Hne].
    - rewrite get_set_eq. intros [= <-]. apply wfTable_empty.
    - rewrite get_set_ne by assumption. apply Ho. }
  destruct (JsObject.get _ a) eqn:E; [|apply wfTable_empty].
  eapply H; [|exact E]. simpl. discriminate.
Qed.

Lemma set_new_entry {V} (o : JsObject.t V) k v :
  ~ In k (JsObject.keys o) -> JsObject.set o k v = (o ++ [(k, v)])%list.
Proof.
  induction o as [|[k' v'] r IH]; simpl; [reflexivity|].
  intros H. destruct (String.eqb_spec k' k) as [->|Hne]; [tauto|].
  f_equal. apply IH. tauto.
Qed.

(** The table of an action type right after a plugin has registered for
    it for the first time: the plugin's handler is its last entry. *)
Lemma addActionHandler_first g p a f g' :
  JsObject.has (tableOf g a) p = false ->
  addActionHandler g p a f = inr g' ->
  tableOf g' a = (tableOf g a ++ [(p, mkHandler f a p)])%list.
Proof.
  intros Hnew Hadd. destruct (addActionHandler_table _ _ _ _ _ Hadd) as [-> _].
  apply set_new_entry. intros Hin. apply has_true_iff in Hin. congruence.
Qed.

(** C8 (as amended).  With a plugin name the handler registered under
    that name is returned; without one, the last entry of the action
    type's handler table, which right after a plugin has registered for
    the action type for the first time is that plugin's handler, while
    registrations for other action types leave the answer as it was; with
    no handler found, a supplied default handler is returned under the
    default provider's name; otherwise the call fails with [PluginError]
    when a plugin name was given and with [ParameterError] when not.
    What is returned without a plugin name after a plugin has registered
    again for the same action type is not part of the statement. *)
Theorem getActionHandler_dispatch (g : t) (actionType : string) :
  wfTable (tableOf g actionType) ->
  (forall p h d,
      truthyName (Some p) = true ->
      JsObject.get (tableOf g actionType) p = Some h ->
      getActionHandler g actionType (Some p) d = inr h)
  /\ (forall earlier k h d,
         tableOf g actionType = (earlier ++ [(k, h)])%list ->
         getActionHandler g actionType None d = inr h)
  /\ (forall p f g' d,
         JsObject.has (tableOf g actionType) p = false ->
         addActionHandler g p actionType f = inr g' ->
         getActionHandler g' actionType None d = inr (mkHandler f actionType p)
         /\ (truthyName (Some p) = true ->
             getActionHandler g' actionType (Some p) d
             = inr (mkHandler f actionType p)))
  /\ (forall p a f g' pn d,
         a <> actionType ->
         addActionHandler g p a f = inr g' ->
         getActionHandler g' actionType pn d = getActionHandler g actionType pn d)
  /\ (forall pn d,
         getActionHandlers g actionType pn = JsObject.empty ->
         getActionHandler g actionType pn (Some d) =
         inr (mkHandler (h_impl d) (h_actionType d) defaultProviderName))
  /\ (forall pn,
         getActionHandlers g actionType pn = JsObject.empty ->
         exists msg,
           getActionHandler g actionType pn None =
           inl (if truthyName pn then PluginError msg else ParameterError msg)).
Proof.
  intros Hwf. split; [|split; [|split; [|split; [|split]]]].
  - intros p h d Hp Hget. unfold getActionHandler.
    rewrite getActionHandlers_Some by assumption.
    rewrite filter_plugin_wf by assumption. now rewrite Hget.
  - intros earlier k h d Htbl. unfold getActionHandler.
    rewrite getActionHandlers_None, Htbl. unfold JsObject.values.
    rewrite map_app, rev_app_distr. reflexivity.
  - intros p f g' d Hnew Hadd.
    pose proof (addActionHandler_first _ _ _ _ _ Hnew Hadd) as Htbl. split.
    + unfold getActionHandler. rewrite getActionHandlers_None, Htbl.
      unfold JsObject.values. rewrite map_app, rev_app_distr. reflexivity.
    + intros Hp. unfold getActionHandler.
      rewrite getActionHandlers_Some by assumption.
      assert (Hwf' : wfTable (tableOf g' actionType)).
      { destruct (addActionHandler_table _ _ _ _ _ Hadd) as [-> _].
        now apply wfTable_set. }
      rewrite filter_plugin_wf by assumption.
      destruct (addActionHandler_table _ _ _ _ _ Hadd) as [-> _].
      now rewrite get_set_eq.
  - intros p a f g' pn d Hne Hadd.
    destruct (addActionHandler_table _ _ _ _ _ Hadd) as [_ Hother].
    assert (Htbl : tableOf g' actionType = tableOf g actionType)
      by (apply Hother; congruence).
    assert (Henv : environmentName g' = environmentName g).
    { unfold addActionHandler in Hadd.
      destruct (JsObject.get (actionHandlers g) a); [|discriminate].
      now injection Hadd as <-. }
    unfold getActionHandler, getActionHandlers, filterActionHandlers.
    fold (tableOf g' actionType). fold (tableOf g actionType).
    unfold tableOf in Htbl |- *.
    destruct (JsObject.get (actionHandlers g') actionType) as [t'|];
      destruct (JsObject.get (actionHandlers g) actionType) as [t0|];
      subst; rewrite ?Henv; reflexivity.
  - intros pn d Hnone. unfold getActionHandler. now rewrite Hnone.
  - intros pn Hnone. unfold getActionHandler. rewrite Hnone. simpl.
    destruct pn as [p|]; simpl.
    + destruct (negb (String.eqb p "")); eexists; reflexivity.
    + eexists; reflexivity.
Qed.

Lemma getActionHandler_dispatch_witness :
  wfTable (tableOf sampleGarden "prepareEnvironment")
  /\ (exists g',
         addActionHandler sampleGarden "p1" "prepareEnvironment" "p1.prepare" = inr g'
         /\ getActionHandler g' "prepareEnvironment" None None
            = inr (mkHandler "p1.prepare" "prepareEnvironment" "p1")
         /\ getActionHandler g' "prepareEnvironment" (Some "p1") None
            = inr (mkHandler "p1.prepare" "prepareEnvironment" "p1"))
  /\ getActionHandler sampleGarden "prepareEnvironment" None
                      (Some (mkHandler "fallback" "prepareEnvironment" ""))
     = inr (mkHandler "fallback" "prepareEnvironment" defaultProviderName).
Proof.
  assert (Hwf : wfTable (tableOf sampleGarden "prepareEnvironment"))
    by apply new_wf.
  split; [exact Hwf|].
  destruct (getActionHandler_dispatch sampleGarden "prepareEnvironment" Hwf)
    as (_ & _ & Hreg & _ & Hdefault & _).
  split.
  - eexists. split; [reflexivity|].
    destruct (Hreg "p1" "p1.prepare" _ None eq_refl eq_refl) as [Hlast Hnamed].
    split; [exact Hlast|apply Hnamed; reflexivity].
  - apply (Hdefault None). reflexivity.
Defined.

(** C8 as stated fails: there is no [NoHandlerError].  On a garden on
    which no plugin has registered a handler, the call with a plugin
    name fails with a [PluginError] and the call without one with a
    [ParameterError], so no single error class describes the failure. *)
Lemma getActionHandler_error_classes :
  getActionHandler sampleGarden "cleanupEnvironment" (Some "p1") None
  = inl (PluginError "Plugin 'p1' does not have a 'cleanupEnvironment' handler.")
  /\ getActionHandler sampleGarden "cleanupEnvironment" None None
     = inl (ParameterError
              ("No 'cleanupEnvironment' handler configured in environment 'local'. "
               ++ "Are you missing a provider configuration?"))
  /\ ~ (exists c, forall pn e,
           getActionHandler sampleGarden "cleanupEnvironment" pn None = inl e ->
           errorClass e = c).
Proof.
  split; [reflexivity|]. split; [reflexivity|].
  intros [c Hc].
  pose proof (Hc (Some "p1") _ eq_refl) as H1.
  pose proof (Hc None _ eq_refl) as H2.
  simpl in H1, H2. congruence.
Qed.

End GardenFacts.

(* --------------------------------------------------------------------- *)
(** ** Configuration graph construction *)
(* --------------------------------------------------------------------- *)

Module ConfigGraphFacts.
Import ConfigGraph ConfigGraphSpec JsObjectFacts.

(** A loop fails as soon as one of its elements makes the body fail in
    every state satisfying an invariant that the body preserves. *)
Lemma forEach_fails {A S} (body : S -> A -> Result S) (I : S -> Prop) x xs :
  (forall s y s', In y xs -> I s -> body s y = inr s' -> I s') ->
  (forall s, I s -> exists e, body s x = inl e) ->
  In x xs ->
  forall s, I s -> exists e, forEach body xs s = inl e.
Proof.
  intros Hpres Hfail. induction xs as [|y r IH]; simpl; [intros []|].
  intros Hin s Hs. unfold bind. destruct (body s y) as [e|s'] eqn:E.
  - now exists e.
  - destruct Hin as [->|Hin].
    + destruct (Hfail s Hs) as [e He]. congruence.
    + apply IH; [|assumption|].
      * intros s0 y0 s0' Hy0. apply Hpres. now right.
      * eapply (Hpres s y s'); [now left|eassumption..].
Qed.

Lemma forEach_preserves {A S} (body : S -> A -> Result S) (I : S -> Prop) xs :
  (forall s y s', In y xs -> I s -> body s y = inr s' -> I s') ->
  forall s s', I s -> forEach body xs s = inr s' -> I s'.
Proof.
  induction xs as [|y r IH]; simpl; intros Hpres s s' Hs.
  - intros [= <-]. assumption.
  - unfold bind. destruct (body s y) as [e|s1] eqn:E; [discriminate|].
    apply IH.
    + intros s0 y0 s0' Hy0. apply Hpres. now right.
    + eapply (Hpres s y s1); [now left|eassumption..].
Qed.

Section Construction.
Variable getModuleKey : string -> option string -> string.

Lemma getNode_maps g ty name mn :
  serviceMap (snd (getNode g ty name mn)) = serviceMap g
  /\ taskMap (snd (getNode g ty name mn)) = taskMap g.
Proof.
  unfold getNode. destruct (JsObject.get (index g) (nodeKey ty name)); now split.
Qed.

Lemma updateNode_maps g k f :
  serviceMap (updateNode g k f) = serviceMap g
  /\ taskMap (updateNode g k f) = taskMap g.
Proof. unfold updateNode. destruct (JsObject.get (index g) k); now split. Qed.

Lemma addRelation_maps g d ty name mn :
  serviceMap (addRelation g d ty name mn) = serviceMap g
  /\ taskMap (addRelation g d ty name mn) = taskMap g.
Proof.
  unfold addRelation.
  destruct (getNode g ty name mn) as [k g1] eqn:E.
  pose proof (getNode_maps g ty name mn) as [H1 H2]. rewrite E in H1, H2. simpl in *.
  destruct (updateNode_maps (updateNode g1 d (fun n => addDependency n k)) k
                            (fun n => addDependant n d)) as [-> ->].
  destruct (updateNode_maps g1 d (fun n => addDependency n k)) as [-> ->].
  now split.
Qed.

Lemma namesWithin_addRelation names g d ty name mn :
  namesWithin names g -> namesWithin names (addRelation g d ty name mn).
Proof.
  unfold namesWithin. destruct (addRelation_maps g d ty name mn) as [-> ->]. tauto.
Qed.

Lemma namesWithin_getNode names g ty name mn :
  namesWithin names g -> namesWithin names (snd (getNode g ty name mn)).
Proof.
  unfold namesWithin. destruct (getNode_maps g ty name mn) as [-> ->]. tauto.
Qed.

Lemma addRuntimeDependency_preserves names node g d g' :
  namesWithin names g ->
  addRuntimeDependency getModuleKey node g d = inr g' ->
  namesWithin names g'.
Proof.
  unfold addRuntimeDependency. intros Hg.
  destruct (JsObject.get (serviceMap g) d).
  - intros [= <-]. now apply namesWithin_addRelation.
  - destruct (JsObject.get (taskMap g) d); [|discriminate].
    intros [= <-]. now apply namesWithin_addRelation.
Qed.

(** A dependency name outside the registries is a [TypeError]. *)
Lemma addRuntimeDependency_unknown names node g d :
  namesWithin names g -> ~ In d names ->
  addRuntimeDependency getModuleKey node g d
  = inl (TypeError "Cannot read property 'module' of undefined").
Proof.
  intros [Hs Ht] Hd. unfold addRuntimeDependency.
  rewrite (notin_get_None (serviceMap g) d) by (intros H; apply Hd, Hs, H).
  now rewrite (notin_get_None (taskMap g) d) by (intros H; apply Hd, Ht, H).
Qed.

Lemma keys_set_In {V} (o : JsObject.t V) k v k' :
  In k' (JsObject.keys (JsObject.set o k v)) -> k' = k \/ In k' (JsObject.keys o).
Proof.
  destruct (in_dec string_dec k (JsObject.keys o)) as [Hin|Hnin].
  - rewrite keys_set_existing by assumption. now right.
  - rewrite keys_set_new by assumption. rewrite in_app_iff. simpl. intuition.
Qed.

Lemma addService_preserves names m mk g sc g' :
  In (sc_name sc) names ->
  namesWithin names g ->
  addService getModuleKey m mk g sc = inr g' ->
  namesWithin names g'.
Proof.
  intros Hname Hg. unfold addService.
  destruct (JsObject.get (serviceMap g) (sc_name sc)); [discriminate|].
  match goal with |- context [getNode ?g1 ?a ?b ?c] =>
    pose proof (namesWithin_getNode names g1 a b c) as Hn;
    destruct (getNode g1 a b c) as [sn g2] end.
  simpl in Hn. apply forEach_preserves with (I := namesWithin names).
  - intros s0 y0 s0' _. apply addRuntimeDependency_preserves.
  - apply namesWithin_addRelation, Hn. destruct Hg as [Hs Ht]. split; simpl.
    + intros k Hk. apply keys_set_In in Hk. destruct Hk as [->|Hk]; auto.
    + exact Ht.
Qed.

Lemma addTask_preserves names m mk g tc g' :
  In (tc_name tc) names ->
  namesWithin names g ->
  addTask getModuleKey m mk g tc = inr g' ->
  namesWithin names g'.
Proof.
  intros Hname Hg. unfold addTask.
  destruct (JsObject.get (serviceMap g) (tc_name tc)); [discriminate|].
  destruct (JsObject.get (taskMap g) (tc_name tc)); [discriminate|].
  match goal with |- context [getNode ?g1 ?a ?b ?c] =>
    pose proof (namesWithin_getNode names g1 a b c) as Hn;
    destruct (getNode g1 a b c) as [sn g2] end.
  simpl in Hn. apply forEach_preserves with (I := namesWithin names).
  - intros s0 y0 s0' _. apply addRuntimeDependency_preserves.
  - apply namesWithin_addRelation, Hn. destruct Hg as [Hs Ht]. split; simpl.
    + exact Hs.
    + intros k Hk. apply keys_set_In in Hk. destruct Hk as [->|Hk]; auto.
Qed.

Lemma addTest_preserves names m mk g tc g' :
  namesWithin names g ->
  addTest getModuleKey m mk g tc = inr g' ->
  namesWithin names g'.
Proof.
  intros Hg. unfold addTest.
  match goal with |- context [getNode ?g1 ?a ?b ?c] =>
    pose proof (namesWithin_getNode names g1 a b c) as Hn;
    destruct (getNode g1 a b c) as [sn g2] end.
  simpl in Hn. apply forEach_preserves with (I := namesWithin names).
  - intros s0 y0 s0' _. apply addRuntimeDependency_preserves.
  - apply namesWithin_addRelation, Hn. exact Hg.
Qed.

Lemma addService_fails names m mk g sc d :
  In (sc_name sc) names -> In d (sc_dependencies sc) -> ~ In d names ->
  namesWithin names g ->
  exists e, addService getModuleKey m mk g sc = inl e.
Proof.
  intros Hname Hd Hnot Hg. unfold addService.
  destruct (JsObject.get (serviceMap g) (sc_name sc)); [eexists; reflexivity|].
  match goal with |- context [getNode ?g1 ?a ?b ?c] =>
    pose proof (namesWithin_getNode names g1 a b c) as Hn;
    destruct (getNode g1 a b c) as [sn g2] end.
  simpl in Hn. apply forEach_fails with (I := namesWithin names) (x := d).
  - intros s0 y0 s0' _. apply addRuntimeDependency_preserves.
  - intros s0 Hs0. eexists. now apply addRuntimeDependency_unknown with (names := names).
  - assumption.
  - apply namesWithin_addRelation, Hn. destruct Hg as [Hs Ht]. split; simpl.
    + intros k Hk. apply keys_set_In in Hk. destruct Hk as [->|Hk]; auto.
    + exact Ht.
Qed.

Lemma addTask_fails names m mk g tc d :
  In (tc_name tc) names -> In d (tc_dependencies tc) -> ~ In d names ->
  namesWithin names g ->
  exists e, addTask getModuleKey m mk g tc = inl e.
Proof.
  intros Hname Hd Hnot Hg. unfold addTask.
  destruct (JsObject.get (serviceMap g) (tc_name tc)); [eexists; reflexivity|].
  destruct (JsObject.get (taskMap g) (tc_name tc)); [eexists; reflexivity|].
  match goal with |- context [getNode ?g1 ?a ?b ?c] =>
    pose proof (namesWithin_getNode names g1 a b c) as Hn;
    destruct (getNode g1 a b c) as [sn g2] end.
  simpl in Hn. apply forEach_fails with (I := namesWithin names) (x := d).
  - intros s0 y0 s0' _. apply addRuntimeDependency_preserves.
  - intros s0 Hs0. eexists. now apply addRuntimeDependency_unknown with (names := names).
  - assumption.
  - apply namesWithin_addRelation, Hn. destruct Hg as [Hs Ht]. split; simpl.
    + exact Hs.
    + intros k Hk. apply keys_set_In in Hk. destruct Hk as [->|Hk]; auto.
Qed.

Lemma addTest_fails names m mk g tc d :
  In d (tst_dependencies tc) -> ~ In d names ->
  namesWithin names g ->
  exists e, addTest getModuleKey m mk g tc = inl e.
Proof.
  intros Hd Hnot Hg. unfold addTest.
  match goal with |- context [getNode ?g1 ?a ?b ?c] =>
    pose proof (namesWithin_getNode names g1 a b c) as Hn;
    destruct (getNode g1 a b c) as [sn g2] end.
  simpl in Hn. apply forEach_fails with (I := namesWithin names) (x := d).
  - intros s0 y0 s0' _. apply addRuntimeDependency_preserves.
  - intros s0 Hs0. eexists. now apply addRuntimeDependency_unknown with (names := names).
  - assumption.
  - apply namesWithin_addRelation, Hn. exact Hg.
Qed.

(** The state in which the service loop of [addModule] starts. *)
Lemma addModule_prefix_namesWithin names g m :
  namesWithin names g ->
  forall g1 bn g2,
    g1 = mk (index g) (JsObject.set (moduleMap g) (keyForModule getModuleKey m) m)
            (serviceMap g) (taskMap g) (testConfigMap g) (testConfigModuleMap g) ->
    getNode g1 build (keyForModule getModuleKey m) (keyForModule getModuleKey m)
    = (bn, g2) ->
    namesWithin names
      (fold_left
         (fun acc buildDep =>
            let buildDepKey := getModuleKey (bd_name buildDep) (bd_plugin buildDep) in
            addRelation acc bn build buildDepKey buildDepKey)
         (m_buildDependencies m) g2).
Proof.
  intros Hg g1 bn g2 -> Hnode.
  assert (Hg2 : namesWithin names g2).
  { pose proof (namesWithin_getNode names
      (mk (index g) (JsObject.set (moduleMap g) (keyForModule getModuleKey m) m)
          (serviceMap g) (taskMap g) (testConfigMap g) (testConfigModuleMap g))
      build (keyForModule getModuleKey m) (keyForModule getModuleKey m)) as H.
    rewrite Hnode in H. apply H. exact Hg. }
  clear Hnode. revert g2 Hg2.
  induction (m_buildDependencies m) as [|bd r IH]; simpl; intros g2 Hg2; [assumption|].
  apply IH. now apply namesWithin_addRelation.
Qed.

Lemma addModule_preserves names g m g' :
  (forall n, In n (declaredNames m) -> In n names) ->
  namesWithin names g ->
  addModule getModuleKey g m = inr g' ->
  namesWithin names g'.
Proof.
  intros Hnames Hg. unfold addModule.
  destruct (getNode _ build _ _) as [bn g2] eqn:Hnode.
  pose proof (addModule_prefix_namesWithin names g m Hg _ bn g2 eq_refl Hnode) as H3.
  cbv zeta in H3. set (g3 := fold_left _ _ g2) in *.
  unfold bind.
  destruct (forEach (addService getModuleKey m _) _ g3) as [e|g4] eqn:E4; [discriminate|].
  destruct (forEach (addTask getModuleKey m _) _ g4) as [e|g5] eqn:E5; [discriminate|].
  assert (H4 : namesWithin names g4).
  { eapply forEach_preserves with (I := namesWithin names); [|exact H3|exact E4].
    intros s y s' Hy. apply addService_preserves. apply Hnames.
    unfold declaredNames. apply in_or_app. left. now apply in_map. }
  assert (H5 : namesWithin names g5).
  { eapply forEach_preserves with (I := namesWithin names); [|exact H4|exact E5].
    intros s y s' Hy. apply addTask_preserves. apply Hnames.
    unfold declaredNames. apply in_or_app. right. now apply in_map. }
  apply forEach_preserves with (I := namesWithin names); [|exact H5].
  intros s y s' _. apply addTest_preserves.
Qed.

Lemma addModule_fails names g m d :
  (forall n, In n (declaredNames m) -> In n names) ->
  In d (declaredDependencies m) -> ~ In d names ->
  namesWithin names g ->
  exists e, addModule getModuleKey g m = inl e.
Proof.
  intros Hnames Hd Hnot Hg. unfold addModule.
  destruct (getNode _ build _ _) as [bn g2] eqn:Hnode.
  pose proof (addModule_prefix_namesWithin names g m Hg _ bn g2 eq_refl Hnode) as H3.
  cbv zeta in H3. set (g3 := fold_left _ _ g2) in *.
  assert (HS : forall sc, In sc (m_serviceConfigs m) -> In (sc_name sc) names).
  { intros sc Hsc. apply Hnames. unfold declaredNames. apply in_or_app. left.
    now apply in_map. }
  assert (HT : forall tc, In tc (m_taskConfigs m) -> In (tc_name tc) names).
  { intros tc Htc. apply Hnames. unfold declaredNames. apply in_or_app. right.
    now apply in_map. }
  unfold declaredDependencies in Hd. rewrite !in_app_iff, !in_flat_map in Hd.
  unfold bind.
  destruct Hd as [(sc & Hsc & Hdsc)|Hd].
  { destruct (forEach_fails (addService getModuleKey m (keyForModule getModuleKey m))
                (namesWithin names) sc (m_serviceConfigs m)) with (s := g3)
      as [e He]; try assumption.
    - intros s y s' Hy. apply addService_preserves. now apply HS.
    - intros s Hs. apply addService_fails with (names := names) (d := d); auto.
    - rewrite He. now exists e. }
  destruct (forEach (addService getModuleKey m _) _ g3) as [e|g4] eqn:E4;
    [now exists e|].
  assert (H4 : namesWithin names g4).
  { eapply forEach_preserves with (I := namesWithin names); [|exact H3|exact E4].
    intros s y s' Hy. apply addService_preserves. now apply HS. }
  destruct Hd as [(tc & Htc & Hdtc)|(tc & Htc & Hdtc)].
  { destruct (forEach_fails (addTask getModuleKey m (keyForModule getModuleKey m))
                (namesWithin names) tc (m_taskConfigs m)) with (s := g4)
      as [e He]; try assumption.
    - intros s y s' Hy. apply addTask_preserves. now apply HT.
    - intros s Hs. apply addTask_fails with (names := names) (d := d); auto.
    - rewrite He. now exists e. }
  destruct (forEach (addTask getModuleKey m _) _ g4) as [e|g5] eqn:E5;
    [now exists e|].
  assert (H5 : namesWithin names g5).
  { eapply forEach_preserves with (I := namesWithin names); [|exact H4|exact E5].
    intros s y s' Hy. apply addTask_preserves. now apply HT. }
  apply forEach_fails with (I := namesWithin names) (x := tc); try assumption.
  - intros s y s' _. apply addTest_preserves.
  - intros s Hs. apply addTest_fails with (names := names) (d := d); auto.
Qed.

(** Construction fails whenever some service, task or test declares a
    dependency name that no module declares as a service or task. *)
Lemma new_unknown_dependency_fails (modules : list Module_) m d :
  In m modules ->
  In d (declaredDependencies m) ->
  ~ In d (flat_map declaredNames modules) ->
  exists e, new getModuleKey modules = inl e.
Proof.
  intros Hm Hd Hnot. unfold new.
  apply forEach_fails with (I := namesWithin (flat_map declaredNames modules)) (x := m).
  - intros s y s' Hy. apply addModule_preserves.
    intros n Hn. apply in_flat_map. now exists y.
  - intros s Hs. apply addModule_fails with (names := flat_map declaredNames modules) (d := d);
      auto.
    intros n Hn. apply in_flat_map. now exists m.
  - assumption.
  - split; simpl; intros k [].
Qed.

(** C9, at the failing input.  A single module whose service depends on
    an undeclared name makes the constructor fail, but with the runtime
    [TypeError] of reading [this.taskMap[depName].module], not with a
    [ConfigurationError]. *)
Theorem new_unknown_dependency_TypeError :
  new getModuleKey [moduleWithUnknownDependency]
  = inl (TypeError "Cannot read property 'module' of undefined")
  /\ forall msg,
      new getModuleKey [moduleWithUnknownDependency] <> inl (ConfigurationError msg).
Proof.
  assert (H : new getModuleKey [moduleWithUnknownDependency]
              = inl (TypeError "Cannot read property 'module' of undefined")).
  { pose (names := ["service-a"]).
    assert (Hempty : namesWithin names empty) by (split; simpl; intros k []).
    unfold new. cbn [forEach]. unfold bind, addModule.
    destruct (getNode _ build _ _) as [bn g2] eqn:Hnode.
    pose proof (addModule_prefix_namesWithin names empty
                  moduleWithUnknownDependency Hempty _ bn g2 eq_refl Hnode) as H3.
    cbv zeta in H3. set (g3 := fold_left _ _ g2) in *.
    assert (Hs3 : serviceMap g3 = JsObject.empty).
    { subst g3. simpl.
      pose proof (getNode_maps
        (mk (index empty)
            (JsObject.set (moduleMap empty)
               (keyForModule getModuleKey moduleWithUnknownDependency)
               moduleWithUnknownDependency)
            (serviceMap empty) (taskMap empty) (testConfigMap empty)
            (testConfigModuleMap empty))
        build (keyForModule getModuleKey moduleWithUnknownDependency)
        (keyForModule getModuleKey moduleWithUnknownDependency)) as [Hs _].
      rewrite Hnode in Hs. exact Hs. }
    change (m_serviceConfigs moduleWithUnknownDependency)
      with [mkServiceConfig "service-a" ["missing"]].
    cbn [forEach]. unfold bind at 3. unfold addService at 1.
    cbn [sc_name sc_dependencies]. rewrite Hs3. cbn [JsObject.get JsObject.empty].
    match goal with |- context [getNode ?g1 ?a ?b ?c] =>
      pose proof (namesWithin_getNode names g1 a b c) as Hn;
      destruct (getNode g1 a b c) as [sn g2'] end.
    cbn [forEach snd] in *. unfold bind.
    rewrite (addRuntimeDependency_unknown names).
    - reflexivity.
    - apply namesWithin_addRelation, Hn. destruct H3 as [Hs Ht]. split; simpl.
      + intros k [<-|[]]. now left.
      + exact Ht.
    - simpl. intros [H|[]]. discriminate.
  }
  split; [exact H|]. intros msg. rewrite H. discriminate.
Qed.

End Construction.
End ConfigGraphFacts.

(* --------------------------------------------------------------------- *)
(** ** Context resolution *)
(* --------------------------------------------------------------------- *)

Module ConfigContextFacts.
Import ConfigContext ConfigContextSpec JsObjectFacts.

Lemma resolve_S fuel h c key nodePath stack :
  resolve (S fuel) h c key nodePath stack
  = resolveBody (resolve fuel) h c key nodePath stack.
Proof. reflexivity. Qed.

(** The stack check of [resolve]: entering a full path that is already on
    the stack passed in fails with the circular-reference error, provided
    the memo does not answer first. *)
Lemma resolve_path_on_stack fuel h c this key nodePath stack :
  nth_error h c = Some this ->
  truthy (memoLookup this (String.concat "." key)) = false ->
  In (String.concat "." (nodePath ++ key)) stack ->
  resolve (S fuel) h c key nodePath (Some stack)
  = (Thrown (ConfigurationError
               (circularMessage (String.concat "." key) stack)),
     h, [CycleCheck (String.concat "." (nodePath ++ key))]).
Proof.
  intros Hthis Hmemo Hin. rewrite resolve_S. unfold resolveBody, resolveUncached.
  rewrite Hthis, Hmemo.
  assert (E : existsb (String.eqb (String.concat "." (nodePath ++ key))) stack = true).
  { apply existsb_exists. exists (String.concat "." (nodePath ++ key)).
    split; [assumption|apply String.eqb_refl]. }
  now rewrite E.
Qed.

Lemma mutual_reference_out_of_fuel fuel :
  (exists l, resolve fuel mutualReferenceHeap 0 ["a"] [] None
             = (OutOfFuel, mutualReferenceHeap, l))
  /\ (exists l, resolve fuel mutualReferenceHeap 0 ["b"] [] None
                = (OutOfFuel, mutualReferenceHeap, l)).
Proof.
  induction fuel as [|fuel [[la IHa] [lb IHb]]].
  - split; eexists; reflexivity.
  - split; rewrite resolve_S; unfold resolveBody, resolveUncached; cbn -[resolve].
    + rewrite IHb. eexists; reflexivity.
    + rewrite IHa. eexists; reflexivity.
Qed.

(** C7, at the failing input.  With [a = "${b}"] and [b = "${a}"] the
    resolution of [a] never ends, whatever recursion bound is granted: it
    neither returns nor fails with the circular-reference error.  Each
    reference inside a template string re-enters [resolve] with an
    undefined stack, so the stack never holds the path being re-entered. *)
Theorem resolve_mutual_reference_diverges :
  forall fuel,
    outcomeOf (resolve fuel mutualReferenceHeap 0 ["a"] [] None) = OutOfFuel
    /\ forall msg,
        outcomeOf (resolve fuel mutualReferenceHeap 0 ["a"] [] None)
        <> Thrown (ConfigurationError msg).
Proof.
  intros fuel. destruct (mutual_reference_out_of_fuel fuel) as [[l Hl] _].
  rewrite Hl. split; [reflexivity|]. intros msg. discriminate.
Qed.

(** *** Heap properties kept by every resolution *)

Section Preservation.

(** A heap property that survives the memo write ending a resolution that
    started, with the property in force, from a memo miss. *)
Variable P : Heap -> Prop.
Hypothesis P_setMemo :
  forall h0 h c0 path0 v0,
    P h0 -> memoMiss h0 c0 path0 -> P h -> P (setMemo h c0 path0 v0).

Section Step.
Variable resolveRec :
  Heap -> nat -> list string -> list string -> option (list string) -> Run.
Hypothesis resolveRec_P :
  forall h c key nodePath stack,
    P h -> P (heapOf (resolveRec h c key nodePath stack)).

Lemma resolveParts_P h context segs acc log :
  P h -> P (heapOf (resolveParts resolveRec h context segs acc log)).
Proof.
  revert h acc log. induction segs as [|[text|key] rest IH]; intros h acc log Hh; simpl.
  - exact Hh.
  - now apply IH.
  - pose proof (resolveRec_P h context key [] None Hh) as Hrec.
    destruct (resolveRec h context key [] None) as [[[v|e|] h'] l]; simpl in *.
    + now apply IH.
    + exact Hrec.
    + exact Hrec.
Qed.

Lemma resolveTemplateString_P h template context opts :
  P h -> P (heapOf (resolveTemplateString resolveRec h template context opts)).
Proof.
  intros Hh. unfold resolveTemplateString.
  destruct (Template.parse template); [now apply resolveParts_P|exact Hh].
Qed.

Lemma walk_P root nodePath h log value stack prefix rest :
  P h -> P (heapOf (walk resolveRec root nodePath h log value stack prefix rest)).
Proof.
  revert h log value stack prefix.
  induction rest as [|nextKey remainder IH]; intros h log value stack prefix Hh;
    [exact Hh|].
  cbn [walk].
  assert (Hstep : forall v2 log2,
    P (heapOf
         match v2 with
         | VContext nested =>
             let '(o, h', l) :=
               resolveRec h nested remainder (nodePath ++ prefix ++ [nextKey])%list
                 (Some (stack ++ [String.concat "."
                                    (nodePath ++ prefix ++ [nextKey])%list])%list) in
             (o, h', (log2 ++ l)%list)
         | VString template =>
             match resolveTemplateString resolveRec h template root
                     (stack ++ [String.concat "."
                                  (nodePath ++ prefix ++ [nextKey])%list])%list with
             | (Returned v3, h', l) =>
                 match v3 with
                 | VUndefined => (Returned VUndefined, h', (log2 ++ l)%list)
                 | _ => walk resolveRec root nodePath h' (log2 ++ l)%list v3
                          (stack ++ [String.concat "."
                                       (nodePath ++ prefix ++ [nextKey])%list])%list
                          (prefix ++ [nextKey])%list remainder
                 end
             | (o, h', l) => (o, h', (log2 ++ l)%list)
             end
         | VUndefined => (Returned VUndefined, h, log2)
         | _ => walk resolveRec root nodePath h log2 v2 stack
                     (prefix ++ [nextKey])%list remainder
         end)).
  { intros v2 log2. destruct v2; try (now apply IH); try exact Hh.
    - pose proof (resolveTemplateString_P h s root
                    (stack ++ [String.concat "."
                                 (nodePath ++ prefix ++ [nextKey])%list])%list Hh) as Ht.
      destruct (resolveTemplateString _ _ _ _ _) as [[[v3|e|] h'] l]; simpl in Ht.
      + destruct v3; try (now apply IH); exact Ht.
      + exact Ht.
      + exact Ht.
    - pose proof (resolveRec_P h ref remainder (nodePath ++ prefix ++ [nextKey])%list
                    (Some (stack ++ [String.concat "."
                                       (nodePath ++ prefix ++ [nextKey])%list])%list)
                    Hh) as Hr.
      destruct (resolveRec _ _ _ _ _) as [[o h'] l]. exact Hr. }
  destruct (if startsWithUnderscore nextKey then VUndefined
            else getProperty h value nextKey)
    as [|s|n|b|fs|es|name result|r|nm].
  - exact (Hstep VUndefined log).
  - exact (Hstep (VString s) log).
  - exact (Hstep (VNumber n) log).
  - exact (Hstep (VBool b) log).
  - exact (Hstep (VObject fs) log).
  - exact (Hstep (VMap es) log).
  - exact (Hstep result (log ++ [Called name])%list).
  - exact (Hstep (VContext r) log).
  - exact (Hstep (VNative nm) log).
Qed.

Lemma resolveBody_P h c key nodePath stack :
  P h -> P (heapOf (resolveBody resolveRec h c key nodePath stack)).
Proof.
  intros Hh. unfold resolveBody, resolveUncached.
  destruct (nth_error h c) as [this|] eqn:Hthis; [|exact Hh].
  destruct (truthy (memoLookup this (String.concat "." key))) eqn:Hmemo; [exact Hh|].
  destruct (existsb _ _); [exact Hh|].
  pose proof (walk_P (rootContext this) nodePath h
                [CycleCheck (String.concat "." (nodePath ++ key))]
                (VContext c) (match stack with Some st => st | None => [] end)
                [] key Hh) as Hw.
  destruct (walk _ _ _ _ _ _ _ _ _) as [[[value|e|] h'] log]; simpl in Hw;
    try exact Hw.
  assert (Hset : P (setMemo h' c (String.concat "." key) value)).
  { apply P_setMemo with (h0 := h); try assumption. now exists this. }
  destruct value; simpl; assumption.
Qed.

End Step.

Lemma resolve_P fuel :
  forall h c key nodePath stack,
    P h -> P (heapOf (resolve fuel h c key nodePath stack)).
Proof.
  induction fuel as [|fuel IH]; intros h c key nodePath stack Hh.
  - exact Hh.
  - rewrite resolve_S. now apply resolveBody_P.
Qed.

End Preservation.

(** *** The memo *)

Lemma setMemo_length h c path v : List.length (setMemo h c path v) = List.length h.
Proof.
  revert c. induction h as [|i r IH]; intros [|c]; simpl; auto.
Qed.

Lemma resolve_length fuel h c key nodePath stack :
  List.length (heapOf (resolve fuel h c key nodePath stack)) = List.length h.
Proof.
  apply (resolve_P (fun h' => List.length h' = List.length h)); [|reflexivity].
  intros h0 h1 c0 path0 v0 _ _ H1. now rewrite setMemo_length.
Qed.

Lemma memoOf_setMemo_eq h c path v :
  (c < List.length h)%nat -> memoOf (setMemo h c path v) c path = Some v.
Proof.
  unfold memoOf. revert c. induction h as [|i r IH]; intros [|c] Hc; simpl in *;
    try lia.
  - apply get_set_eq.
  - apply IH. lia.
Qed.

Lemma memoOf_setMemo_other h c path v c0 path0 :
  (c0 <> c \/ path0 <> path) ->
  memoOf (setMemo h c0 path0 v) c path = memoOf h c path.
Proof.
  unfold memoOf. revert c c0. induction h as [|i r IH]; intros [|c] [|c0] Hne;
    simpl; try reflexivity.
  - apply get_set_ne. destruct Hne as [Hne|Hne]; congruence.
  - apply IH. destruct Hne as [Hne|Hne]; [left; congruence|now right].
Qed.

(** A truthy memo entry is never overwritten. *)
Lemma resolve_keeps_memo fuel h c path v c' key nodePath stack :
  memoOf h c path = Some v -> truthy v = true ->
  memoOf (heapOf (resolve fuel h c' key nodePath stack)) c path = Some v.
Proof.
  intros Hmemo Htruthy.
  apply (resolve_P (fun h' => memoOf h' c path = Some v)); [|assumption].
  intros h0 h1 c0 path0 v0 H0 [this [Hthis Hmiss]] H1.
  rewrite memoOf_setMemo_other; [assumption|].
  destruct (Nat.eq_dec c0 c) as [->|Hc]; [|now left]. right. intros ->.
  unfold memoOf in H0. rewrite Hthis in H0.
  unfold memoLookup in Hmiss. rewrite H0 in Hmiss. congruence.
Qed.

Lemma laterHeap_keeps_memo h h' c path v :
  laterHeap h h' ->
  memoOf h c path = Some v -> truthy v = true ->
  memoOf h' c path = Some v.
Proof.
  induction 1 as [|h h1 h2 fuel c' key nodePath stack Hlater IH Hcall];
    intros Hmemo Htruthy; [assumption|].
  subst h2. apply resolve_keeps_memo; auto.
Qed.

(** A call answered by the memo: nothing is invoked, re-resolved or
    checked, and the heap stays as it is. *)
Lemma resolve_memo_hit fuel h c key nodePath stack v :
  memoOf h c (String.concat "." key) = Some v -> truthy v = true ->
  resolve (S fuel) h c key nodePath stack = (Returned v, h, []).
Proof.
  unfold memoOf. intros Hmemo Htruthy. rewrite resolve_S. unfold resolveBody.
  destruct (nth_error h c) as [this|]; [|discriminate].
  unfold memoLookup. rewrite Hmemo, Htruthy. reflexivity.
Qed.

(** A call that returns a primitive leaves it in the memo under the
    key's path. *)
Lemma resolve_returns_memo fuel h c key nodePath stack v h' log :
  resolve fuel h c key nodePath stack = (Returned v, h', log) ->
  isPrimitive v = true ->
  memoOf h' c (String.concat "." key) = Some v.
Proof.
  destruct fuel as [|fuel]; [discriminate|].
  rewrite resolve_S. unfold resolveBody, memoOf.
  destruct (nth_error h c) as [this|] eqn:Hthis; [|discriminate].
  destruct (truthy (memoLookup this (String.concat "." key))) eqn:Hhit.
  - intros [= <- <- <-] Hprim. rewrite Hthis. unfold memoLookup in *.
    destruct (JsObject.get (resolvedValues this) (String.concat "." key)) as [w|];
      [reflexivity|].
    destruct (existsb _ objectPrototypeKeys); discriminate.
  - unfold resolveUncached. destruct (existsb _ _); [discriminate|].
    pose proof (walk_P (fun h' => List.length h' = List.length h)
                  (resolve fuel)
                  (fun h0 c0 key0 np0 st0 H0 =>
                     eq_trans (resolve_length fuel h0 c0 key0 np0 st0) H0)
                  (rootContext this) nodePath h
                  [CycleCheck (String.concat "." (nodePath ++ key))]
                  (VContext c) (match stack with Some st => st | None => [] end)
                  [] key eq_refl) as Hlen.
    destruct (walk _ _ _ _ _ _ _ _ _) as [[[value|e|] hw] lw];
      unfold heapOf in Hlen; simpl in Hlen; try discriminate.
    assert (Hc : (c < List.length hw)%nat).
    { rewrite Hlen. apply nth_error_Some. congruence. }
    destruct value; simpl; try discriminate;
      intros [= <- <- <-] _; now apply memoOf_setMemo_eq.
Qed.

(** C10.  Once [resolve] has returned a truthy primitive [v] for a key
    path on an instance, every later call on that instance with that key
    path, after any number of other resolutions and whatever node path and
    stack it is given, returns [v] from the memo, leaves the heap as it is
    and performs no cycle check, callable invocation or template
    resolution.  After a falsy primitive the next call is not answered by
    the memo: it runs the whole resolution again. *)
Theorem resolve_memoised fuel h c key nodePath stack v h' log :
  resolve fuel h c key nodePath stack = (Returned v, h', log) ->
  isPrimitive v = true ->
  (truthy v = true ->
   forall h'', laterHeap h' h'' ->
   forall fuel' nodePath' stack',
     resolve (S fuel') h'' c key nodePath' stack' = (Returned v, h'', []))
  /\ (truthy v = false ->
      forall fuel' nodePath' stack',
      exists this,
        nth_error h' c = Some this
        /\ resolve (S fuel') h' c key nodePath' stack'
           = resolveUncached (resolve fuel') h' c this key nodePath' stack').
Proof.
  intros Hrun Hprim.
  pose proof (resolve_returns_memo _ _ _ _ _ _ _ _ _ Hrun Hprim) as Hmemo.
  split.
  - intros Htruthy h'' Hlater fuel' nodePath' stack'.
    apply resolve_memo_hit; [|assumption].
    eapply laterHeap_keeps_memo; eassumption.
  - intros Hfalsy fuel' nodePath' stack'. unfold memoOf in Hmemo.
    destruct (nth_error h' c) as [this|] eqn:Hthis; [|discriminate].
    exists this. split; [reflexivity|].
    rewrite resolve_S. unfold resolveBody. rewrite Hthis.
    unfold memoLookup. now rewrite Hmemo, Hfalsy.
Qed.

(** On the sample context: [greeting] is answered from the memo the
    second time, also after [environment.name] was resolved in between;
    [blank], whose callable yields the empty string, is computed again
    and its callable invoked again. *)
Lemma resolve_memoised_witness :
  let first := resolve 5 sampleHeap 0 ["greeting"] [] None in
  let between := resolve 5 (heapOf first) 0 ["environment"; "name"] [] None in
  let blank := resolve 5 sampleHeap 0 ["blank"] [] None in
  outcomeOf first = Returned (VString "hello-garden")
  /\ resolve 5 (heapOf between) 0 ["greeting"] ["modules"] (Some ["greeting"])
     = (Returned (VString "hello-garden"), heapOf between, [])
  /\ outcomeOf blank = Returned (VString "")
  /\ effectsOf (resolve 5 (heapOf blank) 0 ["blank"] [] None)
     = [CycleCheck "blank"; Called "blank"; ResolvedTemplate ""].
Proof.
  cbv zeta.
  destruct (resolve 5 sampleHeap 0 ["greeting"] [] None) as [[o1 h1] l1] eqn:E1.
  assert (Ho1 : o1 = Returned (VString "hello-garden"))
    by (apply (f_equal outcomeOf) in E1; vm_compute in E1; congruence).
  subst o1.
  destruct (resolve 5 sampleHeap 0 ["blank"] [] None) as [[o2 h2] l2] eqn:E2.
  assert (Ho2 : o2 = Returned (VString ""))
    by (apply (f_equal outcomeOf) in E2; vm_compute in E2; congruence).
  subst o2.
  destruct (resolve_memoised _ _ _ _ _ _ _ _ _ E1 eq_refl) as [Htruthy _].
  destruct (resolve_memoised _ _ _ _ _ _ _ _ _ E2 eq_refl) as [_ Hfalsy].
  repeat split.
  - apply (Htruthy eq_refl).
    eapply later_call; [apply later_now|reflexivity].
  - destruct (Hfalsy eq_refl 4%nat [] None) as [this [Hthis Heq]].
    unfold heapOf at 1. simpl fst. simpl snd. rewrite Heq.
    apply (f_equal heapOf) in E2. vm_compute in E2. subst h2.
    vm_compute in Hthis. injection Hthis as <-. vm_compute. reflexivity.
Defined.

End ConfigContextFacts.

(* --------------------------------------------------------------------- *)
(** ** Task node maps *)
(* --------------------------------------------------------------------- *)

Module TaskNodeMapFacts.
Import JsObject JsObjectFacts TaskGraphSpec.

Lemma set_new_app {V} (o : JsObject.t V) k v :
  ~ In k (keys o) -> set o k v = (o ++ [(k, v)])%list.
Proof.
  induction o as [|[k' v'] r IH]; simpl; [reflexivity|].
  intros H. destruct (String.eqb_spec k' k) as [->|Hne]; [tauto|].
  f_equal. apply IH. tauto.
Qed.

Lemma delete_filter {V} (o : JsObject.t V) k :
  delete o k = filter (fun e => negb (String.eqb (fst e) k)) o.
Proof.
  induction o as [|[k' v'] r IH]; simpl; [reflexivity|].
  destruct (String.eqb k' k); simpl; [assumption|now f_equal].
Qed.

Lemma delete_notin {V} (o : JsObject.t V) k :
  ~ In k (keys o) -> delete o k = o.
Proof.
  induction o as [|[k' v'] r IH]; simpl; [reflexivity|].
  intros H. destruct (String.eqb_spec k' k) as [->|Hne]; [tauto|].
  f_equal. apply IH. tauto.
Qed.

Lemma length_delete {V} (o : JsObject.t V) k :
  NoDup (keys o) -> In k (keys o) ->
  S (List.length (delete o k)) = List.length o.
Proof.
  induction o as [|[k' v'] r IH]; simpl; [intros _ []|].
  intros Hnd Hin. inversion Hnd as [|? ? Hnotin Hnd']; subst.
  destruct (String.eqb_spec k' k) as [->|Hne].
  - now rewrite delete_notin.
  - simpl. f_equal. apply IH; [assumption|]. destruct Hin; [contradiction|assumption].
Qed.

Lemma keys_delete_incl {V} (o : JsObject.t V) k k' :
  In k' (keys (delete o k)) -> In k' (keys o) /\ k' <> k.
Proof.
  induction o as [|[k0 v0] r IH]; simpl; [intros []|].
  destruct (String.eqb_spec k0 k) as [->|Hne]; simpl.
  - intros H. destruct (IH H). tauto.
  - intros [<-|H]; [tauto|]. destruct (IH H). tauto.
Qed.

Lemma NoDup_keys_delete {V} (o : JsObject.t V) k :
  NoDup (keys o) -> NoDup (keys (delete o k)).
Proof.
  induction o as [|[k0 v0] r IH]; simpl; [constructor|].
  intros Hnd. inversion Hnd as [|? ? Hnotin Hnd']; subst.
  destruct (String.eqb k0 k); simpl; [now apply IH|].
  constructor; [|now apply IH].
  intros H. apply keys_delete_incl in H. tauto.
Qed.

Lemma wfMap_new : wfMap TaskNodeMap.new.
Proof. repeat split; simpl; [constructor|intros ? ? []]. Qed.

Lemma getNodes_length m :
  List.length (TaskNodeMap.getNodes m) = List.length (TaskNodeMap.index m).
Proof. apply length_map. Qed.

Lemma addNode_absent m n :
  TaskNodeMap.getNode m (n_key n) = None ->
  TaskNodeMap.index (TaskNodeMap.addNode m n)
  = (TaskNodeMap.index m ++ [(n_key n, n)])%list
  /\ TaskNodeMap.getNodes (TaskNodeMap.addNode m n)
     = (TaskNodeMap.getNodes m ++ [n])%list
  /\ TaskNodeMap.length (TaskNodeMap.addNode m n) = TaskNodeMap.length m + 1.
Proof.
  unfold TaskNodeMap.getNode, TaskNodeMap.addNode, TaskNodeMap.getNodes.
  intros H. rewrite H. simpl.
  rewrite set_new_app by (now apply get_None_notin).
  unfold values. rewrite map_app. auto.
Qed.

Lemma addNode_present m n x :
  TaskNodeMap.getNode m (n_key n) = Some x -> TaskNodeMap.addNode m n = m.
Proof.
  unfold TaskNodeMap.getNode, TaskNodeMap.addNode. now intros ->.
Qed.

Lemma wfMap_addNode m n : wfMap m -> wfMap (TaskNodeMap.addNode m n).
Proof.
  intros Hwf. destruct (TaskNodeMap.getNode m (n_key n)) as [x|] eqn:E.
  - now rewrite (addNode_present _ _ _ E).
  - destruct (addNode_absent _ _ E) as (Hix & _ & Hlen).
    destruct Hwf as (Hnd & Hkey & Hl). repeat split.
    + rewrite Hix. unfold keys. rewrite map_app. simpl.
      apply NoDup_app; [assumption|repeat constructor; tauto|].
      intros k Hk [<-|[]]. now apply get_None_notin in E.
    + rewrite Hix. intros k x Hin. apply in_app_or in Hin.
      destruct Hin as [Hin|[[= <- <-]|[]]]; [now apply Hkey|reflexivity].
    + rewrite Hlen, Hix, Hl, length_app. simpl. lia.
Qed.

Lemma removeNode_index m n :
  TaskNodeMap.index (TaskNodeMap.removeNode m n)
  = delete (TaskNodeMap.index m) (n_key n).
Proof.
  unfold TaskNodeMap.removeNode.
  destruct (has (TaskNodeMap.index m) (n_key n)) eqn:E; [reflexivity|].
  symmetry. apply delete_notin. intros H. apply has_true_iff in H. congruence.
Qed.

Lemma wfMap_removeNode m n : wfMap m -> wfMap (TaskNodeMap.removeNode m n).
Proof.
  intros (Hnd & Hkey & Hl). repeat split.
  - rewrite removeNode_index. now apply NoDup_keys_delete.
  - rewrite removeNode_index, delete_filter. intros k x Hin.
    apply filter_In in Hin. now apply Hkey.
  - unfold TaskNodeMap.removeNode.
    destruct (has (TaskNodeMap.index m) (n_key n)) eqn:E; [|assumption].
    simpl. apply has_true_iff in E.
    pose proof (length_delete _ _ Hnd E). lia.
Qed.

Lemma removeNode_length m n :
  wfMap m -> TaskNodeMap.length (TaskNodeMap.removeNode m n) <= TaskNodeMap.length m.
Proof.
  intros _. unfold TaskNodeMap.removeNode.
  destruct (has (TaskNodeMap.index m) (n_key n)); simpl; lia.
Qed.

Lemma getNodes_removeNode m n :
  wfMap m ->
  TaskNodeMap.getNodes (TaskNodeMap.removeNode m n)
  = filter (fun x => negb (String.eqb (n_key x) (n_key n))) (TaskNodeMap.getNodes m).
Proof.
  intros (_ & Hkey & _). unfold TaskNodeMap.getNodes, values.
  rewrite removeNode_index, delete_filter.
  induction (TaskNodeMap.index m) as [|[k x] r IH]; simpl; [reflexivity|].
  assert (Hk : n_key x = k) by (apply Hkey; now left).
  simpl in *. rewrite Hk. destruct (String.eqb k (n_key n)); simpl.
  - apply IH. intros; apply Hkey; now right.
  - f_equal. apply IH. intros; apply Hkey; now right.
Qed.

Lemma wfMap_setNodes m nodes : wfMap m -> wfMap (TaskNodeMap.setNodes m nodes).
Proof.
  unfold TaskNodeMap.setNodes. revert m.
  induction nodes as [|n r IH]; simpl; intros m Hm; [assumption|].
  apply IH. now apply wfMap_addNode.
Qed.

Lemma getNode_In m k n :
  TaskNodeMap.getNode m k = Some n -> In n (TaskNodeMap.getNodes m).
Proof.
  unfold TaskNodeMap.getNode, TaskNodeMap.getNodes, values. intros H.
  apply get_In in H. change n with (snd (k, n)). now apply in_map.
Qed.

Lemma In_getNodes_getNode m n :
  wfMap m -> In n (TaskNodeMap.getNodes m) ->
  TaskNodeMap.getNode m (n_key n) = Some n.
Proof.
  intros (Hnd & Hkey & _). unfold TaskNodeMap.getNodes, TaskNodeMap.getNode, values.
  intros Hin. apply in_map_iff in Hin. destruct Hin as [[k x] [Hx Hin]].
  simpl in Hx. subst x. rewrite <- (Hkey _ _ Hin) in Hin. now apply In_get.
Qed.

Lemma contains_In m n :
  wfMap m -> In n (TaskNodeMap.getNodes m) -> TaskNodeMap.contains m n = true.
Proof.
  intros Hwf Hin. unfold TaskNodeMap.contains, has.
  pose proof (In_getNodes_getNode _ _ Hwf Hin) as H.
  unfold TaskNodeMap.getNode in H. now rewrite H.
Qed.

End TaskNodeMapFacts.

(* --------------------------------------------------------------------- *)
(** ** The task graph: concurrency ceilings *)
(* --------------------------------------------------------------------- *)

Module CeilingFacts.
Import JsObjectFacts TaskNodeMapFacts TaskGraph TaskGraphSpec.

Lemma countType_app ty l l' :
  countType ty (l ++ l') = (countType ty l + countType ty l')%nat.
Proof. unfold countType. now rewrite filter_app, length_app. Qed.

Lemma typeOrdered_nil : typeOrdered [].
Proof. intros [|? ?] n l2 k H; discriminate. Qed.

Lemma typeOrdered_prefix l l' : typeOrdered (l ++ l') -> typeOrdered l.
Proof.
  intros H l1 n l2 k -> Hp Hk.
  apply (H l1 n (l2 ++ l')%list k); auto.
  now rewrite <- app_assoc.
Qed.

Lemma typeOrdered_snoc l x :
  typeOrdered l ->
  (sameTypeParent x = false ->
   forall k, typeLimit x = Some k -> Z.of_nat (countType (n_type x) l) < k) ->
  typeOrdered (l ++ [x]).
Proof.
  intros Hl Hx l1 n l2 k Heq Hp Hk.
  induction l2 as [|y l2' _] using rev_ind.
  - apply app_inj_tail in Heq. destruct Heq as [<- <-].
    rewrite countType_app. unfold countType at 2. simpl.
    rewrite String.eqb_refl. simpl. specialize (Hx Hp k Hk). lia.
  - rewrite app_comm_cons, app_assoc in Heq.
    apply app_inj_tail in Heq. destruct Heq as [-> _].
    apply (Hl l1 n l2' k); auto.
Qed.

Lemma filter_split {A} (p : A -> bool) (l : list A) l1 x l2 :
  filter p l = (l1 ++ x :: l2)%list ->
  exists m1 m2, l = (m1 ++ x :: m2)%list /\ l1 = filter p m1 /\ l2 = filter p m2.
Proof.
  revert l1. induction l as [|y r IH]; simpl; intros l1 Heq.
  - destruct l1; discriminate.
  - destruct (p y) eqn:Hy.
    + destruct l1 as [|z l1'].
      * injection Heq as <- Hr. exists [], r. auto.
      * injection Heq as <- Hr. destruct (IH _ Hr) as (m1 & m2 & -> & -> & ->).
        exists (y :: m1), m2. simpl. rewrite Hy. auto.
    + destruct (IH _ Heq) as (m1 & m2 & -> & -> & ->).
      exists (y :: m1), m2. simpl. rewrite Hy. auto.
Qed.

Lemma countType_filter_le ty p l :
  (countType ty (filter p l) <= countType ty l)%nat.
Proof.
  unfold countType. induction l as [|y r IH]; simpl; [lia|].
  destruct (p y); simpl; destruct (String.eqb (n_type y) ty); simpl; lia.
Qed.

Lemma typeOrdered_filter p l : typeOrdered l -> typeOrdered (filter p l).
Proof.
  intros Hl l1 n l2 k Heq Hp Hk.
  destruct (filter_split _ _ _ _ _ Heq) as (m1 & m2 & -> & -> & ->).
  specialize (Hl m1 n m2 k eq_refl Hp Hk).
  rewrite countType_app in *.
  pose proof (countType_filter_le (n_type n) p m1). lia.
Qed.

Lemma ceilingInv_new limit : 0 <= limit -> ceilingInv limit TaskNodeMap.new.
Proof.
  intros H. split; [apply wfMap_new|]. split; [exact H|apply typeOrdered_nil].
Qed.

Lemma ceilingInv_removeNode limit m n :
  ceilingInv limit m -> ceilingInv limit (TaskNodeMap.removeNode m n).
Proof.
  intros (Hwf & Hlen & Hty). split; [now apply wfMap_removeNode|]. split.
  - pose proof (removeNode_length m n Hwf). lia.
  - rewrite getNodes_removeNode by assumption. now apply typeOrdered_filter.
Qed.

Lemma ceilingInv_scanRoots limit nodes m batch :
  ceilingInv limit m -> ceilingInv limit (fst (scanRoots limit nodes m batch)).
Proof.
  revert m batch. induction nodes as [|x rest IH]; intros m batch Hm; [assumption|].
  cbn [scanRoots].
  destruct (limit <=? TaskNodeMap.length m) eqn:Hfull; [assumption|].
  destruct (TaskNodeMap.contains m x) eqn:Hcontains; [now apply IH|].
  match goal with |- context [if ?c then _ else _] => destruct c eqn:Hthrottled end;
    [now apply IH|].
  apply IH. destruct Hm as (Hwf & Hlen & Hty).
  assert (Habsent : TaskNodeMap.getNode m (n_key x) = None).
  { unfold TaskNodeMap.contains, JsObject.has in Hcontains.
    unfold TaskNodeMap.getNode.
    destruct (JsObject.get (TaskNodeMap.index m) (n_key x)); [discriminate|reflexivity]. }
  destruct (addNode_absent _ _ Habsent) as (_ & Hnodes & Hlength).
  split; [now apply wfMap_addNode|]. split.
  - rewrite Hlength. apply Z.leb_gt in Hfull. lia.
  - rewrite Hnodes. apply typeOrdered_snoc; [assumption|].
    intros Hp k Hk. rewrite Hk, Hp in Hthrottled.
    apply Z.leb_gt in Hthrottled. exact Hthrottled.
Qed.

(** What the ordered invariant gives for a type whose throttled nodes
    all carry the limit [k]. *)
Lemma typeOrdered_bound l ty k :
  typeOrdered l -> 0 < k ->
  (forall n, In n l -> n_type n = ty -> sameTypeParent n = false ->
             t_concurrencyLimit (n_task n) = Some k) ->
  Z.of_nat (List.length
              (filter (fun n => String.eqb (n_type n) ty && negb (sameTypeParent n)) l))
  <= k.
Proof.
  intros Hl Hk. induction l as [|x l' IH] using rev_ind; intros Hall; [simpl; lia|].
  rewrite filter_app. simpl.
  destruct (String.eqb_spec (n_type x) ty) as [Hty|Hty]; simpl.
  - destruct (sameTypeParent x) eqn:Hp; simpl.
    + rewrite app_nil_r. apply IH; [now apply typeOrdered_prefix in Hl|].
      intros n Hn. apply Hall. apply in_or_app. now left.
    + assert (Hlim : typeLimit x = Some k).
      { unfold typeLimit. rewrite (Hall x); auto.
        - destruct (Z.eqb_spec k 0); [lia|reflexivity].
        - apply in_or_app. right. now left. }
      specialize (Hl l' x [] k eq_refl Hp Hlim).
      rewrite countType_app in Hl. rewrite length_app. simpl.
      unfold countType in Hl. simpl in Hl. rewrite Hty, String.eqb_refl in Hl.
      simpl in Hl.
      assert (Hle : (List.length
                       (filter (fun n => String.eqb (n_type n) ty
                                         && negb (sameTypeParent n)) l')
                     <= List.length
                          (filter (fun n => String.eqb (n_type n) ty) l'))%nat).
      { clear. induction l' as [|y r IH]; simpl; [lia|].
        destruct (String.eqb (n_type y) ty); simpl; [|assumption].
        destruct (sameTypeParent y); simpl; lia. }
      lia.
  - rewrite app_nil_r. apply IH; [now apply typeOrdered_prefix in Hl|].
    intros n Hn. apply Hall. apply in_or_app. now left.
Qed.

(** *** Folds *)

Lemma fold_left_inv {A S} (Q : S -> Prop) (f : S -> A -> S) l s :
  (forall s a, Q s -> Q (f s a)) -> Q s -> Q (fold_left f l s).
Proof.
  intros Hf. revert s. induction l as [|a r IH]; simpl; intros s Hs; [assumption|].
  apply IH. now apply Hf.
Qed.

Lemma fold_left_opt_inv {A S} (Q : S -> Prop) (g : S -> A -> option S) l s s' :
  (forall s a s', Q s -> g s a = Some s' -> Q s') ->
  Q s ->
  fold_left (fun acc a => match acc with Some s => g s a | None => None end)
            l (Some s) = Some s' ->
  Q s'.
Proof.
  intros Hg. revert s. induction l as [|a r IH]; simpl; intros s Hs.
  - intros [= <-]. assumption.
  - destruct (g s a) as [s1|] eqn:E.
    + apply IH. eapply Hg; eassumption.
    + intros H. exfalso. revert H. clear.
      induction r as [|? ? IH]; simpl; [discriminate|exact IH].
Qed.

(** *** Operations that leave the in-progress map alone *)

Lemma sameProgress_refl st : sameProgress st st.
Proof. now split. Qed.

Lemma sameProgress_trans st1 st2 st3 :
  sameProgress st1 st2 -> sameProgress st2 st3 -> sameProgress st1 st3.
Proof. intros [H1 H2] [H3 H4]. split; congruence. Qed.

Lemma sameProgress_writeDeps st n m : sameProgress st (writeDeps st n m).
Proof. now split. Qed.

Lemma sameProgress_rebuild st : sameProgress st (rebuild st).
Proof.
  unfold rebuild.
  match goal with |- sameProgress _ (set_roots ?s _) =>
    apply sameProgress_trans with (st2 := s); [|now split] end.
  apply (fold_left_inv (sameProgress st)); [|apply sameProgress_refl].
  intros s a Hs. eapply sameProgress_trans; [exact Hs|apply sameProgress_writeDeps].
Qed.

Lemma sameProgress_getNode st task :
  sameProgress st (snd (getNode st task)).
Proof.
  unfold getNode. destruct (List.rev _); [|apply sameProgress_refl].
  destruct (_ && _); simpl; now split.
Qed.

Lemma sameProgress_addTaskNode st task :
  sameProgress st (snd (addTaskNode st task)).
Proof.
  unfold addTaskNode. pose proof (sameProgress_getNode st task) as H.
  destruct (getNode st task) as [[node|] st']; simpl in *; [|assumption].
  eapply sameProgress_trans; [exact H|now split].
Qed.

Lemma sameProgress_addNodeWithDependencies fuel :
  forall st task st',
    addNodeWithDependencies fuel st task = Some st' -> sameProgress st st'.
Proof.
  induction fuel as [|fuel IH]; intros st task st'; [discriminate|].
  cbn [addNodeWithDependencies].
  pose proof (sameProgress_addTaskNode st task) as H1.
  destruct (addTaskNode st task) as [[node|] st1]; simpl in H1.
  - intros H. eapply (fold_left_opt_inv (sameProgress st)); [| |exact H].
    + intros s a s' Hs Hadd. eapply sameProgress_trans; [exact Hs|].
      eapply IH; eassumption.
    + eapply sameProgress_trans; [exact H1|now split].
  - intros [= <-]. assumption.
Qed.

Lemma sameProgress_addTaskInternal fuel st task st' :
  addTaskInternal fuel st task = Some st' -> sameProgress st st'.
Proof.
  unfold addTaskInternal.
  destruct (addNodeWithDependencies fuel _ task) as [st2|] eqn:E; [|discriminate].
  intros [= <-]. apply sameProgress_addNodeWithDependencies in E.
  eapply sameProgress_trans; [|apply sameProgress_rebuild].
  eapply sameProgress_trans; [|exact E]. now split.
Qed.

Lemma sameProgress_removeDependency st n d : sameProgress st (removeDependency st n d).
Proof. now split. Qed.

Lemma sameProgress_inherit st p n : sameProgress st (inherit st p n).
Proof.
  unfold inherit.
  eapply sameProgress_trans; [|apply sameProgress_writeDeps].
  apply (fold_left_inv (sameProgress st)); [|apply sameProgress_refl].
  intros s a Hs. destruct (TaskNodeMap.contains _ _); [|assumption].
  eapply sameProgress_trans; [exact Hs|apply sameProgress_writeDeps].
Qed.

Lemma sameProgress_processTask st n : sameProgress st (processTask st n).
Proof. now split. Qed.

(** *** The ceiling invariant *)

Lemma ceiling_same limit st st' :
  sameProgress st st' -> ceiling limit st -> ceiling limit st'.
Proof. unfold ceiling. intros [-> ->]. tauto. Qed.

Lemma ceiling_new limit now0 : 0 <= limit -> ceiling limit (new limit now0).
Proof. intros H. split; [reflexivity|now apply ceilingInv_new]. Qed.

Lemma ceiling_remove limit st n : ceiling limit st -> ceiling limit (remove st n).
Proof.
  unfold ceiling, remove. simpl. intros [Hl Hinv].
  split; [assumption|now apply ceilingInv_removeNode].
Qed.

Lemma ceiling_loop limit st : ceiling limit st -> ceiling limit (loop st).
Proof.
  intros Hst. unfold loop.
  destruct (TaskNodeMap.length (index st) =? 0); [now apply (ceiling_same limit st)|].
  set (st2 := rebuild (emit st (TaskGraphProcessing (now st)))).
  assert (H2 : ceiling limit st2).
  { apply (ceiling_same limit st); [|assumption].
    eapply sameProgress_trans; [|apply sameProgress_rebuild]. now split. }
  destruct H2 as [Hlimit H2]. rewrite Hlimit.
  pose proof (ceilingInv_scanRoots limit
                (TaskNodeMap.getNodes (roots st2)) (inProgress st2) [] H2) as Hscan.
  destruct (scanRoots _ _ _ _) as [inProgress' [batch|]]; simpl in Hscan.
  - apply (fold_left_inv (ceiling limit)).
    + intros s a. apply ceiling_same, sameProgress_processTask.
    + split; assumption.
  - split; assumption.
Qed.

Lemma ceiling_cancelDependants limit fuel st n st' :
  cancelDependants fuel st n = Some st' -> ceiling limit st -> ceiling limit st'.
Proof.
  unfold cancelDependants. destruct (getDependants fuel st n) as [ds|]; [|discriminate].
  intros [= <-] Hst. apply (ceiling_same _ _ _ (sameProgress_rebuild _)).
  apply (fold_left_inv (ceiling limit)); [|assumption].
  intros s a. apply ceiling_remove.
Qed.

Lemma ceiling_settleFinally limit st n r :
  ceiling limit st -> ceiling limit (settleFinally st n r).
Proof.
  intros Hst. unfold settleFinally, completeTask.
  destruct (_ <? _)%nat; simpl.
  - now apply (ceiling_same limit st).
  - apply ceiling_loop, ceiling_remove. now apply (ceiling_same limit st).
Qed.

Lemma ceiling_settle limit fuel st rn s st' :
  settle fuel st rn s = Some st' -> ceiling limit st -> ceiling limit st'.
Proof.
  unfold settle. destruct s as [output|error].
  - intros [= <-] Hst. apply ceiling_settleFinally. now apply (ceiling_same limit st).
  - destruct (cancelDependants fuel st (rn_node rn)) as [st1|] eqn:E; [|discriminate].
    intros [= <-] Hst. apply ceiling_settleFinally.
    apply (ceiling_same limit st1); [now split|].
    eapply ceiling_cancelDependants; eassumption.
Qed.

Lemma addNode_S fuel st node :
  addNode (S fuel) st node =
  match TaskNodeMap.getNode (index st) (n_key node) with
  | Some _ => Some st
  | None =>
      match getPredecessor st node with
      | Some predecessor =>
          if TaskNodeMap.contains (inProgress st) predecessor
          then Some (inherit (set_index st (TaskNodeMap.addNode (index st) node))
                             predecessor node)
          else addNodeContinue (addNode fuel) st predecessor
      | None => addNodeContinue (addNode fuel) st node
      end
  end.
Proof. reflexivity. Qed.

Section AddNodeInvariant.

(** A state property kept by everything [addNode] does. *)
Variable Q : t -> Prop.
Hypothesis Q_emit_cached :
  forall st key r,
    Q st -> ResultCache.get (resultCache st) key = Some r ->
    Q (emit st (TaskComplete r)).
Hypothesis Q_addIndex :
  forall st n, Q st -> Q (set_index st (TaskNodeMap.addNode (index st) n)).
Hypothesis Q_roots : forall st m, Q st -> Q (set_roots st m).
Hypothesis Q_depStore : forall st d, Q st -> Q (set_depStore st d).
Hypothesis Q_loop : forall st, Q st -> Q (loop st).

Lemma addNodeContinue_inv rec st node st' :
  (forall s d s', Q s -> rec s d = Some s' -> Q s') ->
  addNodeContinue rec st node = Some st' -> Q st -> Q st'.
Proof.
  intros Hrec. unfold addNodeContinue.
  destruct (if t_force (n_task node) then None else _) as [r|] eqn:Ecache.
  - intros [= <-] Hst. destruct (t_force (n_task node)); [discriminate|].
    eapply Q_emit_cached; eassumption.
  - clear Ecache. cbv zeta.
    match goal with |- match ?f with _ => _ end = _ -> _ =>
      destruct f as [s|] eqn:Efold end; [|discriminate].
    intros [= <-] Hst. apply Q_loop.
    assert (Hs : Q s).
    { eapply (fold_left_opt_inv Q
               (fun s0 d =>
                  match
                    (if t_force (n_task match getPredecessor s0 d with
                                        | Some p => p
                                        | None => d
                                        end)
                     then None
                     else ResultCache.get (resultCache s0)
                            (n_key match getPredecessor s0 d with
                                   | Some p => p
                                   | None => d
                                   end))
                  with
                  | Some _ => Some (removeDependency s0 node d)
                  | None => rec s0 match getPredecessor s0 d with
                                   | Some p => p
                                   | None => d
                                   end
                  end)); [| |exact Efold].
      - intros s0 d s0' Hs0.
        destruct (if t_force _ then None else _).
        + intros [= <-]. apply Q_depStore. exact Hs0.
        + intros Hadd. eapply Hrec; eassumption.
      - now apply Q_addIndex. }
    destruct (Nat.eqb _ 0); [now apply Q_roots|assumption].
Qed.

Lemma inherit_inv st p n : Q st -> Q (inherit st p n).
Proof.
  intros Hst. unfold inherit, writeDeps. apply Q_depStore.
  apply (fold_left_inv Q); [|assumption].
  intros s a Hs. destruct (TaskNodeMap.contains _ _); [|assumption].
  now apply Q_depStore.
Qed.

Lemma addNode_inv fuel :
  forall st n st', addNode fuel st n = Some st' -> Q st -> Q st'.
Proof.
  induction fuel as [|fuel IH]; intros st n st'; [discriminate|].
  rewrite addNode_S.
  destruct (TaskNodeMap.getNode (index st) (n_key n)); [now intros [= <-]|].
  destruct (getPredecessor st n) as [p|].
  - destruct (TaskNodeMap.contains (inProgress st) p).
    + intros [= <-] Hst. apply inherit_inv. now apply Q_addIndex.
    + apply addNodeContinue_inv. intros s d s' Hs Hadd. eapply IH; eassumption.
  - apply addNodeContinue_inv. intros s d s' Hs Hadd. eapply IH; eassumption.
Qed.

Hypothesis Q_newTaskNode :
  forall st task parent, Q st -> Q (snd (newTaskNode st task parent)).

Lemma process_inv fuel st tasks parent st' :
  process fuel st tasks parent = Some st' -> Q st -> Q st'.
Proof.
  unfold process.
  destruct (fold_left _ tasks (JsObject.empty, st)) as [nodes st1] eqn:Enodes.
  intros Hfold Hst.
  assert (H1 : Q st1).
  { change st1 with (snd (nodes, st1)). rewrite <- Enodes.
    apply (fold_left_inv (fun acc => Q (snd acc))); [|assumption].
    intros [ns s] task Hs. simpl in *.
    apply (Q_newTaskNode s task parent Hs). }
  eapply (fold_left_opt_inv Q); [| |exact Hfold]; [|assumption].
  intros s a s' Hs Hadd. eapply addNode_inv; eassumption.
Qed.

(** The same for the path through [addTaskInternal]. *)
Hypothesis Q_taskDependencyCache :
  forall st c, Q st -> Q (set_taskDependencyCache st c).
Hypothesis Q_pending :
  forall st key version, Q st -> Q (emit st (TaskPending (now st) key version)).

Lemma rebuild_inv st : Q st -> Q (rebuild st).
Proof.
  intros Hst. unfold rebuild. apply Q_roots.
  apply (fold_left_inv Q); [|assumption].
  intros s a Hs. unfold writeDeps. now apply Q_depStore.
Qed.

Lemma addTaskNode_inv st task : Q st -> Q (snd (addTaskNode st task)).
Proof.
  intros Hst. unfold addTaskNode, getNode.
  destruct (List.rev _) as [|e r]; simpl.
  - destruct (_ && _); simpl; [assumption|].
    apply (Q_addIndex (snd (newTaskNode st task None))
                      (fst (newTaskNode st task None))).
    now apply Q_newTaskNode.
  - now apply Q_addIndex.
Qed.

Lemma addNodeWithDependencies_inv fuel :
  forall st task st',
    addNodeWithDependencies fuel st task = Some st' -> Q st -> Q st'.
Proof.
  induction fuel as [|fuel IH]; intros st task st'; [discriminate|].
  cbn [addNodeWithDependencies].
  pose proof (addTaskNode_inv st task) as H1.
  destruct (addTaskNode st task) as [[node|] st1]; simpl in H1.
  - intros H Hst. eapply (fold_left_opt_inv Q); [| |exact H].
    + intros s a s' Hs Hadd. eapply IH; eassumption.
    + apply Q_taskDependencyCache. now apply H1.
  - intros [= <-]. exact H1.
Qed.

Lemma addTaskInternal_inv fuel st task st' :
  addTaskInternal fuel st task = Some st' -> Q st -> Q st'.
Proof.
  unfold addTaskInternal.
  destruct (addNodeWithDependencies fuel _ task) as [st2|] eqn:E; [|discriminate].
  intros [= <-] Hst. apply rebuild_inv.
  eapply addNodeWithDependencies_inv; [exact E|]. now apply Q_pending.
Qed.

End AddNodeInvariant.

Lemma ceiling_process limit fuel st tasks parent st' :
  process fuel st tasks parent = Some st' -> ceiling limit st -> ceiling limit st'.
Proof.
  apply (process_inv (ceiling limit)).
  - intros s key r Hs _. revert Hs. apply ceiling_same. now split.
  - intros s m. apply ceiling_same. now split.
  - intros s m. apply ceiling_same. now split.
  - intros s d. apply ceiling_same. now split.
  - apply ceiling_loop.
  - intros s task parent0. apply ceiling_same. now split.
Qed.

Lemma ceiling_step limit fuel st s st' :
  step fuel st s = Some st' -> ceiling limit st -> ceiling limit st'.
Proof.
  destruct s as [tasks parent|task|i s|elapsed]; simpl.
  - apply ceiling_process.
  - intros H. apply ceiling_same. eapply sameProgress_addTaskInternal; eassumption.
  - destruct (nth_error (running st) i) as [rn|]; [|discriminate].
    intros H Hst. eapply ceiling_settle; [exact H|]. now apply (ceiling_same limit st).
  - destruct (0 <=? elapsed); [|discriminate]. intros [= <-].
    now apply ceiling_same.
Qed.

Lemma ceiling_reachable limit now0 st :
  0 <= limit -> reachable limit now0 st -> ceiling limit st.
Proof.
  intros Hlimit. induction 1 as [|st fuel s st' Hreach IH Hstep].
  - now apply ceiling_new.
  - eapply ceiling_step; eassumption.
Qed.

Lemma run_reachable limit now0 fuel steps :
  forall st st',
    reachable limit now0 st -> run fuel st steps = Some st' ->
    reachable limit now0 st'.
Proof.
  induction steps as [|s rest IH]; simpl; intros st st' Hst.
  - now intros [= <-].
  - destruct (step fuel st s) as [st1|] eqn:E; [|discriminate].
    apply IH. eapply reachable_step; eassumption.
Qed.

Lemma stateAfter_reachable steps st :
  run 10 (new DEFAULT_MAX_CONCURRENCY 0) steps = Some st ->
  reachable DEFAULT_MAX_CONCURRENCY 0 st.
Proof. apply run_reachable. apply reachable_new. Qed.

(** C5.  In every state a task graph can reach, the number of tasks in
    progress is at most the global concurrency limit, and for every task
    type whose tasks carry the per-type limit [k], the tasks of that type
    in progress that were not enqueued by a parent of the same type number
    at most [k]. *)
Theorem concurrency_ceiling limit now0 st :
  0 <= limit ->
  reachable limit now0 st ->
  Z.of_nat (List.length (TaskNodeMap.getNodes (inProgress st))) <= limit
  /\ forall ty k,
      0 < k ->
      (forall n, In n (TaskNodeMap.getNodes (inProgress st)) ->
                 n_type n = ty -> sameTypeParent n = false ->
                 t_concurrencyLimit (n_task n) = Some k) ->
      Z.of_nat
        (List.length
           (filter (fun n => String.eqb (n_type n) ty && negb (sameTypeParent n))
                   (TaskNodeMap.getNodes (inProgress st))))
      <= k.
Proof.
  intros Hlimit Hreach.
  destruct (ceiling_reachable _ _ _ Hlimit Hreach) as (_ & Hwf & Hlen & Hty).
  split.
  - destruct Hwf as (_ & _ & Hl). rewrite getNodes_length. lia.
  - intros ty k Hk Hall. now apply typeOrdered_bound.
Qed.

(** Three ["build"] tasks, limited to two at a time, are processed
    together under the default global limit: two of them are in
    progress. *)
Lemma concurrency_ceiling_witness :
  let st := stateAfter stepsBuilds in
  0 <= DEFAULT_MAX_CONCURRENCY
  /\ reachable DEFAULT_MAX_CONCURRENCY 0 st
  /\ map n_key (TaskNodeMap.getNodes (index st))
     = ["build.m1.m1"; "build.m2.m2"; "build.m3.m3"]
  /\ map n_key (TaskNodeMap.getNodes (inProgress st))
     = ["build.m1.m1"; "build.m2.m2"]
  /\ Z.of_nat (List.length (TaskNodeMap.getNodes (inProgress st)))
     <= DEFAULT_MAX_CONCURRENCY
  /\ Z.of_nat
       (List.length
          (filter (fun n => String.eqb (n_type n) "build" && negb (sameTypeParent n))
                  (TaskNodeMap.getNodes (inProgress st))))
     <= 2.
Proof.
  cbv zeta.
  set (st := stateAfter stepsBuilds).
  assert (Hlimit : 0 <= DEFAULT_MAX_CONCURRENCY) by (vm_compute; discriminate).
  assert (Hreach : reachable DEFAULT_MAX_CONCURRENCY 0 st)
    by (apply (stateAfter_reachable stepsBuilds); vm_compute; reflexivity).
  assert (Hnodes : TaskNodeMap.getNodes (inProgress st)
                   = [mkTaskNode 0 (buildTask "m1") None;
                      mkTaskNode 1 (buildTask "m2") None])
    by (vm_compute; reflexivity).
  destruct (concurrency_ceiling DEFAULT_MAX_CONCURRENCY 0 st Hlimit Hreach)
    as [Hglobal Htype].
  split; [exact Hlimit|]. split; [exact Hreach|].
  split; [vm_compute; reflexivity|]. split; [vm_compute; reflexivity|].
  split; [exact Hglobal|].
  apply (Htype "build" 2); [lia|].
  intros n Hn _ _. rewrite Hnodes in Hn.
  destruct Hn as [<-|[<-|[]]]; reflexivity.
Defined.

End CeilingFacts.

(* --------------------------------------------------------------------- *)
(** ** The result cache *)
(* --------------------------------------------------------------------- *)

Module ResultCacheFacts.
Import JsObject JsObjectFacts TaskNodeMapFacts ResultCacheSpec.

Lemma In_set_weak {V} (o : JsObject.t V) k v e :
  In e (set o k v) -> e = (k, v) \/ In e o.
Proof.
  induction o as [|[k0 v0] r IH]; simpl.
  - intros [<-|[]]. now left.
  - destruct (String.eqb k0 k); simpl.
    + intros [<-|H]; [now left|right; now right].
    + intros [<-|H]; [right; now left|].
      destruct (IH H); [now left|right; now right].
Qed.

Lemma In_fold_delete (rs : list TaskResult) (o : JsObject.t TaskResult) e :
  In e (fold_left (fun o r => delete o (r_key r)) rs o) -> In e o.
Proof.
  revert o. induction rs as [|r rs IH]; simpl; intros o H; [assumption|].
  apply IH in H. rewrite delete_filter in H. now apply filter_In in H.
Qed.

(** [put] only adds the result it is given. *)
Lemma put_values c x r :
  In r (values (ResultCache.cache (ResultCache.put c x))) ->
  r = x \/ In r (values (ResultCache.cache c)).
Proof.
  unfold values. intros H. apply in_map_iff in H. destruct H as [[k r'] [Hr Hin]].
  simpl in Hr. subst r'.
  assert (Hset : In (k, r) (set (ResultCache.cache c) (r_key x) x)).
  { unfold ResultCache.put in Hin.
    destruct (MAX_CACHE_SIZE <=? _); [|exact Hin].
    unfold ResultCache.cleanup in Hin. simpl in Hin.
    now apply In_fold_delete in Hin. }
  apply In_set_weak in Hset. destruct Hset as [[= _ ->]|Hin']; [now left|].
  right. apply in_map_iff. now exists (k, r).
Qed.

(** What [get] returns is held in the cache under the key asked for and
    carries no error. *)
Lemma get_Some c key r :
  ResultCache.get c key = Some r ->
  In r (values (ResultCache.cache c)) /\ r_key r = key /\ r_error r = None.
Proof.
  unfold ResultCache.get.
  destruct (JsObject.get (ResultCache.cache c) key) as [r0|] eqn:E; [|discriminate].
  destruct (String.eqb_spec (r_key r0) key) as [Hk|]; [|discriminate].
  destruct (r_error r0) eqn:Herr; [discriminate|].
  intros [= <-]. split; [|now split].
  apply get_In in E. unfold values. apply in_map_iff. now exists (key, r0).
Qed.

(** *** What [cleanup] keeps *)

Section Sorting.
Context {A : Type} (f : A -> Z).

Lemma insert_by_perm x l : Permutation (insert_by f x l) (x :: l).
Proof.
  induction l as [|y r IH]; simpl; [apply Permutation_refl|].
  destruct (f x <=? f y); [apply Permutation_refl|].
  eapply perm_trans; [apply perm_skip, IH|apply perm_swap].
Qed.

Lemma sortBy_perm l : Permutation (sortBy f l) l.
Proof.
  induction l as [|x r IH]; simpl; [apply perm_nil|].
  eapply perm_trans; [apply insert_by_perm|now apply perm_skip].
Qed.

Lemma insert_by_sorted x l :
  StronglySorted (fun a b => f a <= f b) l ->
  StronglySorted (fun a b => f a <= f b) (insert_by f x l).
Proof.
  induction l as [|y r IH]; simpl; intros Hs.
  - constructor; [constructor|constructor].
  - inversion Hs as [|? ? Hr Hall]; subst.
    destruct (Z.leb_spec (f x) (f y)) as [Hle|Hgt].
    + constructor; [assumption|]. constructor; [assumption|].
      eapply Forall_impl; [|exact Hall]. intros a Ha. simpl in Ha. lia.
    + constructor; [now apply IH|].
      eapply Permutation_Forall; [apply Permutation_sym, insert_by_perm|].
      constructor; [lia|assumption].
Qed.

Lemma sortBy_sorted l : StronglySorted (fun a b => f a <= f b) (sortBy f l).
Proof.
  induction l as [|x r IH]; simpl; [constructor|now apply insert_by_sorted].
Qed.

Lemma sorted_app l1 l2 :
  StronglySorted (fun a b => f a <= f b) (l1 ++ l2) ->
  forall a b, In a l1 -> In b l2 -> f a <= f b.
Proof.
  induction l1 as [|x r IH]; simpl; intros Hs a b Ha Hb; [destruct Ha|].
  inversion Hs as [|? ? Hr Hall]; subst. destruct Ha as [<-|Ha].
  - rewrite Forall_forall in Hall. apply Hall, in_or_app. now right.
  - now apply IH.
Qed.

End Sorting.

Lemma NoDup_app_disjoint {A} (l1 l2 : list A) :
  NoDup (l1 ++ l2) -> forall a, In a l1 -> ~ In a l2.
Proof.
  induction l1 as [|x r IH]; simpl; intros H a Ha Hb; [destruct Ha|].
  inversion H as [|? ? Hnotin Hnd]; subst. destruct Ha as [<-|Ha].
  - apply Hnotin, in_or_app. now right.
  - exact (IH Hnd a Ha Hb).
Qed.

Lemma In_fold_delete_iff (rs : list TaskResult) :
  forall (o : JsObject.t TaskResult) e,
    In e (fold_left (fun o r => delete o (r_key r)) rs o)
    <-> In e o /\ ~ In (fst e) (map r_key rs).
Proof.
  induction rs as [|r rs IH]; simpl; intros o e; [tauto|].
  rewrite IH, delete_filter, filter_In.
  destruct (String.eqb_spec (fst e) (r_key r)) as [Heq|Hne]; simpl.
  - split; [intros [[_ H] _]; discriminate|]. intros [_ H]. exfalso. apply H. now left.
  - split.
    + intros [[Hin _] Hnot]. split; [assumption|]. intros [H|H]; [congruence|tauto].
    + intros [Hin Hnot]. split; [now split|tauto].
Qed.

Lemma NoDup_keys_fold_delete (rs : list TaskResult) :
  forall o : JsObject.t TaskResult,
    NoDup (keys o) -> NoDup (keys (fold_left (fun o r => delete o (r_key r)) rs o)).
Proof.
  induction rs as [|r rs IH]; simpl; intros o H; [assumption|].
  apply IH. now apply NoDup_keys_delete.
Qed.

Lemma wfCache_values_NoDup c : wfCache c -> NoDup (values (ResultCache.cache c)).
Proof.
  intros [Hnd Hkey]. unfold values, keys in *.
  induction (ResultCache.cache c) as [|[k r] o IH]; simpl in *; [constructor|].
  inversion Hnd as [|? ? Hnotin Hnd']; subst. constructor.
  - intros Hin. apply in_map_iff in Hin. destruct Hin as [[k' r'] [Heq Hin]].
    simpl in Heq. subst r'. apply Hnotin.
    assert (k' = k).
    { rewrite <- (Hkey k' r (or_intror Hin)). apply Hkey. now left. }
    subst k'. change k with (fst (k, r)). now apply in_map.
  - apply IH; [assumption|]. intros k' r' Hin. apply Hkey. now right.
Qed.

Lemma wfCache_new : wfCache ResultCache.new.
Proof. split; [constructor|intros ? ? []]. Qed.

Lemma wfCache_cleanup c : wfCache c -> wfCache (ResultCache.cleanup c).
Proof.
  intros [Hnd Hkey]. split; simpl.
  - now apply NoDup_keys_fold_delete.
  - intros k r Hin. apply In_fold_delete_iff in Hin. apply Hkey. tauto.
Qed.

Lemma wfCache_put c r : wfCache c -> wfCache (ResultCache.put c r).
Proof.
  intros [Hnd Hkey].
  assert (Hset : wfCache (ResultCache.mk (set (ResultCache.cache c) (r_key r) r)
                                         (ResultCache.length c + 1))).
  { split; simpl; [now apply NoDup_keys_set|].
    intros k x Hin. apply In_set in Hin; [|assumption].
    destruct Hin as [[-> ->]|[_ Hin]]; [reflexivity|now apply Hkey]. }
  unfold ResultCache.put. cbv zeta.
  destruct (MAX_CACHE_SIZE <=? _); [now apply wfCache_cleanup|assumption].
Qed.

(** [cleanup] keeps exactly the results before position [cleanupCount]
    in the order of [completedAt], and every result it keeps completed no
    later than every result it deletes. *)
Lemma cleanup_keeps_oldest c :
  wfCache c ->
  (forall r, In r (values (ResultCache.cache (ResultCache.cleanup c)))
             <-> In r (kept c))
  /\ forall r r', In r (kept c) -> In r' (ResultCache.expired c) ->
                  r_completedAt r <= r_completedAt r'.
Proof.
  intros Hwf. pose proof (wfCache_values_NoDup c Hwf) as Hvals.
  destruct Hwf as [Hnd Hkey].
  unfold kept, ResultCache.expired.
  set (n := Z.to_nat ResultCache.cleanupCount).
  set (sorted := sortBy r_completedAt (values (ResultCache.cache c))).
  assert (Hperm : Permutation sorted (values (ResultCache.cache c)))
    by apply sortBy_perm.
  assert (Hsplit : sorted = (firstn n sorted ++ skipn n sorted)%list)
    by (symmetry; apply firstn_skipn).
  assert (Hnds : NoDup (firstn n sorted ++ skipn n sorted)).
  { rewrite <- Hsplit. eapply Permutation_NoDup; [apply Permutation_sym|]; eassumption. }
  assert (Hin_vals : forall r, In r (values (ResultCache.cache c))
                               <-> In r (firstn n sorted) \/ In r (skipn n sorted)).
  { intros r. rewrite <- in_app_iff, <- Hsplit. split; apply Permutation_in;
      [now apply Permutation_sym|assumption]. }
  assert (Hentry : forall r, In r (values (ResultCache.cache c)) ->
                             In (r_key r, r) (ResultCache.cache c)).
  { intros r Hr. unfold values in Hr. apply in_map_iff in Hr.
    destruct Hr as [[k r'] [Heq Hin]]. simpl in Heq. subst r'.
    now rewrite (Hkey _ _ Hin). }
  split.
  - intros r. unfold values at 1. rewrite in_map_iff. split.
    + intros [[k r'] [Heq Hin]]. simpl in Heq. subst r'. simpl in Hin.
      apply In_fold_delete_iff in Hin. destruct Hin as [Hin Hnot]. simpl in Hnot.
      assert (Hr : In r (values (ResultCache.cache c))).
      { unfold values. apply in_map_iff. now exists (k, r). }
      apply Hin_vals in Hr. destruct Hr as [Hr|Hr]; [assumption|].
      exfalso. apply Hnot. rewrite <- (Hkey _ _ Hin). now apply in_map.
    + intros Hr. exists (r_key r, r). split; [reflexivity|]. simpl.
      apply In_fold_delete_iff. simpl. split.
      * apply Hentry, Hin_vals. now left.
      * intros Hk. apply in_map_iff in Hk. destruct Hk as [r' [Heq Hr']].
        assert (r' = r).
        { assert (H1 : In (r_key r', r') (ResultCache.cache c))
            by (apply Hentry, Hin_vals; now right).
          assert (H2 : In (r_key r, r) (ResultCache.cache c))
            by (apply Hentry, Hin_vals; now left).
          rewrite Heq in H1. apply (In_get _ _ _ Hnd) in H1.
          apply (In_get _ _ _ Hnd) in H2. congruence. }
        subst r'. exact (NoDup_app_disjoint _ _ Hnds r Hr Hr').
  - intros r r' Hr Hr'. apply (sorted_app r_completedAt (firstn n sorted) (skipn n sorted));
      [|assumption|assumption].
    rewrite <- Hsplit. apply sortBy_sorted.
Qed.

(** [cleanup] leaves at most [cleanupCount] results. *)
Lemma size_cleanup c :
  wfCache c ->
  Z.of_nat (ResultCache.size (ResultCache.cleanup c)) <= ResultCache.cleanupCount.
Proof.
  intros Hwf. destruct (cleanup_keeps_oldest c Hwf) as [Hkept _].
  pose proof (wfCache_values_NoDup _ (wfCache_cleanup c Hwf)) as Hnd.
  assert (Hle : (List.length (values (ResultCache.cache (ResultCache.cleanup c)))
                 <= List.length (kept c))%nat).
  { apply NoDup_incl_length; [assumption|]. intros r Hr. now apply Hkept. }
  unfold ResultCache.size. unfold values in Hle. rewrite length_map in Hle.
  pose proof (firstn_le_length (Z.to_nat ResultCache.cleanupCount)
                (sortBy r_completedAt (values (ResultCache.cache c)))) as Hn.
  fold (kept c) in Hn.
  assert (0 <= ResultCache.cleanupCount) by (vm_compute; discriminate).
  lia.
Qed.

Lemma length_set {V} (o : JsObject.t V) k v :
  (List.length (set o k v) <= S (List.length o))%nat.
Proof.
  induction o as [|[k' v'] r IH]; simpl; [lia|].
  destruct (String.eqb k' k); simpl; lia.
Qed.

(** The cache never holds [MAX_CACHE_SIZE] results: until the counter
    reaches that number the cache holds at most as many results as were put,
    and from then on every [put] ends in [cleanup]. *)
Lemma reachableCache_bounded c :
  reachableCache c ->
  wfCache c
  /\ 0 <= ResultCache.length c
  /\ Z.of_nat (ResultCache.size c) < MAX_CACHE_SIZE
  /\ (ResultCache.length c < MAX_CACHE_SIZE ->
      Z.of_nat (ResultCache.size c) <= ResultCache.length c).
Proof.
  induction 1 as [|c r Hc (Hwf & Hlen & Hsize & Hsmall)].
  - split; [apply wfCache_new|]. vm_compute. repeat split; discriminate.
  - split; [now apply wfCache_put|].
    unfold ResultCache.put. cbv zeta.
    set (c1 := ResultCache.mk (set (ResultCache.cache c) (r_key r) r)
                              (ResultCache.length c + 1)).
    assert (Hwf1 : wfCache c1).
    { destruct Hwf as [Hnd Hkey]. split; simpl; [now apply NoDup_keys_set|].
      intros k x Hin. apply In_set in Hin; [|assumption].
      destruct Hin as [[-> ->]|[_ Hin]]; [reflexivity|now apply Hkey]. }
    assert (Hsize1 : Z.of_nat (ResultCache.size c1)
                     <= Z.of_nat (ResultCache.size c) + 1).
    { unfold ResultCache.size, c1. simpl.
      pose proof (length_set (ResultCache.cache c) (r_key r) r). lia. }
    destruct (Z.leb_spec MAX_CACHE_SIZE (ResultCache.length c1)) as [Hfull|Hroom].
    + pose proof (size_cleanup c1 Hwf1) as Hclean.
      assert (ResultCache.cleanupCount < MAX_CACHE_SIZE) by (vm_compute; reflexivity).
      simpl in *. repeat split; lia.
    + simpl in *. repeat split; lia.
Qed.

(** Fewer than [MAX_CACHE_SIZE] insertions are all kept. *)
Example cache_999 :
  let c := filledCache 999 in
  ResultCache.size c = 999%nat /\ forallb (holds c) (seq 0 999) = true.
Proof. vm_compute. split; reflexivity. Qed.

(** C6.  The insertion that brings the counter to [MAX_CACHE_SIZE] runs
    [cleanup], which sorts the results by [completedAt] and deletes those
    from position 800 on.  After 1000 results were put in completion
    order, the cache holds 800 of them: the 800 oldest are found, none of
    the 200 newest is.  The counter is never lowered, so the next
    insertion runs [cleanup] again, and the result it put, being the
    newest, is deleted at once. *)
Theorem cleanup_evicts_newest :
  let c := filledCache 1000 in
  let c' := ResultCache.put c (sampleResult 1000) in
  ResultCache.size c = 800%nat
  /\ forallb (holds c) (seq 0 800) = true
  /\ existsb (holds c) (seq 800 200) = false
  /\ ResultCache.size c' = 800%nat
  /\ forallb (holds c') (seq 0 800) = true
  /\ holds c' 1000 = false.
Proof. vm_compute. repeat split; reflexivity. Qed.

End ResultCacheFacts.

(* --------------------------------------------------------------------- *)
(** ** The task graph: what [rebuild] leaves alone *)
(* --------------------------------------------------------------------- *)

Module GraphFacts.
Import JsObjectFacts TaskNodeMapFacts ResultCacheFacts TaskGraph TaskGraphSpec
       CeilingFacts.

Lemma sameLog_refl st : sameLog st st.
Proof. repeat split. Qed.

Lemma sameLog_trans st1 st2 st3 : sameLog st1 st2 -> sameLog st2 st3 -> sameLog st1 st3.
Proof.
  intros (A1 & A2 & A3 & A4) (B1 & B2 & B3 & B4). repeat split; congruence.
Qed.

Lemma sameLog_rebuild st : sameLog st (rebuild st).
Proof.
  unfold rebuild.
  match goal with |- sameLog _ (set_roots ?s _) =>
    apply sameLog_trans with (st2 := s); [|repeat split] end.
  apply (fold_left_inv (sameLog st)); [|apply sameLog_refl].
  intros s a Hs. eapply sameLog_trans; [exact Hs|repeat split].
Qed.

End GraphFacts.

(* --------------------------------------------------------------------- *)
(** ** The task graph: the first declaration of [addNode] and the cache *)
(* --------------------------------------------------------------------- *)

Module CacheFacts.
Import JsObjectFacts TaskNodeMapFacts ResultCacheFacts TaskGraph TaskGraphSpec
       CeilingFacts GraphFacts.

(** The declaration of [addNode] at line 209, which takes a node and
    which the declaration at line 267 replaces in the class: had it been
    the one [process] reaches, a node whose task is not forced, whose key
    has a cached result and is not indexed, and which has no predecessor
    in the graph, would be answered by one [taskComplete] carrying the
    cached result, without entering the graph and without a call of its
    process body.  A result whose error field is set is never returned by
    the cache. *)
Lemma addNode_cached fuel st node result :
  t_force (n_task node) = false ->
  ResultCache.get (resultCache st) (n_key node) = Some result ->
  TaskNodeMap.getNode (index st) (n_key node) = None ->
  getPredecessor st node = None ->
  (exists st',
      addNode (S fuel) st node = Some st'
      /\ events st' = (events st ++ [TaskComplete result])%list
      /\ invoked st' = invoked st
      /\ running st' = running st
      /\ index st' = index st
      /\ TaskNodeMap.getNode (index st') (n_key node) = None)
  /\ r_error result = None
  /\ forall c key r, ResultCache.get c key = Some r -> r_error r = None.
Proof.
  intros Hforce Hget Habsent Hpred. split; [|split].
  - exists (emit st (TaskComplete result)).
    rewrite addNode_S, Habsent, Hpred. unfold addNodeContinue.
    rewrite Hforce, Hget. repeat split. exact Habsent.
  - now apply get_Some in Hget.
  - intros c key r H. now apply get_Some in H.
Qed.

End CacheFacts.

(* --------------------------------------------------------------------- *)
(** ** The task graph: the roots [rebuild] computes *)
(* --------------------------------------------------------------------- *)

Module LoopFacts.
Import JsObjectFacts TaskNodeMapFacts ResultCacheFacts TaskGraph TaskGraphSpec
       CeilingFacts GraphFacts.

Lemma setNodes_In m l x :
  In x (TaskNodeMap.getNodes (TaskNodeMap.setNodes m l)) ->
  In x (TaskNodeMap.getNodes m) \/ In x l.
Proof.
  unfold TaskNodeMap.setNodes. revert m.
  induction l as [|y r IH]; simpl; intros m H; [now left|].
  destruct (IH _ H) as [Hin|Hin]; [|right; now right].
  destruct (TaskNodeMap.getNode m (n_key y)) as [z|] eqn:E.
  - rewrite (addNode_present _ _ _ E) in Hin. now left.
  - destruct (addNode_absent _ _ E) as (_ & Hnodes & _). rewrite Hnodes in Hin.
    apply in_app_or in Hin. destruct Hin as [Hin|[<-|[]]]; [now left|].
    right. now left.
Qed.

(** The roots [rebuild] computes are nodes of the graph whose rebuilt
    dependency list is empty. *)
Lemma rebuild_roots st b :
  In b (TaskNodeMap.getNodes (roots (rebuild st))) ->
  In b (TaskNodeMap.getNodes (index st)) /\ getDependencies (rebuild st) b = [].
Proof.
  unfold rebuild. cbv zeta.
  set (st1 := fold_left _ (TaskNodeMap.getNodes (index st)) st).
  simpl roots. intros H. apply setNodes_In in H. destruct H as [[]|H].
  apply filter_In in H. destruct H as [Hin Hlen]. split; [assumption|].
  change (getDependencies (set_roots st1 _) b) with (getDependencies st1 b).
  destruct (getDependencies st1 b); [reflexivity|discriminate].
Qed.

End LoopFacts.

(* --------------------------------------------------------------------- *)
(** ** Collecting over a graph with a depth bound; the loop and the index *)
(* --------------------------------------------------------------------- *)

Module CancelFacts.
Import JsObject JsObjectFacts TaskNodeMapFacts ResultCacheFacts TaskGraph
       TaskGraphSpec CeilingFacts GraphFacts LoopFacts.

Section Gather.
Context {A : Type} (g : A -> option (list A)).

Lemma gather_None l : fold_left (gather g) l None = None.
Proof. induction l as [|d r IH]; simpl; [reflexivity|exact IH]. Qed.

Lemma gather_total l :
  (forall d, In d l -> exists ds, g d = Some ds) ->
  forall acc, exists r, fold_left (gather g) l (Some acc) = Some r.
Proof.
  induction l as [|d r IH]; intros Hg acc; simpl; [now exists acc|].
  destruct (Hg d (or_introl eq_refl)) as [ds Hds]. rewrite Hds.
  apply IH. intros d' Hd'. apply Hg. now right.
Qed.

Lemma gather_Some l :
  forall acc r,
    fold_left (gather g) l (Some acc) = Some r ->
    incl acc r
    /\ (forall d, In d l -> exists ds, g d = Some ds /\ incl ds r)
    /\ forall y, In y r ->
                 In y acc \/ exists d ds, In d l /\ g d = Some ds /\ In y ds.
Proof.
  induction l as [|d rest IH]; intros acc r; simpl.
  - intros [= <-]. split; [apply incl_refl|]. split; [intros ? []|]. now left.
  - destruct (g d) as [ds|] eqn:Hd; [|now rewrite gather_None].
    intros H. destruct (IH _ _ H) as (Hincl & Hsub & Horigin).
    split; [intros y Hy; apply Hincl, in_or_app; now left|]. split.
    + intros d' [<-|Hd'].
      * exists ds. split; [assumption|].
        intros y Hy. apply Hincl, in_or_app. now right.
      * now apply Hsub.
    + intros y Hy. destruct (Horigin y Hy) as [Hacc|(d' & ds' & Hin & Hg & Hy')].
      * apply in_app_or in Hacc. destruct Hacc as [Hacc|Hds]; [now left|].
        right. exists d, ds. split; [now left|]. now split.
      * right. exists d', ds'. split; [now right|]. now split.
Qed.

End Gather.

(** [loop] starts tasks and leaves the index as it is. *)
Lemma index_loop st : index (loop st) = index st.
Proof.
  unfold loop. destruct (TaskNodeMap.length (index st) =? 0); [reflexivity|].
  destruct (sameLog_rebuild (emit st (TaskGraphProcessing (now st)))) as (Hi & _).
  destruct (scanRoots _ _ _ _) as [m' [batch|]]; [|exact Hi].
  apply (fold_left_inv (fun s => index s = index st)); [|exact Hi].
  intros s a Hs. exact Hs.
Qed.

End CancelFacts.

(* --------------------------------------------------------------------- *)
(** ** The scheduler as the class body defines it *)
(* --------------------------------------------------------------------- *)

Module AsWrittenFacts.
Import JsObject JsObjectFacts TaskGraph TaskGraphAsWritten AsWrittenSpec.

Lemma allocated_0 st : allocated 0 st = st.
Proof. now destruct st. Qed.

Lemma allocated_S k st task parent :
  allocated k (snd (newTaskNode st task parent)) = allocated (S k) st.
Proof. unfold allocated, newTaskNode. simpl. f_equal. lia. Qed.

Lemma set_nonempty {V} (o : JsObject.t V) k v : set o k v <> [].
Proof.
  induction o as [|[k' v'] r IH]; simpl; [discriminate|].
  destruct (String.eqb k' k); discriminate.
Qed.

(** The loop of [process] that creates the nodes allocates one node
    object per task and leaves the graph alone; it yields a node as soon
    as there is a task. *)
Lemma nodes_created parent tasks :
  forall (o : JsObject.t TaskNode) st,
    let r :=
      fold_left
        (fun acc task =>
           let '(nodes, s) := acc in
           let '(node, s') := newTaskNode s task parent in
           (set nodes (getKey task) node, s'))
        tasks (o, st) in
    snd r = allocated (List.length tasks) st
    /\ (o <> [] \/ tasks <> [] -> fst r <> []).
Proof.
  induction tasks as [|task tasks IH]; intros o st; cbv zeta; simpl.
  - split; [symmetry; apply allocated_0|]. intros [H|H]; [exact H|congruence].
  - destruct (IH (set o (getKey task) (mkTaskNode (nextOid st) task parent))
                 (snd (newTaskNode st task parent))) as [Hs Hn].
    cbv zeta in Hs, Hn. unfold newTaskNode in Hs, Hn. simpl in Hs, Hn.
    split.
    + rewrite Hs. apply (allocated_S (List.length tasks) st task parent).
    + intros _. apply Hn. left. apply set_nonempty.
Qed.

(** [addNode] called with a node throws before it touches the graph. *)
Lemma addNode_node st node :
  addNode st (ANode node) = inl (TypeError "task.getKey is not a function").
Proof. reflexivity. Qed.

Lemma addNodes_nonempty st node rest :
  addNodes st (node :: rest)
  = (Some (TypeError "task.getKey is not a function"), st).
Proof. reflexivity. Qed.

(** What [process] comes to: with no task the promise is left to its
    listeners and the graph is untouched; with a task the first
    [this.addNode(node)] throws, the promise is rejected with that
    [TypeError], and all that has happened is that the node objects were
    created. *)
Lemma process_outcome st tasks parent :
  process st tasks parent
  = match tasks with
    | [] => (Listening (ProcessPromise.new []), st)
    | _ :: _ =>
        (RejectedWith (TypeError "task.getKey is not a function"),
         allocated (List.length tasks) st)
    end.
Proof.
  destruct tasks as [|task tasks]; [reflexivity|].
  unfold process.
  pose proof (nodes_created parent (task :: tasks) empty st) as H. cbv zeta in H.
  destruct (fold_left _ (task :: tasks) (empty, st)) as [nodes st1].
  cbn [fst snd] in H. destruct H as [-> Hn].
  destruct nodes as [|[k v] nodes].
  - exfalso. apply Hn; [right; discriminate|reflexivity].
  - unfold values. cbn [map]. now rewrite addNodes_nonempty.
Qed.

Lemma idle_new limit now0 : idle (new limit now0).
Proof. repeat split. Qed.

Lemma idle_allocated k st : idle st -> idle (allocated k st).
Proof. intros H. exact H. Qed.

Lemma process_state st tasks parent :
  snd (process st tasks parent) = allocated (List.length tasks) st.
Proof.
  rewrite process_outcome. destruct tasks; [|reflexivity].
  simpl. symmetry. apply allocated_0.
Qed.

Lemma idle_call st c : idle st -> idle (call st c).
Proof.
  intros H. destruct c as [tasks parent|tasks parent|elapsed]; simpl.
  - rewrite process_state. now apply idle_allocated.
  - unfold resolve. rewrite process_state. now apply idle_allocated.
  - destruct (0 <=? elapsed); exact H.
Qed.

(** Whatever is called on a graph, and however often, nothing ever
    happens in it. *)
Lemma reachable_idle limit now0 st : reachable limit now0 st -> idle st.
Proof.
  induction 1 as [|st c _ IH]; [apply idle_new|now apply idle_call].
Qed.

(** In particular nothing is ever in progress, so the concurrency
    ceilings hold in the class as its body defines it as well. *)
Lemma reachable_nothing_in_progress limit now0 st :
  reachable limit now0 st -> TaskNodeMap.getNodes (inProgress st) = [].
Proof.
  intros H. destruct (reachable_idle limit now0 st H) as (_ & _ & -> & _).
  reflexivity.
Qed.











End AsWrittenFacts.

(* --------------------------------------------------------------------- *)
(** ** The result cache and the node maps: lookups *)
(* --------------------------------------------------------------------- *)

Module LookupFacts.
Import JsObject JsObjectFacts TaskNodeMapFacts ResultCacheSpec ResultCacheFacts
       TaskGraphSpec TaskNodeMapSpec.

(** X1.  While the counter stays below [MAX_CACHE_SIZE], [get] after
    [put] finds the result just put under its key, unless the result
    carries an error, and answers for every other key as before. *)
Theorem put_get c r k :
  ResultCache.length c + 1 < MAX_CACHE_SIZE ->
  ResultCache.get (ResultCache.put c r) k
  = if String.eqb (r_key r) k
    then match r_error r with None => Some r | Some _ => None end
    else ResultCache.get c k.
Proof.
  intros Hroom. unfold ResultCache.put. cbv zeta.
  destruct (Z.leb_spec MAX_CACHE_SIZE
              (ResultCache.length
                 (ResultCache.mk (set (ResultCache.cache c) (r_key r) r)
                                 (ResultCache.length c + 1)))) as [Hfull|_];
    [simpl in Hfull; lia|].
  unfold ResultCache.get. simpl.
  destruct (String.eqb_spec (r_key r) k) as [<-|Hne].
  - rewrite get_set_eq, String.eqb_refl. reflexivity.
  - rewrite get_set_ne by congruence. reflexivity.
Qed.

Lemma put_get_witness :
  ResultCache.length (filledCache 3) + 1 < MAX_CACHE_SIZE
  /\ ResultCache.get (ResultCache.put (filledCache 3) (sampleResult 7)) "task.7"
     = Some (sampleResult 7)
  /\ ResultCache.get (ResultCache.put (filledCache 3) (sampleResult 7)) "task.1"
     = ResultCache.get (filledCache 3) "task.1".
Proof.
  assert (Hroom : ResultCache.length (filledCache 3) + 1 < MAX_CACHE_SIZE)
    by (vm_compute; reflexivity).
  split; [exact Hroom|]. split.
  - exact (put_get (filledCache 3) (sampleResult 7) "task.7" Hroom).
  - exact (put_get (filledCache 3) (sampleResult 7) "task.1" Hroom).
Defined.

Lemma reachableCache_fold rs :
  forall c, reachableCache c -> reachableCache (fold_left ResultCache.put rs c).
Proof.
  induction rs as [|r rs IH]; simpl; intros c Hc; [assumption|].
  apply IH. now constructor.
Qed.

(** X2.  However many results are put, the cache holds fewer than
    [MAX_CACHE_SIZE] of them, each under its own key. *)
Theorem cache_never_full c :
  reachableCache c ->
  Z.of_nat (ResultCache.size c) < MAX_CACHE_SIZE
  /\ forall k r, In (k, r) (ResultCache.cache c) -> r_key r = k.
Proof.
  intros Hc. destruct (reachableCache_bounded c Hc) as ((_ & Hkey) & _ & Hsize & _).
  split; assumption.
Qed.

Lemma cache_never_full_witness :
  reachableCache (filledCache 5)
  /\ Z.of_nat (ResultCache.size (filledCache 5)) < MAX_CACHE_SIZE.
Proof.
  assert (Hc : reachableCache (filledCache 5))
    by (apply reachableCache_fold; constructor).
  split; [exact Hc|]. exact (proj1 (cache_never_full (filledCache 5) Hc)).
Defined.

Lemma pick_fold c keys k :
  forall acc,
    get (fold_left
           (fun results key =>
              match ResultCache.get c key with
              | Some cachedResult => set results key cachedResult
              | None => results
              end) keys acc) k
    = if existsb (String.eqb k) keys
      then match ResultCache.get c k with Some r => Some r | None => get acc k end
      else get acc k.
Proof.
  induction keys as [|key keys IH]; intros acc; simpl; [reflexivity|].
  rewrite IH. destruct (String.eqb_spec k key) as [->|Hne]; simpl.
  - destruct (ResultCache.get c key) as [r|] eqn:E.
    + rewrite get_set_eq. now destruct (existsb _ keys).
    + now destruct (existsb _ keys).
  - destruct (ResultCache.get c key) as [r|] eqn:E.
    + rewrite get_set_ne by congruence. reflexivity.
    + reflexivity.
Qed.

(** X3.  [pick(keys)] answers for a key exactly as [get] does when the
    key was asked for, and has no entry for any other key. *)
Theorem pick_get c keys k :
  get (ResultCache.pick c keys) k
  = if existsb (String.eqb k) keys then ResultCache.get c k else None.
Proof.
  unfold ResultCache.pick. rewrite pick_fold. simpl.
  destruct (existsb _ keys); [|reflexivity]. now destruct (ResultCache.get c k).
Qed.

Lemma wfMap_reachable m : reachableMap m -> wfMap m.
Proof.
  induction 1.
  - apply wfMap_new.
  - now apply wfMap_addNode.
  - now apply wfMap_removeNode.
  - now apply wfMap_setNodes.
  - apply wfMap_new.
Qed.

Lemma wfMap_keys m :
  wfMap m -> map n_key (TaskNodeMap.getNodes m) = keys (TaskNodeMap.index m).
Proof.
  intros (_ & Hkey & _). unfold TaskNodeMap.getNodes, values, keys.
  rewrite map_map. apply map_ext_in. intros [k n] Hin. simpl. now apply Hkey.
Qed.

(** X4.  In every node map built by the operations of [TaskNodeMap], the
    [length] counter equals the number of nodes held, no two nodes share a
    key, and [getNode] finds each node under its own key. *)
Theorem length_counts_nodes m :
  reachableMap m ->
  TaskNodeMap.length m = Z.of_nat (List.length (TaskNodeMap.getNodes m))
  /\ NoDup (map n_key (TaskNodeMap.getNodes m))
  /\ forall n, In n (TaskNodeMap.getNodes m) ->
               TaskNodeMap.getNode m (n_key n) = Some n.
Proof.
  intros Hm. apply wfMap_reachable in Hm. split; [|split].
  - destruct Hm as (_ & _ & Hl). now rewrite getNodes_length.
  - rewrite (wfMap_keys m Hm). now destruct Hm.
  - intros n Hn. now apply In_getNodes_getNode.
Qed.

Lemma length_counts_nodes_witness :
  let m :=
    TaskNodeMap.removeNode
      (TaskNodeMap.setNodes TaskNodeMap.new
         [mkTaskNode 0 taskA None; mkTaskNode 1 taskX None; mkTaskNode 2 taskA None])
      (mkTaskNode 3 taskX None) in
  reachableMap m
  /\ TaskNodeMap.length m = 1
  /\ TaskNodeMap.getNodes m = [mkTaskNode 0 taskA None].
Proof.
  cbv zeta.
  assert (Hm : reachableMap
                 (TaskNodeMap.removeNode
                    (TaskNodeMap.setNodes TaskNodeMap.new
                       [mkTaskNode 0 taskA None; mkTaskNode 1 taskX None;
                        mkTaskNode 2 taskA None])
                    (mkTaskNode 3 taskX None)))
    by (repeat constructor).
  split; [exact Hm|].
  destruct (length_counts_nodes _ Hm) as (Hlen & _).
  split; [rewrite Hlen; vm_compute; reflexivity|vm_compute; reflexivity].
Defined.

(** X5.  [addNode] never replaces: the node found under a key after
    [addNode] is the one that was there before, or the new node when there
    was none; the map then contains the node, and [removeNode] makes the
    map no longer contain it. *)
Theorem addNode_keeps_first m n :
  TaskNodeMap.getNode (TaskNodeMap.addNode m n) (n_key n)
  = Some (match TaskNodeMap.getNode m (n_key n) with
          | Some old => old
          | None => n
          end)
  /\ TaskNodeMap.contains (TaskNodeMap.addNode m n) n = true
  /\ TaskNodeMap.contains (TaskNodeMap.removeNode (TaskNodeMap.addNode m n) n) n
     = false
  /\ forall k, k <> n_key n ->
               TaskNodeMap.getNode (TaskNodeMap.addNode m n) k
               = TaskNodeMap.getNode m k.
Proof.
  assert (Hget : TaskNodeMap.getNode (TaskNodeMap.addNode m n) (n_key n)
                 = Some (match TaskNodeMap.getNode m (n_key n) with
                         | Some old => old
                         | None => n
                         end)).
  { unfold TaskNodeMap.addNode, TaskNodeMap.getNode.
    destruct (get (TaskNodeMap.index m) (n_key n)) eqn:E; simpl.
    - exact E.
    - apply get_set_eq. }
  split; [exact Hget|]. split; [|split].
  - unfold TaskNodeMap.contains, has. unfold TaskNodeMap.getNode in Hget.
    now rewrite Hget.
  - unfold TaskNodeMap.contains, has.
    rewrite removeNode_index.
    rewrite notin_get_None; [reflexivity|].
    intros Hin. apply keys_delete_incl in Hin. tauto.
  - intros k Hk. unfold TaskNodeMap.addNode, TaskNodeMap.getNode.
    destruct (get (TaskNodeMap.index m) (n_key n)); simpl; [reflexivity|].
    now apply get_set_ne.
Qed.

End LookupFacts.

(* --------------------------------------------------------------------- *)
(** ** The task graph: index, in-progress map and the global limit *)
(* --------------------------------------------------------------------- *)

Module SchedulerFacts.
Import JsObject JsObjectFacts TaskNodeMapFacts ResultCacheFacts TaskGraph
       TaskGraphSpec CeilingFacts GraphFacts LoopFacts CancelFacts SchedulerSpec.

(** *** Properties kept by every step *)

Section StepInvariant.

Variable Q : t -> Prop.
Hypothesis Q_same :
  forall st st',
    index st' = index st -> inProgress st' = inProgress st -> Q st -> Q st'.
Hypothesis Q_addIndex :
  forall st n, Q st -> Q (set_index st (TaskNodeMap.addNode (index st) n)).
Hypothesis Q_remove : forall st n, Q st -> Q (remove st n).
Hypothesis Q_loop : forall st, Q st -> Q (loop st).

Lemma settle_keeps fuel st rn s st' :
  settle fuel st rn s = Some st' -> Q st -> Q st'.
Proof.
  assert (Hfinally : forall s0 n r, Q s0 -> Q (settleFinally s0 n r)).
  { intros s0 n r H0. unfold settleFinally, completeTask.
    set (s1 := set_resultCache s0 (ResultCache.put (resultCache s0) r)).
    assert (H1 : Q s1) by (revert H0; now apply Q_same).
    destruct (_ <? _)%nat; simpl.
    - revert H1. now apply Q_same.
    - now apply Q_loop, Q_remove. }
  unfold settle. destruct s as [output|error].
  - intros [= <-] Hst. apply Hfinally. revert Hst. now apply Q_same.
  - unfold cancelDependants.
    destruct (getDependants fuel st (rn_node rn)) as [ds|]; [|discriminate].
    intros [= <-] Hst. apply Hfinally.
    assert (Hrem : Q (fold_left remove ds st))
      by (apply (fold_left_inv Q); [intros s a; apply Q_remove|assumption]).
    destruct (sameLog_rebuild (fold_left remove ds st)) as (Hi & _).
    destruct (sameProgress_rebuild (fold_left remove ds st)) as (_ & Hp).
    revert Hrem. apply Q_same; simpl; assumption.
Qed.

Lemma step_keeps fuel st s st' : step fuel st s = Some st' -> Q st -> Q st'.
Proof.
  destruct s as [tasks parent|task|i s|elapsed]; simpl.
  - apply (process_inv Q); try assumption.
    + intros s key r Hs _. revert Hs. now apply Q_same.
    + intros s m. now apply Q_same.
    + intros s d. now apply Q_same.
    + intros s task parent0. now apply Q_same.
  - apply (addTaskInternal_inv Q); try assumption.
    + intros s m. now apply Q_same.
    + intros s d. now apply Q_same.
    + intros s task0 parent0. now apply Q_same.
    + intros s c. now apply Q_same.
    + intros s key version. now apply Q_same.
  - destruct (nth_error (running st) i) as [rn|]; [|discriminate].
    intros H Hst. eapply settle_keeps; [exact H|]. revert Hst. now apply Q_same.
  - destruct (0 <=? elapsed); [|discriminate]. intros [= <-]. now apply Q_same.
Qed.

Lemma reachable_keeps limit now0 st :
  Q (new limit now0) -> reachable limit now0 st -> Q st.
Proof.
  intros Hnew. induction 1 as [|st fuel s st' Hreach IH Hstep]; [assumption|].
  eapply step_keeps; eassumption.
Qed.

End StepInvariant.

(** *** Nodes in progress are indexed *)

Lemma indexed_scanRoots limit ix nodes :
  (forall x, In x nodes -> TaskNodeMap.getNode ix (n_key x) = Some x) ->
  forall m batch,
    wfMap m ->
    (forall k n, TaskNodeMap.getNode m k = Some n ->
                 TaskNodeMap.getNode ix k = Some n) ->
    wfMap (fst (scanRoots limit nodes m batch))
    /\ forall k n,
        TaskNodeMap.getNode (fst (scanRoots limit nodes m batch)) k = Some n ->
        TaskNodeMap.getNode ix k = Some n.
Proof.
  induction nodes as [|x rest IH]; intros Hnodes m batch Hwf Hsub;
    cbn [scanRoots]; [now split|].
  assert (Hrest : forall y, In y rest -> TaskNodeMap.getNode ix (n_key y) = Some y)
    by (intros y Hy; apply Hnodes; now right).
  destruct (limit <=? TaskNodeMap.length m); [now split|].
  destruct (TaskNodeMap.contains m x); [now apply IH|].
  match goal with |- context [if ?c then _ else _] => destruct c end;
    [now apply IH|].
  apply IH; [assumption|now apply wfMap_addNode|].
  intros k n. unfold TaskNodeMap.addNode, TaskNodeMap.getNode.
  destruct (get (TaskNodeMap.index m) (n_key x)) eqn:E; [apply Hsub|].
  simpl. destruct (String.eqb_spec k (n_key x)) as [->|Hne].
  - rewrite get_set_eq. intros [= <-]. apply Hnodes. now left.
  - rewrite get_set_ne by assumption. apply Hsub.
Qed.

Lemma indexedInv_loop st : indexedInv st -> indexedInv (loop st).
Proof.
  intros (Hix & Hip & Hsub). unfold indexedInv. rewrite index_loop.
  split; [assumption|]. unfold loop.
  destruct (TaskNodeMap.length (index st) =? 0); [now split|].
  set (st2 := rebuild (emit st (TaskGraphProcessing (now st)))).
  assert (Hp2 : inProgress st2 = inProgress st)
    by (destruct (sameProgress_rebuild (emit st (TaskGraphProcessing (now st))))
          as (_ & H); exact H).
  destruct (indexed_scanRoots (concurrencyLimit st2) (index st)
              (TaskNodeMap.getNodes (roots st2)))
    with (m := inProgress st2) (batch := @nil TaskNode) as [Hwf' Hsub'].
  - intros x Hx. apply rebuild_roots in Hx. destruct Hx as [Hx _].
    now apply In_getNodes_getNode.
  - now rewrite Hp2.
  - rewrite Hp2. exact Hsub.
  - destruct (scanRoots _ _ _ _) as [m' [batch|]]; simpl in *.
    + apply (fold_left_inv
               (fun s => wfMap (inProgress s)
                         /\ forall k n, TaskNodeMap.getNode (inProgress s) k = Some n ->
                                        TaskNodeMap.getNode (index st) k = Some n));
        [intros s a Hs; exact Hs|now split].
    + now split.
Qed.

Lemma indexedInv_reachable limit now0 st :
  reachable limit now0 st -> indexedInv st.
Proof.
  apply (reachable_keeps indexedInv).
  - intros s s' Hi Hp. unfold indexedInv. now rewrite Hi, Hp.
  - intros s n (Hix & Hip & Hsub). split; [now apply wfMap_addNode|].
    split; [assumption|]. intros k x Hk. simpl.
    specialize (Hsub k x Hk). unfold TaskNodeMap.addNode, TaskNodeMap.getNode in *.
    destruct (get (TaskNodeMap.index (index s)) (n_key n)) eqn:E; [assumption|].
    simpl. rewrite get_set_ne; [assumption|]. intros ->. congruence.
  - intros s n (Hix & Hip & Hsub).
    split; [simpl; now apply wfMap_removeNode|].
    split; [simpl; now apply wfMap_removeNode|].
    intros k x. simpl. unfold TaskNodeMap.getNode.
    rewrite !removeNode_index, !delete_filter.
    intros Hk. apply get_In in Hk. apply filter_In in Hk. destruct Hk as [Hin Hne].
    simpl in Hne.
    assert (Hnd : NoDup (keys (filter (fun e => negb (String.eqb (fst e) (n_key n)))
                                      (TaskNodeMap.index (index s))))).
    { rewrite <- delete_filter. apply NoDup_keys_delete. now destruct Hix. }
    apply (In_get _ _ _ Hnd). apply filter_In. split; [|exact Hne].
    apply get_In. apply Hsub. apply In_get; [now destruct Hip|assumption].
  - apply indexedInv_loop.
  - split; [apply wfMap_new|]. split; [apply wfMap_new|]. intros k n. discriminate.
Qed.

(** X6.  In every state a task graph can reach, the [length] counters of
    the index and of the in-progress map equal the numbers of nodes the
    maps hold, every node in progress is a node of the index, and so
    nothing is in progress when the index is empty. *)
Theorem inProgress_indexed limit now0 st :
  reachable limit now0 st ->
  TaskNodeMap.length (index st)
  = Z.of_nat (List.length (TaskNodeMap.getNodes (index st)))
  /\ TaskNodeMap.length (inProgress st)
     = Z.of_nat (List.length (TaskNodeMap.getNodes (inProgress st)))
  /\ (forall n, In n (TaskNodeMap.getNodes (inProgress st)) ->
                In n (TaskNodeMap.getNodes (index st)))
  /\ (TaskNodeMap.length (index st) = 0 ->
      TaskNodeMap.getNodes (inProgress st) = []).
Proof.
  intros Hreach. destruct (indexedInv_reachable _ _ _ Hreach) as (Hix & Hip & Hsub).
  assert (Hincl : forall n, In n (TaskNodeMap.getNodes (inProgress st)) ->
                            In n (TaskNodeMap.getNodes (index st))).
  { intros n Hn. apply (In_getNodes_getNode _ _ Hip) in Hn.
    apply Hsub in Hn. eapply getNode_In. exact Hn. }
  assert (Hlen : TaskNodeMap.length (index st)
                 = Z.of_nat (List.length (TaskNodeMap.getNodes (index st))))
    by (destruct Hix as (_ & _ & Hl); now rewrite getNodes_length).
  split; [exact Hlen|]. split; [|split; [exact Hincl|]].
  - destruct Hip as (_ & _ & Hl). now rewrite getNodes_length.
  - intros Hzero. rewrite Hlen in Hzero.
    destruct (TaskNodeMap.getNodes (index st)) as [|y ys] eqn:E; [|simpl in Hzero; lia].
    destruct (TaskNodeMap.getNodes (inProgress st)) as [|x xs]; [reflexivity|].
    destruct (Hincl x (or_introl eq_refl)).
Qed.

Lemma inProgress_indexed_witness :
  reachable DEFAULT_MAX_CONCURRENCY 0 (stateAfter stepsStarted)
  /\ map n_key (TaskNodeMap.getNodes (inProgress (stateAfter stepsStarted)))
     = [getKey taskBforced; getKey taskX]
  /\ forall n, In n (TaskNodeMap.getNodes (inProgress (stateAfter stepsStarted))) ->
               In n (TaskNodeMap.getNodes (index (stateAfter stepsStarted))).
Proof.
  assert (Hreach : reachable DEFAULT_MAX_CONCURRENCY 0 (stateAfter stepsStarted))
    by (apply (stateAfter_reachable stepsStarted); vm_compute; reflexivity).
  split; [exact Hreach|]. split; [vm_compute; reflexivity|].
  exact (proj1 (proj2 (proj2 (inProgress_indexed _ _ _ Hreach)))).
Defined.

End SchedulerFacts.

(* --------------------------------------------------------------------- *)
(** ** The promise returned by [process] *)
(* --------------------------------------------------------------------- *)

Module ProcessPromiseFacts.
Import JsObject JsObjectFacts TaskGraph ProcessPromise.

Lemma nodeKeys_fold ts :
  forall o : JsObject.t unit,
    NoDup (keys o) ->
    let o' := fold_left (fun o task => set o (getKey task) tt) ts o in
    NoDup (keys o')
    /\ forall k, In k (keys o') <-> In k (keys o) \/ In k (map getKey ts).
Proof.
  induction ts as [|task ts IH]; intros o Hnd; cbv zeta; simpl;
    [split; [assumption|tauto]|].
  destruct (IH (set o (getKey task) tt) (NoDup_keys_set _ _ _ Hnd)) as [Hnd' Hin].
  cbv zeta in Hnd', Hin. split; [exact Hnd'|].
  intros k. rewrite Hin.
  assert (Hset : In k (keys (set o (getKey task) tt))
                 <-> In k (keys o) \/ k = getKey task).
  { destruct (in_dec string_dec (getKey task) (keys o)) as [Hold|Hnew].
    - rewrite keys_set_existing by assumption. split; [tauto|].
      intros [H| ->]; assumption.
    - rewrite keys_set_new by assumption. rewrite in_app_iff. simpl.
      split; [intros [H|[H|[]]]; auto|intros [H|H]; auto]. }
  rewrite Hset. split; [intros [[H|H]|H]|intros [H|[H|H]]]; auto.
Qed.

Lemma nodeKeys_spec ts :
  NoDup (nodeKeys ts) /\ forall k, In k (nodeKeys ts) <-> In k (map getKey ts).
Proof.
  destruct (nodeKeys_fold ts empty (NoDup_nil _)) as [Hnd Hin]. cbv zeta in *.
  split; [exact Hnd|]. intros k. unfold nodeKeys. rewrite Hin. simpl. tauto.
Qed.

Lemma existsb_eqb_In k l : existsb (String.eqb k) l = true <-> In k l.
Proof.
  rewrite existsb_exists. split.
  - intros (x & Hx & Heq). apply String.eqb_eq in Heq. now subst.
  - intros H. exists k. split; [assumption|apply String.eqb_refl].
Qed.

Lemma existsb_snoc {A} (p : A -> bool) l x :
  existsb p (l ++ [x]) = existsb p l || p x.
Proof. rewrite existsb_app. simpl. now rewrite orb_false_r. Qed.

Lemma listening_new ts : listening ts [] (new ts).
Proof.
  unfold listening, new. simpl.
  split; [reflexivity|]. split; [reflexivity|]. split; [constructor|].
  split; [intros k r []|]. split; [intros k r _ []|]. discriminate.
Qed.

Lemma In_keys {V} (o : JsObject.t V) k v : In (k, v) o -> In k (keys o).
Proof. intros H. change k with (fst (k, v)). now apply in_map. Qed.

Lemma keys_In {V} (o : JsObject.t V) k : In k (keys o) -> exists v, In (k, v) o.
Proof.
  unfold keys. intros H. apply in_map_iff in H. destruct H as ([k' v] & Hk & Hin).
  simpl in Hk. subst. now exists v.
Qed.

Lemma plain_inNodes p k :
  existsb (String.eqb k) ConfigContext.objectPrototypeKeys = false ->
  inNodes p k = existsb (String.eqb k) (nodes p).
Proof. intros H. unfold inNodes. rewrite H. apply orb_false_r. Qed.

Lemma plain_assign res k r :
  existsb (String.eqb k) ConfigContext.objectPrototypeKeys = false ->
  assign res k r = set res k r.
Proof.
  intros H. unfold assign. destruct (String.eqb_spec k "__proto__") as [->|_];
    [discriminate H|reflexivity].
Qed.

Lemma listening_observe ts seen p e :
  plainKey e = true ->
  listening ts seen p -> listening ts (seen ++ [e]) (observe p e).
Proof.
  intros Hplain (Ht & Hn & Hnd & Hres & Hdone & Hst).
  assert (Hweak : forall e0, In e0 seen -> In e0 (seen ++ [e]))
    by (intros e0 H; apply in_or_app; now left).
  assert (Hsettled_weak :
            match settled p with
            | Pending => True
            | Fulfilled value =>
                Forall2 (fun task v =>
                           exists r, v = Some r /\ r_key r = getKey task
                                     /\ In (TaskComplete r) (seen ++ [e]))
                        ts value
            | Failed r => In (r_key r) (nodes p) /\ In (TaskError r) (seen ++ [e])
            end).
  { destruct (settled p); [exact I| |destruct Hst; split; auto].
    eapply Forall2_impl; [|exact Hst]. intros task v (r & Hv & Hk & Hin).
    exists r. auto. }
  destruct e as [addedAt key version|startedAt key version|result|result
                 |startedAt|completedAt]; simpl.
  1, 2, 5, 6:
    (split; [assumption|]; split; [assumption|]; split; [assumption|];
     split; [intros k r H; destruct (Hres k r H) as (A & B & C); auto|];
     split; [intros k r Hk Hin Hkey; apply in_app_or in Hin;
             destruct Hin as [Hin|[Hin|[]]]; [eauto|discriminate]|];
     destruct (settled p); [|exact Hsettled_weak|exact Hsettled_weak];
     rewrite existsb_snoc, orb_false_r; exact Hst).
  - (* taskComplete *)
    simpl in Hplain. apply negb_true_iff in Hplain.
    unfold onTaskComplete. cbv zeta.
    rewrite plain_inNodes, plain_assign by assumption.
    set (results' := if existsb (String.eqb (r_key result)) (nodes p)
                     then set (results p) (r_key result) result
                     else results p).
    assert (Hnd' : NoDup (keys results')).
    { unfold results'. destruct (existsb (String.eqb (r_key result)) (nodes p));
        [now apply NoDup_keys_set|assumption]. }
    assert (Hres' : forall k r, In (k, r) results' ->
                                r_key r = k /\ In k (nodes p)
                                /\ In (TaskComplete r) (seen ++ [TaskComplete result])).
    { intros k r Hin. unfold results' in Hin.
      destruct (existsb (String.eqb (r_key result)) (nodes p)) eqn:Eb.
      - apply In_set in Hin; [|assumption].
        destruct Hin as [[-> ->]|[_ Hin]].
        + split; [reflexivity|]. split; [now apply existsb_eqb_In|].
          apply in_or_app. right. now left.
        + destruct (Hres k r Hin) as (A & B & C). auto.
      - destruct (Hres k r Hin) as (A & B & C). auto. }
    assert (Hdone' : forall k r, In k (nodes p) ->
                                 In (TaskComplete r) (seen ++ [TaskComplete result]) ->
                                 r_key r = k -> In k (keys results')).
    { intros k r Hk Hin Hkey.
      assert (Hold : In k (keys (results p)) -> In k (keys results')).
      { unfold results'. destruct (existsb (String.eqb (r_key result)) (nodes p)); [|auto].
        intros H. destruct (in_dec string_dec (r_key result) (keys (results p))).
        - now rewrite keys_set_existing.
        - rewrite keys_set_new by assumption. apply in_or_app. now left. }
      apply in_app_or in Hin. destruct Hin as [Hin|[[= <-]|[]]]; [eauto|].
      subst k. unfold results'.
      apply existsb_eqb_In in Hk. rewrite Hk.
      apply (In_keys _ _ result). apply get_In. apply get_set_eq. }
    destruct (Nat.eqb_spec (List.length (keys results')) (List.length (nodes p)))
      as [Hfull|Hpart].
    + unfold settleOnce. simpl.
      destruct (settled p) eqn:Es; simpl;
        (split; [assumption|]; split; [assumption|]; split; [assumption|];
         split; [assumption|]; split; [assumption|]);
        [|exact Hsettled_weak|exact Hsettled_weak].
      (* fulfilled now *)
      assert (Hall : forall k, In k (nodes p) -> In k (keys results')).
      { apply NoDup_length_incl.
        - assumption.
        - rewrite Hfull. apply Nat.le_refl.
        - intros k Hk. apply keys_In in Hk. destruct Hk as [r Hr].
          now destruct (Hres' k r Hr). }
      unfold mapTasksToResults. rewrite Ht.
      assert (Hts : forall task, In task ts -> In (getKey task) (nodes p)).
      { intros task Hin. rewrite Hn. apply nodeKeys_spec. now apply in_map. }
      clear - Hts Hall Hres' Hnd'.
      induction ts as [|task ts IH]; simpl; constructor.
      * specialize (Hall _ (Hts task (or_introl eq_refl))).
        apply keys_In in Hall. destruct Hall as [r Hr].
        destruct (Hres' _ _ Hr) as (Hk & _ & Hin).
        exists r. split; [now apply In_get|]. split; assumption.
      * apply IH. intros t0 H0. apply Hts. now right.
    + simpl. split; [assumption|]. split; [assumption|]. split; [assumption|].
      split; [assumption|]. split; [assumption|].
      destruct (settled p); [|exact Hsettled_weak|exact Hsettled_weak].
      intros _. exact Hpart.
  - (* taskError *)
    simpl in Hplain. apply negb_true_iff in Hplain.
    unfold onTaskError. rewrite plain_inNodes by assumption.
    assert (Hres' : forall k r, In (k, r) (results p) ->
                                r_key r = k /\ In k (nodes p)
                                /\ In (TaskComplete r) (seen ++ [TaskError result]))
      by (intros k r H; destruct (Hres k r H) as (A & B & C); auto).
    assert (Hdone' : forall k r, In k (nodes p) ->
                                 In (TaskComplete r) (seen ++ [TaskError result]) ->
                                 r_key r = k -> In k (keys (results p))).
    { intros k r Hk Hin Hkey. apply in_app_or in Hin.
      destruct Hin as [Hin|[Hin|[]]]; [eauto|discriminate]. }
    destruct (existsb (String.eqb (r_key result)) (nodes p)) eqn:Eb.
    + unfold settleOnce, listening. destruct (settled p) eqn:Es; simpl; rewrite ?Es;
        (split; [assumption|]; split; [assumption|]; split; [assumption|];
         split; [assumption|]; split; [assumption|]);
        [|exact Hsettled_weak|exact Hsettled_weak].
      split; [now apply existsb_eqb_In|]. apply in_or_app. right. now left.
    + split; [assumption|]. split; [assumption|]. split; [assumption|].
      split; [assumption|]. split; [assumption|].
      destruct (settled p); [|exact Hsettled_weak|exact Hsettled_weak].
      rewrite existsb_snoc, orb_false_r. exact Hst.
Qed.

Lemma listening_after ts es :
  forallb plainKey es = true ->
  forall seen p, listening ts seen p -> listening ts (seen ++ es) (after p es).
Proof.
  induction es as [|e es IH]; intros Hplain seen p Hp; simpl.
  - now rewrite app_nil_r.
  - simpl in Hplain. apply andb_true_iff in Hplain. destruct Hplain as [He Hes].
    replace (seen ++ e :: es)%list with ((seen ++ [e]) ++ es)%list
      by (rewrite <- app_assoc; reflexivity).
    apply IH; [assumption|]. now apply listening_observe.
Qed.

(** X11.  Called with no task, [process] does not settle at once: the
    promise stays pending until the graph emits a [taskComplete] event, of
    whatever task, and is fulfilled with the empty array by the first
    one, as long as no emitted result has the name of an inherited
    property as its key. *)
Theorem process_nothing es :
  forallb plainKey es = true ->
  settled (after (new []) es)
  = if existsb isTaskComplete es then Fulfilled [] else Pending.
Proof.
  intros Hplain.
  assert (Hdone :
            forall es p, settled p = Fulfilled [] ->
                         settled (after p es) = Fulfilled []).
  { induction es0 as [|e es0 IH]; intros p Hp; simpl; [assumption|].
    apply IH. destruct e; simpl; try assumption.
    - unfold onTaskComplete. cbv zeta. destruct (Nat.eqb _ _); [|assumption].
      unfold settleOnce. simpl. now rewrite Hp.
    - unfold onTaskError. destruct (inNodes _ _); [|assumption].
      unfold settleOnce. now rewrite Hp. }
  assert (Hpending :
            forall es p, forallb plainKey es = true ->
                         tasks p = [] -> nodes p = [] -> results p = [] ->
                         settled p = Pending ->
                         settled (after p es)
                         = if existsb isTaskComplete es then Fulfilled [] else Pending).
  { induction es0 as [|e es0 IH]; intros p Hpl Ht Hn Hr Hs; simpl; [assumption|].
    simpl in Hpl. apply andb_true_iff in Hpl. destruct Hpl as [He Hes].
    destruct e; simpl; try (now apply IH).
    - simpl in He. apply negb_true_iff in He.
      apply Hdone. unfold onTaskComplete. cbv zeta.
      rewrite plain_inNodes by assumption. rewrite Hn, Hr, Ht. simpl.
      unfold settleOnce. simpl. now rewrite Hs.
    - simpl in He. apply negb_true_iff in He.
      apply IH; try assumption; unfold onTaskError;
        rewrite plain_inNodes by assumption; rewrite Hn; simpl; assumption. }
  now apply Hpending.
Qed.

Lemma process_nothing_witness :
  let es := events (stateAfter stepsRunA) in
  forallb plainKey es = true
  /\ existsb isTaskComplete es = true
  /\ settled (after (new []) es) = Fulfilled [].
Proof.
  cbv zeta.
  assert (Hplain : forallb plainKey (events (stateAfter stepsRunA)) = true)
    by (vm_compute; reflexivity).
  assert (Hc : existsb isTaskComplete (events (stateAfter stepsRunA)) = true)
    by (vm_compute; reflexivity).
  split; [exact Hplain|]. split; [exact Hc|].
  rewrite (process_nothing (events (stateAfter stepsRunA)) Hplain).
  rewrite Hc. reflexivity.
Defined.

(** X12.  Once a [taskComplete] event has been emitted for the key of
    every task of a non-empty [process(tasks)], the promise has settled
    (no emitted result having the name of an inherited property as its
    key). *)
Theorem process_settles ts es :
  forallb plainKey es = true ->
  ts <> [] ->
  (forall task, In task ts ->
                exists r, In (TaskComplete r) es /\ r_key r = getKey task) ->
  settled (after (new ts) es) <> Pending.
Proof.
  intros Hplain Hne Hall Hpending.
  destruct (listening_after ts es Hplain [] (new ts) (listening_new ts))
    as (_ & Hn & Hnd & Hres & Hdone & Hst).
  simpl in Hres, Hdone, Hst. rewrite Hpending in Hst.
  destruct (nodeKeys_spec ts) as [Hnodup Hkeys].
  apply Hst.
  - destruct ts as [|task ts']; [contradiction|].
    destruct (Hall task (or_introl eq_refl)) as (r & Hin & _).
    apply existsb_exists. exists (TaskComplete r). now split.
  - apply Nat.le_antisymm.
    + apply NoDup_incl_length; [assumption|].
      intros k Hk. apply keys_In in Hk. destruct Hk as [r Hr].
      now destruct (Hres k r Hr).
    + apply NoDup_incl_length; [rewrite Hn; assumption|].
      intros k Hk. pose proof Hk as Hk'. rewrite Hn in Hk'. apply Hkeys in Hk'.
      apply in_map_iff in Hk'. destruct Hk' as (task & Hkey & Hin).
      destruct (Hall task Hin) as (r & Hr & Hrk).
      apply (Hdone k r); [assumption|assumption|congruence].
Qed.

Lemma process_settles_witness :
  forallb plainKey (events (stateAfter stepsRunA)) = true
  /\ exists r,
      settled (after (new [taskA]) (events (stateAfter stepsRunA)))
      = Fulfilled [Some r]
      /\ r_key r = getKey taskA.
Proof.
  assert (Hplain : forallb plainKey (events (stateAfter stepsRunA)) = true)
    by (vm_compute; reflexivity).
  split; [exact Hplain|].
  assert (Hne : [taskA] <> []) by discriminate.
  assert (Hall : forall task, In task [taskA] ->
                              exists r, In (TaskComplete r) (events (stateAfter stepsRunA))
                                        /\ r_key r = getKey task).
  { intros task [<-|[]].
    exists (mkTaskResult "test" "test.a" "test.a.aaaaaaaa" "id-a" "a"
                         (Some "result-a") [] None 0 3).
    split; [vm_compute; tauto|reflexivity]. }
  pose proof (process_settles [taskA] (events (stateAfter stepsRunA)) Hplain Hne Hall)
    as Hsettled.
  destruct (settled (after (new [taskA]) (events (stateAfter stepsRunA))))
    as [|value|r] eqn:E.
  - contradiction.
  - revert E. vm_compute. intros [= <-]. eexists. split; reflexivity.
  - revert E. vm_compute. discriminate.
Defined.

End ProcessPromiseFacts.

(* --------------------------------------------------------------------- *)
(** ** The configuration context: failures and returned values *)
(* --------------------------------------------------------------------- *)

Module ResolveFacts.
Import ConfigContext ConfigContextSpec JsObjectFacts ConfigContextFacts.

(** X13.  A key whose first component starts with an underscore cannot
    be resolved, whatever the context holds under that name: unless the
    memo answers or the path is on the stack, [resolve] throws "Could not
    find key", calls nothing and leaves every memo as it was. *)
Theorem resolve_private_key fuel h c this k rest nodePath stack :
  nth_error h c = Some this ->
  truthy (memoLookup this (String.concat "." (k :: rest))) = false ->
  ~ In (String.concat "." (nodePath ++ k :: rest))
       (match stack with Some s => s | None => [] end) ->
  startsWithUnderscore k = true ->
  resolve (S fuel) h c (k :: rest) nodePath stack
  = (Thrown (ConfigurationError
               ("Could not find key: " ++ String.concat "." (k :: rest))),
     h, [CycleCheck (String.concat "." (nodePath ++ k :: rest))]).
Proof.
  intros Hthis Hmiss Hstack Hkey. rewrite resolve_S.
  unfold resolveBody. rewrite Hthis, Hmiss. unfold resolveUncached.
  destruct (existsb (String.eqb (String.concat "." (nodePath ++ k :: rest)))
                    (match stack with Some s => s | None => [] end)) eqn:Eb.
  - exfalso. apply Hstack. apply existsb_exists in Eb.
    destruct Eb as (x & Hx & Heq). apply String.eqb_eq in Heq. now subst.
  - cbn [walk].
    assert (Hv : (if startsWithUnderscore k then VUndefined
                  else getProperty h (VContext c) k) = VUndefined).
    { now rewrite Hkey. }
    rewrite Hv. reflexivity.
Qed.

Lemma resolve_private_key_witness :
  let hidden :=
    ConfigContext.mkInstance [("_secret", VString "s3cret"); ("name", VString "garden")]
                             0 JsObject.empty in
  nth_error [hidden] 0 = Some hidden
  /\ startsWithUnderscore "_secret" = true
  /\ outcomeOf (resolve 3 [hidden] 0 ["_secret"] [] None)
     = Thrown (ConfigurationError "Could not find key: _secret")
  /\ outcomeOf (resolve 3 [hidden] 0 ["name"] [] None) = Returned (VString "garden").
Proof.
  cbv zeta. split; [reflexivity|]. split; [reflexivity|]. split.
  - rewrite (resolve_private_key 2
               [ConfigContext.mkInstance
                  [("_secret", VString "s3cret"); ("name", VString "garden")]
                  0 JsObject.empty] 0
               (ConfigContext.mkInstance
                  [("_secret", VString "s3cret"); ("name", VString "garden")]
                  0 JsObject.empty)
               "_secret" [] [] None);
      [reflexivity|reflexivity|reflexivity|intros []|reflexivity].
  - vm_compute. reflexivity.
Defined.

(** X14.  [resolve] hands back primitives only: when the memo of the
    instance holds primitives under the key's path and the path is not the
    name of a property every object inherits, a value [resolve] returns is
    a string, a number or a boolean. *)
Theorem resolve_returns_primitive fuel h c this key nodePath stack v :
  nth_error h c = Some this ->
  (forall v', JsObject.get (resolvedValues this) (String.concat "." key) = Some v' ->
              isPrimitive v' = true) ->
  existsb (String.eqb (String.concat "." key)) objectPrototypeKeys = false ->
  outcomeOf (resolve fuel h c key nodePath stack) = Returned v ->
  isPrimitive v = true.
Proof.
  intros Hthis Hmemo Hproto. destruct fuel as [|fuel]; [discriminate|].
  rewrite resolve_S. unfold resolveBody. rewrite Hthis.
  destruct (truthy (memoLookup this (String.concat "." key))) eqn:Hhit.
  - simpl. intros [= <-]. unfold memoLookup in *.
    destruct (JsObject.get (resolvedValues this) (String.concat "." key)) as [v'|];
      [now apply Hmemo|].
    rewrite Hproto in Hhit. discriminate.
  - unfold resolveUncached.
    destruct (existsb _ (match stack with Some st => st | None => [] end));
      [discriminate|].
    destruct (walk _ _ _ _ _ _ _ _ _) as [[[value|e|] h'] log]; try discriminate.
    destruct value; simpl; try discriminate; intros [= <-]; reflexivity.
Qed.

Lemma resolve_returns_primitive_witness :
  outcomeOf (resolve 5 sampleHeap 0 ["environment"; "name"] [] None)
  = Returned (VString "local")
  /\ isPrimitive (VString "local") = true.
Proof.
  split; [vm_compute; reflexivity|].
  apply (resolve_returns_primitive 5 sampleHeap 0
           (ConfigContext.mkInstance
              [("name", VString "garden");
               ("greeting", VString "hello-${name}");
               ("blank", VFunction "blank" (VString ""));
               ("lazy", VFunction "lazy" (VString "value"));
               ("environment", VContext 1)]
              0 JsObject.empty)
           ["environment"; "name"] [] None (VString "local")).
  - reflexivity.
  - intros v'. discriminate.
  - reflexivity.
  - vm_compute. reflexivity.
Defined.

(** X15.  The memo is created as a plain object, so a path that names a
    property every object inherits, such as [constructor] or [toString],
    is answered by the memo lookup with that built-in, whatever the
    context holds: [resolve] returns it, not a primitive, and reads
    nothing from the context. *)
Theorem resolve_inherited_name fuel h c this key nodePath stack :
  nth_error h c = Some this ->
  existsb (String.eqb (String.concat "." key)) objectPrototypeKeys = true ->
  JsObject.get (resolvedValues this) (String.concat "." key) = None ->
  resolve (S fuel) h c key nodePath stack
  = (Returned (VNative (String.concat "." key)), h, [])
  /\ isPrimitive (VNative (String.concat "." key)) = false.
Proof.
  intros Hthis Hproto Hown. split; [|reflexivity].
  rewrite resolve_S. unfold resolveBody, memoLookup. now rewrite Hthis, Hown, Hproto.
Qed.

Lemma resolve_inherited_name_witness :
  resolve 1 sampleHeap 0 ["constructor"] [] None
  = (Returned (VNative "constructor"), sampleHeap, []).
Proof.
  apply (resolve_inherited_name 0 sampleHeap 0
           (ConfigContext.mkInstance
              [("name", VString "garden");
               ("greeting", VString "hello-${name}");
               ("blank", VFunction "blank" (VString ""));
               ("lazy", VFunction "lazy" (VString "value"));
               ("environment", VContext 1)]
              0 JsObject.empty)
           ["constructor"] [] None); reflexivity.
Defined.

End ResolveFacts.

(* --------------------------------------------------------------------- *)
(** ** The configuration graph: relations and queries *)
(* --------------------------------------------------------------------- *)

Module ConfigGraphQueryFacts.
Import ConfigGraph ConfigGraphSpec ConfigGraphQueries JsObject JsObjectFacts
       TaskNodeMapFacts ConfigGraphFacts.

Lemma get_keys {V} (o : JsObject.t V) k v : get o k = Some v -> In k (keys o).
Proof.
  intros H. apply get_In in H. change k with (fst (k, v)). now apply in_map.
Qed.

Lemma keys_get {V} (o : JsObject.t V) k : In k (keys o) -> exists v, get o k = Some v.
Proof.
  intros H. destruct (get o k) as [v|] eqn:E; [now exists v|].
  now apply get_None_notin in E.
Qed.

Lemma keys_set_incl {V} (o : JsObject.t V) k v k' :
  In k' (keys o) -> In k' (keys (set o k v)).
Proof.
  intros H. destruct (in_dec string_dec k (keys o)) as [Hin|Hnin].
  - now rewrite keys_set_existing.
  - rewrite keys_set_new by assumption. apply in_or_app. now left.
Qed.

Lemma get_updateIndex ix key f k :
  get (updateIndex ix key f) k
  = if String.eqb key k then option_map f (get ix key) else get ix k.
Proof.
  unfold updateIndex. destruct (String.eqb_spec key k) as [<-|Hne].
  - destruct (get ix key) as [n|] eqn:E; simpl; [apply get_set_eq|exact E].
  - destruct (get ix key) as [n|]; [|reflexivity].
    rewrite get_set_ne by congruence. reflexivity.
Qed.

Lemma keys_updateIndex ix key f : keys (updateIndex ix key f) = keys ix.
Proof.
  unfold updateIndex. destruct (get ix key) as [n|] eqn:E; [|reflexivity].
  apply keys_set_existing. eapply get_keys. exact E.
Qed.

Lemma In_addDependency n k b :
  In b (n_dependencies (addDependency n k)) <-> In b (n_dependencies n) \/ b = k.
Proof.
  unfold addDependency. destruct (existsb (String.eqb k) (n_dependencies n)) eqn:E.
  - split; [tauto|]. intros [H| ->]; [assumption|].
    apply existsb_exists in E. destruct E as (x & Hx & Heq).
    apply String.eqb_eq in Heq. now subst.
  - simpl. rewrite in_app_iff. simpl. intuition.
Qed.

Lemma In_addDependant n k a :
  In a (n_dependants (addDependant n k)) <-> In a (n_dependants n) \/ a = k.
Proof.
  unfold addDependant. destruct (existsb (String.eqb k) (n_dependants n)) eqn:E.
  - split; [tauto|]. intros [H| ->]; [assumption|].
    apply existsb_exists in E. destruct E as (x & Hx & Heq).
    apply String.eqb_eq in Heq. now subst.
  - simpl. rewrite in_app_iff. simpl. intuition.
Qed.

Lemma addDependency_dependants n k : n_dependants (addDependency n k) = n_dependants n.
Proof. unfold addDependency. now destruct (existsb _ _). Qed.

Lemma addDependant_dependencies n k : n_dependencies (addDependant n k) = n_dependencies n.
Proof. unfold addDependant. now destruct (existsb _ _). Qed.

Section Construction.
Variable getModuleKey : string -> option string -> string.

(** *** Properties of the index kept by the constructor *)

Lemma index_getNode g ty name mn :
  fst (getNode g ty name mn) = nodeKey ty name
  /\ index (snd (getNode g ty name mn))
     = match get (index g) (nodeKey ty name) with
       | Some _ => index g
       | None => set (index g) (nodeKey ty name) (mkNode ty name mn [] [])
       end.
Proof.
  unfold getNode. destruct (get (index g) (nodeKey ty name)); now split.
Qed.

Lemma index_updateNode g k f : index (updateNode g k f) = updateIndex (index g) k f.
Proof.
  unfold updateNode, updateIndex. now destruct (get (index g) k).
Qed.

Lemma index_addRelation g d ty name mn :
  index (addRelation g d ty name mn)
  = updateIndex
      (updateIndex (index (snd (getNode g ty name mn))) d
                   (fun n => addDependency n (nodeKey ty name)))
      (nodeKey ty name) (fun n => addDependant n d).
Proof.
  unfold addRelation. destruct (index_getNode g ty name mn) as [Hk _].
  destruct (getNode g ty name mn) as [k g1]. simpl in *. subst k.
  now rewrite !index_updateNode.
Qed.

Section IndexInvariant.

Variable Q : JsObject.t ConfigGraphNode -> Prop.
Hypothesis Q_node :
  forall ix ty name mn,
    Q ix -> get ix (nodeKey ty name) = None ->
    Q (set ix (nodeKey ty name) (mkNode ty name mn [] [])).
Hypothesis Q_relation :
  forall ix d k,
    Q ix -> In d (keys ix) -> In k (keys ix) ->
    Q (updateIndex (updateIndex ix d (fun n => addDependency n k)) k
                   (fun n => addDependant n d)).


Lemma getNode_holds g ty name mn :
  Q (index g) ->
  Q (index (snd (getNode g ty name mn)))
  /\ In (nodeKey ty name) (keys (index (snd (getNode g ty name mn))))
  /\ forall k, In k (keys (index g)) ->
               In k (keys (index (snd (getNode g ty name mn)))).
Proof.
  intros Hq. destruct (index_getNode g ty name mn) as [_ ->].
  destruct (get (index g) (nodeKey ty name)) as [n|] eqn:E.
  - split; [assumption|]. split; [eapply get_keys; exact E|auto].
  - split; [now apply Q_node|]. split.
    + eapply get_keys. apply get_set_eq.
    + intros k. apply keys_set_incl.
Qed.

Lemma addRelation_holds g d ty name mn :
  holdsAt Q d g ->
  holdsAt Q d (addRelation g d ty name mn)
  /\ forall k, In k (keys (index g)) ->
               In k (keys (index (addRelation g d ty name mn))).
Proof.
  intros [Hq Hd]. destruct (getNode_holds g ty name mn Hq) as (Hq1 & Hk & Hgrow).
  unfold holdsAt. rewrite index_addRelation, !keys_updateIndex.
  split; [split|]; auto.
Qed.

Lemma addRuntimeDependency_holds node g dep g' :
  addRuntimeDependency getModuleKey node g dep = inr g' ->
  holdsAt Q node g -> holdsAt Q node g'.
Proof.
  unfold addRuntimeDependency.
  destruct (get (serviceMap g) dep) as [s|].
  - intros [= <-] H. now apply addRelation_holds.
  - destruct (get (taskMap g) dep) as [tk|]; [|discriminate].
    intros [= <-] H. now apply addRelation_holds.
Qed.

Lemma declare_holds g1 ty name mk deps g' :
  forEach (addRuntimeDependency getModuleKey (fst (getNode g1 ty name mk))) deps
          (addRelation (snd (getNode g1 ty name mk)) (fst (getNode g1 ty name mk))
                       build mk mk)
  = inr g' ->
  Q (index g1) -> Q (index g').
Proof.
  intros H Hq. destruct (getNode_holds g1 ty name mk Hq) as (Hq2 & Hk & _).
  destruct (index_getNode g1 ty name mk) as [Hfst _].
  rewrite Hfst in *.
  assert (H3 : holdsAt Q (nodeKey ty name)
                       (addRelation (snd (getNode g1 ty name mk)) (nodeKey ty name)
                                    build mk mk))
    by (apply addRelation_holds; now split).
  destruct (forEach_preserves _ (holdsAt Q (nodeKey ty name)) deps
              (fun s y s' _ Hs Hb => addRuntimeDependency_holds _ _ _ _ Hb Hs)
              _ _ H3 H) as [Hq' _].
  exact Hq'.
Qed.

Lemma addService_holds m mk g sc g' :
  addService getModuleKey m mk g sc = inr g' -> Q (index g) -> Q (index g').
Proof.
  unfold addService. destruct (get (serviceMap g) (sc_name sc)); [discriminate|].
  match goal with |- context [getNode ?g1 ?a ?b ?c] =>
    pose proof (declare_holds g1 a b c (sc_dependencies sc) g') as Hd;
    destruct (getNode g1 a b c) as [sn g2] end.
  simpl in Hd. intros H Hq. now apply Hd.
Qed.

Lemma addTask_holds m mk g tc g' :
  addTask getModuleKey m mk g tc = inr g' -> Q (index g) -> Q (index g').
Proof.
  unfold addTask. destruct (get (serviceMap g) (tc_name tc)); [discriminate|].
  destruct (get (taskMap g) (tc_name tc)); [discriminate|].
  match goal with |- context [getNode ?g1 ?a ?b ?c] =>
    pose proof (declare_holds g1 a b c (tc_dependencies tc) g') as Hd;
    destruct (getNode g1 a b c) as [sn g2] end.
  simpl in Hd. intros H Hq. now apply Hd.
Qed.

Lemma addTest_holds m mk g tc g' :
  addTest getModuleKey m mk g tc = inr g' -> Q (index g) -> Q (index g').
Proof.
  unfold addTest.
  match goal with |- context [getNode ?g1 ?a ?b ?c] =>
    pose proof (declare_holds g1 a b c (tst_dependencies tc) g') as Hd;
    destruct (getNode g1 a b c) as [sn g2] end.
  simpl in Hd. intros H Hq. now apply Hd.
Qed.

Lemma addModule_holds g m g' :
  addModule getModuleKey g m = inr g' -> Q (index g) -> Q (index g').
Proof.
  unfold addModule.
  match goal with |- context [getNode ?g1 ?a ?b ?c] =>
    pose proof (getNode_holds g1 a b c) as Hn;
    pose proof (index_getNode g1 a b c) as [Hfst _];
    destruct (getNode g1 a b c) as [bn g2] end.
  simpl in Hn, Hfst. subst bn.
  set (g3 := fold_left _ (m_buildDependencies m) g2).
  unfold bind.
  destruct (forEach (addService getModuleKey m _) _ g3) as [e|g4] eqn:E4; [discriminate|].
  destruct (forEach (addTask getModuleKey m _) _ g4) as [e|g5] eqn:E5; [discriminate|].
  intros E6 Hq. destruct (Hn Hq) as (Hq2 & Hk & _).
  assert (H3 : holdsAt Q (nodeKey build (keyForModule getModuleKey m)) g3).
  { unfold g3.
    apply (CeilingFacts.fold_left_inv
             (holdsAt Q (nodeKey build (keyForModule getModuleKey m))));
      [|now split].
    intros s bd Hs. now apply addRelation_holds. }
  destruct H3 as [Hq3 _].
  assert (Hq4 : Q (index g4)).
  { eapply (forEach_preserves _ (fun s => Q (index s))); [|exact Hq3|exact E4].
    intros s y s' _ Hs Hb. eapply addService_holds; eassumption. }
  assert (Hq5 : Q (index g5)).
  { eapply (forEach_preserves _ (fun s => Q (index s))); [|exact Hq4|exact E5].
    intros s y s' _ Hs Hb. eapply addTask_holds; eassumption. }
  eapply (forEach_preserves _ (fun s => Q (index s))); [|exact Hq5|exact E6].
  intros s y s' _ Hs Hb. eapply addTest_holds; eassumption.
Qed.

Lemma new_holds modules g :
  new getModuleKey modules = inr g -> Q [] -> Q (index g).
Proof.
  intros H Hq. eapply (forEach_preserves _ (fun s => Q (index s))); [| |exact H].
  - intros s y s' _ Hs Hb. eapply addModule_holds; eassumption.
  - exact Hq.
Qed.

End IndexInvariant.

End Construction.

(** *** Relations are linked both ways *)

Lemma existsb_eqb_false k l : existsb (String.eqb k) l = false -> ~ In k l.
Proof.
  intros E H. assert (existsb (String.eqb k) l = true); [|congruence].
  apply existsb_exists. exists k. split; [assumption|apply String.eqb_refl].
Qed.

Lemma NoDup_snoc (l : list string) k : NoDup l -> ~ In k l -> NoDup (l ++ [k]).
Proof.
  intros Hl Hk. apply NoDup_app; [assumption|repeat constructor; tauto|].
  intros x Hx [<-|[]]. contradiction.
Qed.

Lemma addDependency_NoDup n k :
  NoDup (n_dependencies n) -> NoDup (n_dependencies (addDependency n k)).
Proof.
  intros H. unfold addDependency.
  destruct (existsb (String.eqb k) (n_dependencies n)) eqn:E; [assumption|].
  simpl. apply NoDup_snoc; [assumption|now apply existsb_eqb_false].
Qed.

Lemma addDependant_NoDup n k :
  NoDup (n_dependants n) -> NoDup (n_dependants (addDependant n k)).
Proof.
  intros H. unfold addDependant.
  destruct (existsb (String.eqb k) (n_dependants n)) eqn:E; [assumption|].
  simpl. apply NoDup_snoc; [assumption|now apply existsb_eqb_false].
Qed.

Lemma addDependency_key n k :
  nodeKey (n_type (addDependency n k)) (n_name (addDependency n k))
  = nodeKey (n_type n) (n_name n).
Proof. unfold addDependency. now destruct (existsb _ _). Qed.

Lemma addDependant_key n k :
  nodeKey (n_type (addDependant n k)) (n_name (addDependant n k))
  = nodeKey (n_type n) (n_name n).
Proof. unfold addDependant. now destruct (existsb _ _). Qed.

Lemma related_get ix d k x :
  match get ix x with
  | Some n =>
      exists n', get (related ix d k) x = Some n'
                 /\ nodeKey (n_type n') (n_name n') = nodeKey (n_type n) (n_name n)
                 /\ (forall b, In b (n_dependencies n')
                               <-> In b (n_dependencies n) \/ (x = d /\ b = k))
                 /\ (forall a, In a (n_dependants n')
                               <-> In a (n_dependants n) \/ (x = k /\ a = d))
                 /\ (NoDup (n_dependencies n) -> NoDup (n_dependencies n'))
                 /\ (NoDup (n_dependants n) -> NoDup (n_dependants n'))
  | None => get (related ix d k) x = None
  end.
Proof.
  unfold related. rewrite !get_updateIndex.
  destruct (String.eqb_spec k x) as [->|Hk];
    destruct (String.eqb_spec d x) as [->|Hd].
  - destruct (get ix x) as [n|]; simpl; [|reflexivity].
    eexists. split; [reflexivity|].
    rewrite addDependant_key, addDependency_key, addDependant_dependencies.
    split; [reflexivity|]. split; [|split; [|split]].
    + intros b. rewrite In_addDependency. tauto.
    + intros a. rewrite In_addDependant, addDependency_dependants. tauto.
    + apply addDependency_NoDup.
    + intros H. apply addDependant_NoDup. now rewrite addDependency_dependants.
  - destruct (get ix x) as [n|]; simpl; [|reflexivity].
    eexists. split; [reflexivity|].
    rewrite addDependant_key, addDependant_dependencies.
    split; [reflexivity|]. split; [|split; [|split]].
    + intros b. intuition congruence.
    + intros a. rewrite In_addDependant. tauto.
    + tauto.
    + apply addDependant_NoDup.
  - destruct (get ix x) as [n|]; simpl; [|reflexivity].
    eexists. split; [reflexivity|].
    rewrite addDependency_key, addDependency_dependants.
    split; [reflexivity|]. split; [|split; [|split]].
    + intros b. rewrite In_addDependency. tauto.
    + intros a. intuition congruence.
    + apply addDependency_NoDup.
    + tauto.
  - destruct (get ix x) as [n|]; [|reflexivity].
    exists n. split; [reflexivity|]. split; [reflexivity|].
    split; [|split; [|split]]; try tauto.
    + intros b. intuition congruence.
    + intros a. intuition congruence.
Qed.

Lemma related_Some ix d k x n' :
  get (related ix d k) x = Some n' ->
  exists n, get ix x = Some n
            /\ nodeKey (n_type n') (n_name n') = nodeKey (n_type n) (n_name n)
            /\ (forall b, In b (n_dependencies n')
                          <-> In b (n_dependencies n) \/ (x = d /\ b = k))
            /\ (forall a, In a (n_dependants n')
                          <-> In a (n_dependants n) \/ (x = k /\ a = d))
            /\ (NoDup (n_dependencies n) -> NoDup (n_dependencies n'))
            /\ (NoDup (n_dependants n) -> NoDup (n_dependants n')).
Proof.
  intros H. pose proof (related_get ix d k x) as R.
  destruct (get ix x) as [n|]; [|congruence].
  destruct R as (n'' & Hn & R). rewrite H in Hn. injection Hn as <-.
  now exists n.
Qed.

Lemma related_keeps ix d k x n :
  get ix x = Some n ->
  exists n', get (related ix d k) x = Some n'
             /\ (forall b, In b (n_dependencies n) -> In b (n_dependencies n'))
             /\ (forall a, In a (n_dependants n) -> In a (n_dependants n'))
             /\ (x = d -> In k (n_dependencies n'))
             /\ (x = k -> In d (n_dependants n')).
Proof.
  intros H. pose proof (related_get ix d k x) as R. rewrite H in R.
  destruct R as (n' & Hn & _ & Hdeps & Hdnts & _). exists n'.
  split; [assumption|]. split; [|split; [|split]].
  - intros b Hb. apply Hdeps. now left.
  - intros a Ha. apply Hdnts. now left.
  - intros ->. apply Hdeps. now right.
  - intros ->. apply Hdnts. now right.
Qed.

Lemma wellLinked_empty : wellLinked [].
Proof.
  split; [split|split]; intros *; simpl; discriminate.
Qed.

Lemma wellLinked_node ix ty name mn :
  wellLinked ix -> get ix (nodeKey ty name) = None ->
  wellLinked (set ix (nodeKey ty name) (mkNode ty name mn [] [])).
Proof.
  intros ([M1 M2] & Hs & Hn) Hfresh.
  assert (Hget : forall x n, get (set ix (nodeKey ty name) (mkNode ty name mn [] [])) x
                             = Some n ->
                             (x = nodeKey ty name /\ n = mkNode ty name mn [] [])
                             \/ (x <> nodeKey ty name /\ get ix x = Some n)).
  { intros x n. destruct (String.eqb_spec (nodeKey ty name) x) as [<-|Hne].
    - rewrite get_set_eq. intros [= <-]. now left.
    - rewrite get_set_ne by congruence. intros H. right. split; congruence. }
  assert (Hkeep : forall x n, get ix x = Some n ->
                              get (set ix (nodeKey ty name) (mkNode ty name mn [] [])) x
                              = Some n).
  { intros x n H. rewrite get_set_ne; [assumption|]. congruence. }
  split; [split|split].
  - intros a na b Ha Hb. destruct (Hget _ _ Ha) as [[_ ->]|[_ Ha']]; [destruct Hb|].
    destruct (M1 _ _ _ Ha' Hb) as (nb & Hnb & Hin). exists nb. auto.
  - intros b nb a Hb Ha. destruct (Hget _ _ Hb) as [[_ ->]|[_ Hb']]; [destruct Ha|].
    destruct (M2 _ _ _ Hb' Ha) as (na & Hna & Hin). exists na. auto.
  - intros k n H. destruct (Hget _ _ H) as [[-> ->]|[_ H']]; [reflexivity|eauto].
  - intros k n H. destruct (Hget _ _ H) as [[-> ->]|[_ H']]; [|eauto].
    split; constructor.
Qed.

Lemma wellLinked_relation ix d k :
  wellLinked ix -> In d (keys ix) -> In k (keys ix) ->
  wellLinked (updateIndex (updateIndex ix d (fun n => addDependency n k)) k
                          (fun n => addDependant n d)).
Proof.
  intros ([M1 M2] & Hs & Hn) Hd Hk. fold (related ix d k).
  apply keys_get in Hd. destruct Hd as (nd & Hnd).
  apply keys_get in Hk. destruct Hk as (nk & Hnk).
  split; [split|split].
  - intros a na' b Ha Hb.
    destruct (related_Some _ _ _ _ _ Ha) as (na & Hna & _ & Hdeps & _).
    apply Hdeps in Hb. destruct Hb as [Hb|[-> ->]].
    + destruct (M1 _ _ _ Hna Hb) as (nb & Hnb & Hin).
      destruct (related_keeps ix d k _ _ Hnb) as (nb' & Hnb' & _ & Hk' & _).
      exists nb'. auto.
    + destruct (related_keeps ix d k _ _ Hnk) as (nk' & Hnk' & _ & _ & _ & Hin).
      exists nk'. auto.
  - intros b nb' a Hb Ha.
    destruct (related_Some _ _ _ _ _ Hb) as (nb & Hnb & _ & _ & Hdnts & _).
    apply Hdnts in Ha. destruct Ha as [Ha|[-> ->]].
    + destruct (M2 _ _ _ Hnb Ha) as (na & Hna & Hin).
      destruct (related_keeps ix d k _ _ Hna) as (na' & Hna' & Hk' & _).
      exists na'. auto.
    + destruct (related_keeps ix d k _ _ Hnd) as (nd' & Hnd' & _ & _ & Hin & _).
      exists nd'. auto.
  - intros x n' H.
    destruct (related_Some _ _ _ _ _ H) as (n & Hx & Hkey & _).
    rewrite Hkey. eauto.
  - intros x n' H.
    destruct (related_Some _ _ _ _ _ H) as (n & Hx & _ & _ & _ & N1 & N2).
    destruct (Hn _ _ Hx). split; auto.
Qed.

(** X17.  In every graph the constructor returns, the relations are
    linked both ways: a node lists a dependency exactly when the
    dependency, which is itself in the index, lists the node as a
    dependant.  Every node is indexed under the key of its type and name,
    and no node lists a dependency or a dependant twice. *)
Theorem relations_linked getModuleKey modules g :
  new getModuleKey modules = inr g ->
  (forall a b,
      In b (dependenciesOf g a) <-> In a (dependantsOf g b))
  /\ (forall a b, In b (dependenciesOf g a) -> In b (keys (index g)))
  /\ (forall k n, get (index g) k = Some n ->
                  nodeKey (n_type n) (n_name n) = k
                  /\ NoDup (n_dependencies n) /\ NoDup (n_dependants n)).
Proof.
  intros H.
  destruct (new_holds getModuleKey wellLinked wellLinked_node wellLinked_relation
                      modules g H wellLinked_empty) as ([M1 M2] & Hs & Hn).
  split; [|split].
  - intros a b. unfold dependenciesOf, dependantsOf. split.
    + destruct (get (index g) a) as [na|] eqn:Ea; [|intros []].
      intros Hb. destruct (M1 _ _ _ Ea Hb) as (nb & -> & Hin). exact Hin.
    + destruct (get (index g) b) as [nb|] eqn:Eb; [|intros []].
      intros Ha. destruct (M2 _ _ _ Eb Ha) as (na & -> & Hin). exact Hin.
  - intros a b. unfold dependenciesOf.
    destruct (get (index g) a) as [na|] eqn:Ea; [|intros []].
    intros Hb. destruct (M1 _ _ _ Ea Hb) as (nb & Hnb & _).
    eapply get_keys. exact Hnb.
  - intros k n Hk. split; [eauto|]. apply (Hn _ _ Hk).
Qed.

Lemma relations_linked_witness :
  new sampleModuleKey sampleModules = inr sampleGraph
  /\ (forall a b,
         In b (dependenciesOf sampleGraph a) <-> In a (dependantsOf sampleGraph b))
  /\ (forall a b, In b (dependenciesOf sampleGraph a) ->
                  In b (keys (index sampleGraph)))
  /\ (forall k n, get (index sampleGraph) k = Some n ->
                  nodeKey (n_type n) (n_name n) = k
                  /\ NoDup (n_dependencies n) /\ NoDup (n_dependants n)).
Proof.
  split; [vm_compute; reflexivity|].
  apply (relations_linked sampleModuleKey sampleModules sampleGraph).
  vm_compute; reflexivity.
Defined.

(** *** Recursive queries *)

Lemma reaches_cons g f a m b :
  In m (applyFilter g f (dependenciesOf g a)) -> reaches g f m b -> reaches g f a b.
Proof.
  intros Ha H. induction H as [b Hb|m' b Hm IH Hb].
  - eapply reaches_step; [apply reaches_direct; exact Ha|exact Hb].
  - eapply reaches_step; [exact IH|exact Hb].
Qed.

Lemma reaches_head g f a b :
  reaches g f a b ->
  In b (applyFilter g f (dependenciesOf g a))
  \/ exists d, In d (applyFilter g f (dependenciesOf g a)) /\ reaches g f d b.
Proof.
  intros H. induction H as [b Hb|m b Hm IH Hb]; [now left|]. right.
  destruct IH as [Hd|(d & Hd & Hr)].
  - exists m. split; [assumption|now apply reaches_direct].
  - exists d. split; [assumption|]. eapply reaches_step; eassumption.
Qed.

Lemma reaches_trans g f a m b :
  reaches g f a m -> reaches g f m b -> reaches g f a b.
Proof.
  intros Ha H. induction H as [b Hb|m' b Hm IH Hb].
  - eapply reaches_step; eassumption.
  - eapply reaches_step; eassumption.
Qed.

Lemma reachedBy_cons g f b m a :
  In m (applyFilter g f (dependantsOf g b)) -> reachedBy g f m a -> reachedBy g f b a.
Proof.
  intros Hb H. induction H as [a Ha|m' a Hm IH Ha].
  - eapply reachedBy_step; [apply reachedBy_direct; exact Hb|exact Ha].
  - eapply reachedBy_step; [exact IH|exact Ha].
Qed.

Lemma reachedBy_head g f b a :
  reachedBy g f b a ->
  In a (applyFilter g f (dependantsOf g b))
  \/ exists d, In d (applyFilter g f (dependantsOf g b)) /\ reachedBy g f d a.
Proof.
  intros H. induction H as [a Ha|m a Hm IH Ha]; [now left|]. right.
  destruct IH as [Hd|(d & Hd & Hr)].
  - exists m. split; [assumption|now apply reachedBy_direct].
  - exists d. split; [assumption|]. eapply reachedBy_step; eassumption.
Qed.

Lemma recursiveDependencies_S fuel g f key :
  recursiveDependencies (S fuel) g f key
  = fold_left (TaskGraphSpec.gather (recursiveDependencies fuel g f))
              (applyFilter g f (dependenciesOf g key))
              (Some (applyFilter g f (dependenciesOf g key))).
Proof. reflexivity. Qed.

Lemma recursiveDependants_S fuel g f key :
  recursiveDependants (S fuel) g f key
  = fold_left (TaskGraphSpec.gather (recursiveDependants fuel g f))
              (applyFilter g f (dependantsOf g key))
              (Some (applyFilter g f (dependantsOf g key))).
Proof. reflexivity. Qed.

Lemma dependencies_closure fuel g f a l :
  recursiveDependencies fuel g f a = Some l ->
  forall b, In b l <-> reaches g f a b.
Proof.
  revert a l. induction fuel as [|fuel IH]; intros a l; [discriminate|].
  rewrite recursiveDependencies_S. intros H b.
  apply CancelFacts.gather_Some in H. destruct H as (Hincl & Hsub & Horigin).
  split.
  - intros Hb. destruct (Horigin b Hb) as [Hd|(d & ds & Hd & Hds & Hin)].
    + now apply reaches_direct.
    + eapply reaches_cons; [exact Hd|]. now apply (IH d ds).
  - intros Hr. apply reaches_head in Hr. destruct Hr as [Hd|(d & Hd & Hr)].
    + now apply Hincl.
    + destruct (Hsub d Hd) as (ds & Hds & Hinc). apply Hinc.
      now apply (IH d ds).
Qed.

Lemma dependants_closure fuel g f b l :
  recursiveDependants fuel g f b = Some l ->
  forall a, In a l <-> reachedBy g f b a.
Proof.
  revert b l. induction fuel as [|fuel IH]; intros b l; [discriminate|].
  rewrite recursiveDependants_S. intros H a.
  apply CancelFacts.gather_Some in H. destruct H as (Hincl & Hsub & Horigin).
  split.
  - intros Ha. destruct (Horigin a Ha) as [Hd|(d & ds & Hd & Hds & Hin)].
    + now apply reachedBy_direct.
    + eapply reachedBy_cons; [exact Hd|]. now apply (IH d ds).
  - intros Hr. apply reachedBy_head in Hr. destruct Hr as [Hd|(d & Hd & Hr)].
    + now apply Hincl.
    + destruct (Hsub d Hd) as (ds & Hds & Hinc). apply Hinc.
      now apply (IH d ds).
Qed.

(** X18.  What the recursive [getDependencyNodes] returns for a type and
    name is the transitive closure of the filtered dependency lists: a
    key is in the result exactly when a chain of dependencies that pass
    the filter leads from the node to it.  For a node that is not in the
    index the result is empty. *)
Theorem getDependencyNodes_closure fuel g ty name f l :
  getDependencyNodes fuel g ty name true f = Some l ->
  (forall b, In b l <-> reaches g f (nodeKey ty name) b)
  /\ (get (index g) (nodeKey ty name) = None -> l = []).
Proof.
  unfold getDependencyNodes.
  destruct (get (index g) (nodeKey ty name)) as [n|] eqn:E.
  - intros H. split; [|discriminate]. intros b.
    now apply (dependencies_closure fuel).
  - intros [= <-]. split; [|reflexivity]. intros b. split; [intros []|].
    intros H. apply reaches_head in H. unfold dependenciesOf in H. rewrite E in H.
    destruct f; simpl in H; destruct H as [[]|(d & [] & _)].
Qed.

Lemma getDependencyNodes_closure_witness :
  let l := ["build.api"; "service.db"; "task.migrate"; "build.db"; "build.db";
            "build.db"; "service.db"; "build.db"] in
  getDependencyNodes 5 sampleGraph service "api" true None = Some l
  /\ (forall b, In b l <-> reaches sampleGraph None (nodeKey service "api") b)
  /\ (get (index sampleGraph) (nodeKey service "api") = None -> l = []).
Proof.
  cbv zeta. split; [vm_compute; reflexivity|].
  apply (getDependencyNodes_closure 5 sampleGraph service "api" None).
  vm_compute; reflexivity.
Defined.

(** X19.  The recursive [getDependantNodes] likewise returns the
    transitive closure of the filtered dependant lists, and nothing for a
    node that is not in the index. *)
Theorem getDependantNodes_closure fuel g ty name f l :
  getDependantNodes fuel g ty name true f = Some l ->
  (forall a, In a l <-> reachedBy g f (nodeKey ty name) a)
  /\ (get (index g) (nodeKey ty name) = None -> l = []).
Proof.
  unfold getDependantNodes.
  destruct (get (index g) (nodeKey ty name)) as [n|] eqn:E.
  - intros H. split; [|discriminate]. intros a.
    now apply (dependants_closure fuel).
  - intros [= <-]. split; [|reflexivity]. intros a. split; [intros []|].
    intros H. apply reachedBy_head in H. unfold dependantsOf in H. rewrite E in H.
    destruct f; simpl in H; destruct H as [[]|(d & [] & _)].
Qed.

Lemma getDependantNodes_closure_witness :
  exists l,
    getDependantNodes 5 sampleGraph service "db" true None = Some l
    /\ (forall a, In a l <-> reachedBy sampleGraph None (nodeKey service "db") a)
    /\ (get (index sampleGraph) (nodeKey service "db") = None -> l = []).
Proof.
  eexists. split; [vm_compute; reflexivity|].
  apply (getDependantNodes_closure 5 sampleGraph service "db" None).
  vm_compute; reflexivity.
Defined.

(** X20.  When the filtered dependency lists have no cycle, which a rank
    that decreases along them expresses, [recursiveDependencies] returns
    once the recursion may go deeper than the rank of the node. *)
Theorem recursiveDependencies_returns g f (rk : string -> nat) :
  (forall x y, In y (applyFilter g f (dependenciesOf g x)) -> (rk y < rk x)%nat) ->
  forall fuel a, (rk a < fuel)%nat ->
                 exists l, recursiveDependencies fuel g f a = Some l.
Proof.
  intros Hrk. induction fuel as [|fuel IH]; intros a Hlt; [lia|].
  rewrite recursiveDependencies_S. apply CancelFacts.gather_total.
  intros d Hd. apply IH. specialize (Hrk a d Hd). lia.
Qed.

Lemma recursiveDependencies_returns_witness :
  let rk := fun k => if String.eqb k "build.db" then 0%nat
                     else if String.eqb k "service.db" then 1%nat
                     else if String.eqb k "task.migrate" then 2%nat
                     else if String.eqb k "build.api" then 1%nat
                     else if String.eqb k "service.api" then 3%nat
                     else 4%nat in
  (forall x y, In y (applyFilter sampleGraph None (dependenciesOf sampleGraph x)) ->
               (rk y < rk x)%nat)
  /\ exists l, recursiveDependencies 5 sampleGraph None "test.api.unit" = Some l.
Proof.
  cbv zeta.
  match goal with |- (forall x y, _ -> (?r y < ?r x)%nat) /\ _ => set (rk := r) end.
  assert (Hrk : forall x y,
             In y (applyFilter sampleGraph None (dependenciesOf sampleGraph x)) ->
             (rk y < rk x)%nat).
  { intros x y. unfold applyFilter, dependenciesOf.
    destruct (get (index sampleGraph) x) as [n|] eqn:E; [|intros []].
    apply get_In in E. vm_compute in E.
    repeat (destruct E as [E|E]; [injection E as <- <-; simpl;
                                  intros H; repeat (destruct H as [<-|H]);
                                  try (destruct H); vm_compute; lia|]).
    destruct E. }
  split; [exact Hrk|].
  apply (recursiveDependencies_returns sampleGraph None rk Hrk 5%nat "test.api.unit").
  vm_compute. lia.
Defined.

(** X21.  When a node lies on a cycle of filtered dependencies, or reaches
    one, [recursiveDependencies] does not return, however deep the
    recursion may go. *)
Theorem recursiveDependencies_cycle g f a c :
  a = c \/ reaches g f a c -> reaches g f c c ->
  forall fuel, recursiveDependencies fuel g f a = None.
Proof.
  intros Hac Hc fuel. revert a Hac.
  induction fuel as [|fuel IH]; intros a Hac; [reflexivity|].
  assert (Hnext : exists d, In d (applyFilter g f (dependenciesOf g a))
                            /\ (d = c \/ reaches g f d c)).
  { assert (Hr : reaches g f a c) by (destruct Hac as [->|Hr]; assumption).
    apply reaches_head in Hr. destruct Hr as [Hd|(d & Hd & Hr)].
    - exists c. split; [assumption|now left].
    - exists d. split; [assumption|now right]. }
  destruct Hnext as (d & Hd & Hdc).
  rewrite recursiveDependencies_S.
  destruct (fold_left _ _ _) as [l|] eqn:E; [|reflexivity].
  apply CancelFacts.gather_Some in E. destruct E as (_ & Hsub & _).
  destruct (Hsub d Hd) as (ds & Hds & _).
  rewrite (IH d Hdc) in Hds. discriminate.
Qed.

Lemma recursiveDependencies_cycle_witness :
  new (fun name _ => name) cyclicModules = inr cyclicGraph
  /\ ("build.a" = "build.a" \/ reaches cyclicGraph None "build.a" "build.a")
  /\ reaches cyclicGraph None "build.a" "build.a"
  /\ recursiveDependencies 1000 cyclicGraph None "build.a" = None.
Proof.
  split; [vm_compute; reflexivity|].
  assert (Hc : reaches cyclicGraph None "build.a" "build.a").
  { apply (reaches_step _ _ _ "build.b").
    - apply reaches_direct. vm_compute. tauto.
    - vm_compute. tauto. }
  split; [now left|]. split; [exact Hc|].
  apply (recursiveDependencies_cycle cyclicGraph None "build.a" "build.a");
    [now left|exact Hc].
Defined.

Lemma unfiltered_duality g :
  (forall a b, In b (dependenciesOf g a) <-> In a (dependantsOf g b)) ->
  forall a b, reaches g None a b <-> reachedBy g None b a.
Proof.
  intros Hm a b. split.
  - intros H. induction H as [b Hb|m b Hr IH Hb].
    + apply reachedBy_direct. simpl in *. now apply Hm.
    + eapply reachedBy_cons; [|exact IH]. simpl in *. now apply Hm.
  - intros H. induction H as [a Ha|m a Hr IH Ha].
    + apply reaches_direct. simpl in *. now apply Hm.
    + eapply reaches_cons; [|exact IH]. simpl in *. now apply Hm.
Qed.

(** X22.  In a graph the constructor returns, the two unfiltered recursive
    queries are converse: [b] is among the recursive dependencies of [a]
    exactly when [a] is among the recursive dependants of [b]. *)
Theorem recursive_queries_converse getModuleKey modules g fuel fuel' a b deps dependants :
  new getModuleKey modules = inr g ->
  recursiveDependencies fuel g None a = Some deps ->
  recursiveDependants fuel' g None b = Some dependants ->
  In b deps <-> In a dependants.
Proof.
  intros Hnew Hdeps Hdnts.
  rewrite (dependencies_closure _ _ _ _ _ Hdeps b).
  rewrite (dependants_closure _ _ _ _ _ Hdnts a).
  apply unfiltered_duality.
  destruct (new_holds getModuleKey wellLinked wellLinked_node wellLinked_relation
                      modules g Hnew wellLinked_empty) as ([M1 M2] & _).
  intros x y. unfold dependenciesOf, dependantsOf. split.
  - destruct (get (index g) x) as [nx|] eqn:Ex; [|intros []].
    intros Hy. destruct (M1 _ _ _ Ex Hy) as (ny & -> & Hin). exact Hin.
  - destruct (get (index g) y) as [ny|] eqn:Ey; [|intros []].
    intros Hx. destruct (M2 _ _ _ Ey Hx) as (nx & -> & Hin). exact Hin.
Qed.

Lemma recursive_queries_converse_witness :
  exists deps dependants,
    new sampleModuleKey sampleModules = inr sampleGraph
    /\ recursiveDependencies 5 sampleGraph None "service.api" = Some deps
    /\ recursiveDependants 5 sampleGraph None "build.db" = Some dependants
    /\ (In "build.db" deps <-> In "service.api" dependants).
Proof.
  eexists. eexists.
  split; [vm_compute; reflexivity|].
  split; [vm_compute; reflexivity|].
  split; [vm_compute; reflexivity|].
  apply (recursive_queries_converse sampleModuleKey sampleModules sampleGraph
                                    5%nat 5%nat "service.api" "build.db");
    vm_compute; reflexivity.
Defined.

End ConfigGraphQueryFacts.
